(** * The inline autocomplete engine of claudechic

    A shallow embedding of [claude_alamode/widgets/autocomplete.py]
    (class [TextAreaAutoComplete]) and the properties its specification
    states about it: trigger detection, candidate resolution, ranking,
    the visibility heuristic, the splice performed by a commit and the
    suppression of the notifications a commit raises.

    Organisation: the Python built-ins the widget uses ([Py]), the
    directory cache ([LRU]), the widget itself ([AutoComplete]), a small
    concrete host used to run the code ([Demo]), and then the lemmas. *)

From Stdlib Require Import List ZArith NArith QArith Bool Lia.
From Stdlib Require Ascii String.
From Stdlib Require Import Permutation Sorted.
Import ListNotations.
Close Scope Q_scope.
Import String.StringSyntax.
Delimit Scope string_scope with string.
Open Scope nat_scope.

(* ================================================================== *)
(** ** Python built-ins *)
(* ================================================================== *)

Module Py.

(** A Python [str] is a sequence of Unicode code points. *)
Abbreviation char := N (only parsing).
Abbreviation str := (list N) (only parsing).

(** ASCII literals, written as Rocq strings. *)
Definition lit (s : String.string) : str :=
  map Ascii.N_of_ascii (String.list_ascii_of_string s).
Arguments lit s%_string.

Definition SLASH : char := 47%N.
Definition AT : char := 64%N.
Definition DOT : char := 46%N.
Definition SPACE : char := 32%N.
Definition NEWLINE : char := 10%N.
Definition TAB : char := 9%N.

(** [a == b] on strings. *)
Fixpoint str_eqb (a b : str) : bool :=
  match a, b with
  | [], [] => true
  | c :: a', d :: b' => N.eqb c d && str_eqb a' b'
  | _, _ => false
  end.

(** [a < b] on strings: lexicographic on code points. *)
Fixpoint str_ltb (a b : str) : bool :=
  match a, b with
  | _, [] => false
  | [], _ :: _ => true
  | c :: a', d :: b' => N.ltb c d || (N.eqb c d && str_ltb a' b')
  end.

(** [c in s] for a one-character [c]. *)
Definition char_in (c : char) (s : str) : bool := existsb (N.eqb c) s.

(** [s.startswith(p)] and [s.endswith(p)]. *)
Fixpoint startswith (s p : str) : bool :=
  match p, s with
  | [], _ => true
  | _ :: _, [] => false
  | c :: p', d :: s' => N.eqb d c && startswith s' p'
  end.

Definition endswith (s p : str) : bool := startswith (rev s) (rev p).

(** [s.startswith((p1, p2, ...))]. *)
Definition startswith_any (s : str) (ps : list str) : bool :=
  existsb (startswith s) ps.

(** [s.rfind(c)] for a one-character [c]: the highest index of [c], and
    [None] for Python's [-1]. *)
Fixpoint rfind (c : char) (s : str) : option nat :=
  match s with
  | [] => None
  | d :: s' =>
      match rfind c s' with
      | Some i => Some (S i)
      | None => if N.eqb d c then Some 0 else None
      end
  end.

(** [s.lstrip(c)] and [s.rstrip(c)] for a one-character [c]. *)
Fixpoint lstrip (c : char) (s : str) : str :=
  match s with
  | d :: s' => if N.eqb d c then lstrip c s' else s
  | [] => []
  end.

Definition rstrip (c : char) (s : str) : str := rev (lstrip c (rev s)).

(** Slices with non-negative bounds: [s[a:b]], [s[:b]] is [firstn b s] and
    [s[a:]] is [skipn a s]. *)
Definition slice (s : str) (a b : nat) : str := firstn (b - a) (skipn a s).

(** [s.split("\n")]: never empty, one more piece than there are newlines. *)
Fixpoint split_lines (s : str) : list str :=
  match s with
  | [] => [[]]
  | c :: s' =>
      if N.eqb c NEWLINE then [] :: split_lines s'
      else match split_lines s' with
           | l :: ls => (c :: l) :: ls
           | [] => [[c]]
           end
  end.

(** Exceptions the widget can meet.  [OSError] carries the subclass the
    operating system reported; [except OSError] catches all of them. *)
Inductive os_error := FileNotFoundError | PermissionError | NotADirectoryError | OtherOSError (errno : Z).

Inductive exn := OSError (e : os_error) | IndexError | OptionDoesNotExist | ValueError.

Definition is_OSError (e : exn) : bool :=
  match e with OSError _ => true | _ => false end.

Inductive result (A : Type) := Ok (a : A) | Raise (e : exn).
Arguments Ok {A} a.
Arguments Raise {A} e.

Definition bind {A B} (m : result A) (k : A -> result B) : result B :=
  match m with
  | Ok a => k a
  | Raise e => Raise e
  end.

(** [list.sort(key=...)]: a stable sort that compares keys with [<].  The
    result of a stable sort is determined by the input, so an insertion sort
    stands for it. *)
Section Sort.
Context {A K : Type} (ltb : K -> K -> bool) (key : A -> K).

Fixpoint insert (x : A) (l : list A) : list A :=
  match l with
  | [] => [x]
  | y :: l' => if ltb (key y) (key x) then y :: insert x l' else x :: l
  end.

Fixpoint sort (l : list A) : list A :=
  match l with
  | [] => []
  | x :: l' => insert x (sort l')
  end.

(** [list.sort(key=..., reverse=True)]: CPython reverses the list, sorts it
    and reverses it again, which keeps equal keys in their original order. *)
Definition sort_reverse (l : list A) : list A := rev (sort (rev l)).

End Sort.

End Py.

(* ================================================================== *)
(** ** The directory cache *)
(* ================================================================== *)

Module LRU.
Import Py.

Section Cache.
Context {V : Type}.

(** Modelled from the spec: [textual.cache.LRUCache], the class behind
    [self._directory_cache], is imported from the Textual library and is not
    part of the sources.  Section 4.4 of the specification describes it: a
    strict bounded-capacity LRU; [put] when full evicts the
    least-recently-accessed key before inserting; [get] on a hit promotes the
    key.  Entries are kept most recently used first, so the last entry is the
    least recently used one. *)
Record LRUCache := { maxsize : nat; entries : list (str * V) }.

Definition empty (n : nat) : LRUCache := {| maxsize := n; entries := [] |}.

Definition keys (c : LRUCache) : list str := map fst (entries c).

Fixpoint lookup (k : str) (l : list (str * V)) : option V :=
  match l with
  | [] => None
  | (k', v) :: l' => if str_eqb k k' then Some v else lookup k l'
  end.

Fixpoint remove (k : str) (l : list (str * V)) : list (str * V) :=
  match l with
  | [] => []
  | (k', v) :: l' => if str_eqb k k' then remove k l' else (k', v) :: remove k l'
  end.

(** The key that the next eviction removes. *)
Definition lru_key (c : LRUCache) : option str :=
  match rev (keys c) with
  | [] => None
  | k :: _ => Some k
  end.

Definition full (c : LRUCache) : bool := maxsize c <=? length (entries c).

(** [cache.get(key)]: the value, or [None]; a hit moves the key to the
    most-recently-used end. *)
Definition get (k : str) (c : LRUCache) : option V * LRUCache :=
  match lookup k (entries c) with
  | Some v => (Some v, {| maxsize := maxsize c; entries := (k, v) :: remove k (entries c) |})
  | None => (None, c)
  end.

(** [cache[key] = value].  The specification speaks of new keys only; a key
    that is already present is overwritten and promoted here. *)
Definition put (k : str) (v : V) (c : LRUCache) : LRUCache :=
  match lookup k (entries c) with
  | Some _ => {| maxsize := maxsize c; entries := (k, v) :: remove k (entries c) |}
  | None =>
      let kept := if full c then removelast (entries c) else entries c in
      {| maxsize := maxsize c; entries := (k, v) :: kept |}
  end.

(** The operations a client can perform, and the caches they lead to from an
    empty one. *)
Inductive op := Get (k : str) | Put (k : str) (v : V).

Definition apply (o : op) (c : LRUCache) : LRUCache :=
  match o with
  | Get k => snd (get k c)
  | Put k v => put k v c
  end.

Definition run (ops : list op) (c : LRUCache) : LRUCache :=
  fold_left (fun c o => apply o c) ops c.

End Cache.
Arguments LRUCache V : clear implicits.
Arguments op V : clear implicits.

End LRU.

(* ================================================================== *)
(** ** The widget: [TextAreaAutoComplete] *)
(* ================================================================== *)

Module AutoComplete.
Import Py.

(** [self._mode]: ["slash"], ["path"] or [None]. *)
Inductive Mode := slash | path.

Definition Mode_eqb (a b : Mode) : bool :=
  match a, b with
  | slash, slash | path, path => true
  | _, _ => false
  end.

(** [self._mode == m]. *)
Definition mode_is (mode : option Mode) (m : Mode) : bool :=
  match mode with
  | Some m' => Mode_eqb m' m
  | None => false
  end.

Record TargetState := { text : str; cursor_position : Z }.

(** Textual's [Content]: plain text and the spans that carry the highlight
    style. *)
Record Content := { plain : str; spans : list (nat * nat) }.

Definition Content_of_str (s : str) : Content := {| plain := s; spans := [] |}.

Definition stylize (c : Content) (a b : nat) : Content :=
  {| plain := plain c; spans := spans c ++ [(a, b)] |}.

Definition assemble (p m : Content) : Content :=
  {| plain := plain p ++ plain m;
     spans := spans p ++ map (fun '(a, b) => (length (plain p) + a, length (plain p) + b)) (spans m) |}.

Record DropdownItem := {
  main : Content;
  prefix : option Content;
  id : option str;
  disabled : bool
}.

(** [DropdownItem(main, prefix=prefix)] with string arguments. *)
Definition new_item (main_ : str) (prefix_ : str) : DropdownItem :=
  {| main := Content_of_str main_; prefix := Some (Content_of_str prefix_);
     id := None; disabled := false |}.

Definition value (d : DropdownItem) : str := plain (main d).

(** The prompt handed to [Option.__init__]: the prefix, when there is one
    and it is not empty, followed by [main]. *)
Definition prompt (d : DropdownItem) : Content :=
  match prefix d with
  | Some p => match plain p with [] => main d | _ :: _ => assemble p (main d) end
  | None => main d
  end.

(** The prefixes of the candidates: a glyph and a space. *)
Definition BOLT : str := [0x26A1%N; SPACE].
Definition FOLDER : str := [0x1F4C2%N; SPACE].
Definition PAGE : str := [0x1F4C4%N; SPACE].

(** [os.DirEntry]: the name of the entry and what [entry.is_dir()] answers.
    The call asks the file system when the entry is a symbolic link, and it
    can raise [OSError]: a link that loops, a directory that may not be
    searched. *)
Record DirEntry := { name : str; is_dir : result bool }.

(** [s[:z]] for an integer [z] of either sign. *)
Definition prefix_to (s : str) (z : Z) : str :=
  if (z <? 0)%Z then firstn (length s - Z.to_nat (- z)) s else firstn (Z.to_nat z) s.

(** "Use text up to cursor, or full text if cursor at start". *)
Definition text_to_check (state : TargetState) : str :=
  if (0 <? cursor_position state)%Z then prefix_to (text state) (cursor_position state)
  else text state.

(** The detection block of [_handle_text_change]: the values it leaves in
    [self._mode] and [self._trigger_pos]. *)
Definition detect (state : TargetState) : option Mode * nat :=
  if startswith (text state) [SLASH] then (Some slash, 0)
  else if char_in AT (text_to_check state) then
    match rfind AT (text_to_check state) with
    | Some at_pos =>
        if (at_pos =? 0)
           || match nth_error (text_to_check state) (at_pos - 1) with
              | Some c => char_in c [SPACE; NEWLINE; TAB]
              | None => false
              end
        then (Some path, at_pos)
        else (None, 0)
    | None => (None, 0) (* excluded by the membership test *)
    end
  else (None, 0).

(** [tuple < tuple] on the sort key of the path candidates. *)
Definition key_ltb (a b : bool * str) : bool :=
  match fst a, fst b with
  | false, true => true
  | true, false => false
  | _, _ => str_ltb (snd a) (snd b)
  end.

Definition Qltb (a b : Q) : bool := negb (Qle_bool b a).

Section Widget.

(** What the widget takes from outside: [pathlib], the file system, the
    fuzzy matcher of [textual_autocomplete], two methods of [str] that
    depend on the Unicode tables, and the target's validation of a cursor
    location: [TextArea] clamps the location it is asked to move to into its
    document, [clamp_visitable t loc] being the location it keeps when its
    text is [t]. *)
Context {Path : Type}.
Variable joinpath : Path -> str -> Path.
Variable path_str : Path -> str.
Variable scandir : Path -> result (list DirEntry).
Variable fuzzy_match : str -> str -> Q * list nat.
Variable isspace : char -> bool.
Variable lower : str -> str.
Variable clamp_visitable : str -> nat * nat -> nat * nat.

Inductive Callback := hide_and_reset.

(** The widget together with its target [TextArea] and its [OptionList]. *)
Record Widget := {
  target_text : str;
  target_cursor_location : nat * nat;
  slash_commands : list str;
  base_path : Path;
  _directory_cache : LRU.LRUCache (list DirEntry);
  _mode : option Mode;
  _trigger_pos : nat;
  _completing : bool;
  options : list DropdownItem;
  highlighted : option nat;
  display : bool;
  after_refresh : list Callback
}.

Definition set_target (t : str) (loc : nat * nat) (w : Widget) : Widget :=
  {| target_text := t; target_cursor_location := loc;
     slash_commands := slash_commands w; base_path := base_path w;
     _directory_cache := _directory_cache w; _mode := _mode w;
     _trigger_pos := _trigger_pos w; _completing := _completing w;
     options := options w; highlighted := highlighted w; display := display w;
     after_refresh := after_refresh w |}.

Definition set_session (m : option Mode) (p : nat) (w : Widget) : Widget :=
  {| target_text := target_text w; target_cursor_location := target_cursor_location w;
     slash_commands := slash_commands w; base_path := base_path w;
     _directory_cache := _directory_cache w; _mode := m;
     _trigger_pos := p; _completing := _completing w;
     options := options w; highlighted := highlighted w; display := display w;
     after_refresh := after_refresh w |}.

Definition set_completing (b : bool) (w : Widget) : Widget :=
  {| target_text := target_text w; target_cursor_location := target_cursor_location w;
     slash_commands := slash_commands w; base_path := base_path w;
     _directory_cache := _directory_cache w; _mode := _mode w;
     _trigger_pos := _trigger_pos w; _completing := b;
     options := options w; highlighted := highlighted w; display := display w;
     after_refresh := after_refresh w |}.

Definition set_cache (c : LRU.LRUCache (list DirEntry)) (w : Widget) : Widget :=
  {| target_text := target_text w; target_cursor_location := target_cursor_location w;
     slash_commands := slash_commands w; base_path := base_path w;
     _directory_cache := c; _mode := _mode w;
     _trigger_pos := _trigger_pos w; _completing := _completing w;
     options := options w; highlighted := highlighted w; display := display w;
     after_refresh := after_refresh w |}.

Definition set_options (o : list DropdownItem) (h : option nat) (w : Widget) : Widget :=
  {| target_text := target_text w; target_cursor_location := target_cursor_location w;
     slash_commands := slash_commands w; base_path := base_path w;
     _directory_cache := _directory_cache w; _mode := _mode w;
     _trigger_pos := _trigger_pos w; _completing := _completing w;
     options := o; highlighted := h; display := display w;
     after_refresh := after_refresh w |}.

Definition set_display (b : bool) (w : Widget) : Widget :=
  {| target_text := target_text w; target_cursor_location := target_cursor_location w;
     slash_commands := slash_commands w; base_path := base_path w;
     _directory_cache := _directory_cache w; _mode := _mode w;
     _trigger_pos := _trigger_pos w; _completing := _completing w;
     options := options w; highlighted := highlighted w; display := b;
     after_refresh := after_refresh w |}.

Definition set_after_refresh (q : list Callback) (w : Widget) : Widget :=
  {| target_text := target_text w; target_cursor_location := target_cursor_location w;
     slash_commands := slash_commands w; base_path := base_path w;
     _directory_cache := _directory_cache w; _mode := _mode w;
     _trigger_pos := _trigger_pos w; _completing := _completing w;
     options := options w; highlighted := highlighted w; display := display w;
     after_refresh := q |}.

(** [TextAreaAutoComplete(target, slash_commands, base_path)], mounted on a
    target that holds [t] with the cursor at [loc]. *)
Definition __init__ (t : str) (loc : nat * nat) (commands : list str) (base : Path) : Widget :=
  {| target_text := t; target_cursor_location := loc;
     slash_commands := commands; base_path := base;
     _directory_cache := LRU.empty 100; _mode := None;
     _trigger_pos := 0; _completing := false;
     options := []; highlighted := None; display := false;
     after_refresh := [] |}.

Definition action_hide (self : Widget) : Widget := set_display false self.
Definition action_show (self : Widget) : Widget := set_display true self.
Definition option_count (self : Widget) : nat := length (options self).

(** The linear cursor position: [lines[i]] raises [IndexError] when the row
    lies beyond the lines of the text. *)
Definition _get_cursor_position (self : Widget) : result nat :=
  let '(row, col) := target_cursor_location self in
  let lines := split_lines (target_text self) in
  if row <=? length lines
  then Ok (list_sum (map (fun l => length l + 1) (firstn row lines)) + col)
  else Raise IndexError.

Definition _get_target_state (self : Widget) : result TargetState :=
  bind (_get_cursor_position self) (fun pos =>
  Ok {| text := target_text self; cursor_position := Z.of_nat pos |}).

Definition _get_search_string (state : TargetState) (self : Widget) : str :=
  match _mode self with
  | Some slash => text_to_check state
  | Some path =>
      let path_text := skipn (_trigger_pos self + 1) (text_to_check state) in
      if char_in SLASH path_text then
        match rfind SLASH path_text with
        | Some last_slash => skipn (last_slash + 1) path_text
        | None => path_text (* excluded by the membership test *)
        end
      else path_text
  | None => []
  end.

(** The loop of [_get_path_candidates] over the entries of a listing.
    [entry.is_dir()] is called for the entries that are not skipped, and the
    loop stands outside the [try] of the method: the first exception the call
    raises ends the loop and leaves the method. *)
Fixpoint entry_items (entries : list DirEntry) : result (list DropdownItem) :=
  match entries with
  | [] => Ok []
  | entry :: rest =>
      if startswith (name entry) [DOT] then entry_items rest
      else
        bind (is_dir entry) (fun d =>
        let item := if d then new_item (name entry ++ [SLASH]) FOLDER
                    else new_item (name entry) PAGE in
        bind (entry_items rest) (fun results => Ok (item :: results)))
  end.

Definition sort_key (x : DropdownItem) : bool * str :=
  (negb (endswith (value x) [SLASH]), lower (value x)).

(** The directory [_get_path_candidates] lists. *)
Definition target_directory (state : TargetState) (self : Widget) : Path :=
  let text_before_cursor := prefix_to (text state) (cursor_position state) in
  let path_text := skipn (_trigger_pos self + 1) text_before_cursor in
  if char_in SLASH path_text then
    match rfind SLASH path_text with
    | Some last_slash =>
        let dir_path := match firstn last_slash path_text with
                        | [] => [SLASH]
                        | d => d
                        end in
        joinpath (base_path self) dir_path
    | None => base_path self (* excluded by the membership test *)
    end
  else base_path self.

(** Returns the candidates and the cache as the call leaves it.  Only the
    reading of the directory stands in the [try]; an exception of the loop
    over the entries leaves the method, the listing already cached. *)
Definition _get_path_candidates (state : TargetState) (self : Widget)
  : result (list DropdownItem * LRU.LRUCache (list DirEntry)) :=
  let directory := target_directory state self in
  let cache_key := path_str directory in
  let '(cached, cache) := LRU.get cache_key (_directory_cache self) in
  match cached with
  | Some entries =>
      bind (entry_items entries) (fun results =>
      Ok (sort key_ltb sort_key results, cache))
  | None =>
      match scandir directory with
      | Ok entries =>
          let cache := LRU.put cache_key entries cache in
          bind (entry_items entries) (fun results =>
          Ok (sort key_ltb sort_key results, cache))
      | Raise e => if is_OSError e then Ok ([], cache) else Raise e
      end
  end.

Definition _get_candidates (state : TargetState) (self : Widget)
  : result (list DropdownItem * LRU.LRUCache (list DirEntry)) :=
  match _mode self with
  | Some slash => Ok (map (fun cmd => new_item cmd BOLT) (slash_commands self), _directory_cache self)
  | Some path => _get_path_candidates state self
  | None => Ok ([], _directory_cache self)
  end.

Definition _apply_highlights (candidate : Content) (offsets : list nat) : Content :=
  fold_left (fun candidate offset =>
    match nth_error (plain candidate) offset with
    | Some c => if negb (isspace c) then stylize candidate offset (offset + 1) else candidate
    | None => candidate
    end) offsets candidate.

(** The query [_get_matches] hands to the matcher. *)
Definition query_of (mode : option Mode) (search_string : str) : str :=
  if mode_is mode slash then lstrip SLASH search_string else search_string.

(** The score [_get_matches] computes for a candidate. *)
Definition score_of (query : str) (candidate : DropdownItem) : Q :=
  fst (fuzzy_match query (rstrip SLASH (value candidate))).

(** The loop of [_get_matches]: the highlighted items with their scores. *)
Definition matches_and_scores (query : str) (candidates : list DropdownItem)
  : list (DropdownItem * Q) :=
  flat_map (fun candidate =>
    let '(score, offsets) := fuzzy_match query (rstrip SLASH (value candidate)) in
    if Qltb 0 score then
      [({| main := _apply_highlights (main candidate) offsets;
           prefix := prefix candidate; id := id candidate;
           disabled := disabled candidate |}, score)]
    else []) candidates.

Definition _get_matches (candidates : list DropdownItem) (search_string : str)
  (self : Widget) : list DropdownItem :=
  match search_string with
  | [] => candidates
  | _ :: _ =>
      let query := query_of (_mode self) search_string in
      match query with
      | [] => candidates
      | _ :: _ => map fst (sort_reverse Qltb snd (matches_and_scores query candidates))
      end
  end.

Definition _rebuild_options (state : TargetState) (self : Widget) : result Widget :=
  let self := set_options [] None self in
  bind (_get_candidates state self) (fun '(candidates, cache) =>
  let self := set_cache cache self in
  let search_string := _get_search_string state self in
  let matches := _get_matches candidates search_string self in
  match matches with
  | [] => Ok self
  | _ :: _ => Ok (set_options matches (Some 0) self)
  end).

Definition _should_show (search_string : str) (self : Widget) : bool :=
  match options self with
  | [] => false
  | [first_option] =>
      let text := plain (prompt first_option) in
      if mode_is (_mode self) slash
      then negb (str_eqb text (lstrip SLASH search_string))
      else negb (str_eqb text search_string)
  | _ :: _ :: _ => true
  end.

(** [_align_to_target], which only places the dropdown on the screen, is
    left out. *)
Definition _handle_text_change (self : Widget) : result Widget :=
  if _completing self then Ok self
  else
    bind (_get_target_state self) (fun state =>
    let '(mode, trigger_pos) := detect state in
    let self := set_session mode trigger_pos self in
    match _mode self with
    | Some _ =>
        bind (_rebuild_options state self) (fun self =>
        if 0 <? option_count self then
          let search := _get_search_string state self in
          if _should_show search self then Ok (action_show self)
          else Ok (action_hide self)
        else Ok (action_hide self))
    | None => Ok (action_hide self)
    end).

(** *** The host

    The target reports its changes to the widget: [TextArea.Changed] reaches
    [_on_target_message] and a change of the selection reaches
    [_on_selection_change]; both call [_handle_text_change].  How many of
    these calls a write causes before it returns is the host's business, so
    it is a parameter.  Assigning [target.text] leaves the cursor at the
    start of the text; [move_cursor] leaves it at the location the target
    makes of the one it is given. *)
Record Host := { on_text : nat; on_cursor : nat }.

Fixpoint notify (n : nat) (self : Widget) : result Widget :=
  match n with
  | 0 => Ok self
  | S n' => bind (_handle_text_change self) (notify n')
  end.

Definition write_text (host : Host) (t : str) (self : Widget) : result Widget :=
  notify (on_text host) (set_target t (0, 0) self).

Definition move_cursor (host : Host) (loc : nat * nat) (self : Widget) : result Widget :=
  notify (on_cursor host)
    (set_target (target_text self) (clamp_visitable (target_text self) loc) self).

Definition _apply_completion (host : Host) (value : str) (state : TargetState)
  (self : Widget) : result Widget :=
  let text := text state in
  let cursor_pos :=
    if (0 <? cursor_position state)%Z then Z.to_nat (cursor_position state)
    else length text in
  match _mode self with
  | Some slash =>
      bind (write_text host value self) (fun self' =>
      move_cursor host (0, length value) self')
  | Some path =>
      let trigger_pos := _trigger_pos self in
      let path_text := slice text (trigger_pos + 1) cursor_pos in
      let replace_start :=
        if char_in SLASH path_text then
          match rfind SLASH path_text with
          | Some last_slash => trigger_pos + 1 + last_slash + 1
          | None => trigger_pos + 1 (* excluded by the membership test *)
          end
        else trigger_pos + 1 in
      let new_text := firstn replace_start text ++ value ++ skipn cursor_pos text in
      bind (write_text host new_text self) (fun self' =>
      let new_cursor := replace_start + length value in
      let lines := split_lines (firstn new_cursor new_text) in
      let row := length lines - 1 in
      let col := length (last lines []) in
      move_cursor host (row, col) self')
  | None => Ok self
  end.

Definition call_after_refresh (cb : Callback) (self : Widget) : Widget :=
  set_after_refresh (after_refresh self ++ [cb]) self.

Definition run_callback (cb : Callback) (self : Widget) : Widget :=
  match cb with
  | hide_and_reset => action_hide (set_completing false self)
  end.

(** The refresh: the callbacks registered with [call_after_refresh] run in
    order and the queue is emptied. *)
Definition refresh (self : Widget) : Widget :=
  fold_left (fun w cb => run_callback cb w) (after_refresh self)
            (set_after_refresh [] self).

Definition _complete (host : Host) (option_index : nat) (self : Widget) : result Widget :=
  if negb (display self) || (option_count self =? 0) then Ok self
  else
    match nth_error (options self) option_index with
    | None => Raise OptionDoesNotExist
    | Some option =>
        let value := plain (prompt option) in
        let value := if startswith_any value [BOLT; FOLDER; PAGE] then skipn 2 value else value in
        bind (_get_target_state self) (fun state =>
        let keep_open := mode_is (_mode self) path && endswith value [SLASH] in
        let self := set_completing true self in
        bind (_apply_completion host value state self) (fun self =>
        if keep_open then _handle_text_change (set_completing false self)
        else Ok (call_after_refresh hide_and_reset self)))
    end.

Inductive Key := down | up | tab | enter | escape | other_key.

(** Returns whether the key was consumed. *)
Definition handle_key (host : Host) (key : Key) (self : Widget) : result (bool * Widget) :=
  if (option_count self =? 0) || negb (display self) then Ok (false, self)
  else
    let highlighted_ := match highlighted self with Some h => h | None => 0 end in
    let count := Z.of_nat (option_count self) in
    match key with
    | down =>
        Ok (true, set_options (options self)
                    (Some (Z.to_nat ((Z.of_nat highlighted_ + 1) mod count))) self)
    | up =>
        Ok (true, set_options (options self)
                    (Some (Z.to_nat ((Z.of_nat highlighted_ - 1) mod count))) self)
    | tab | enter =>
        bind (_complete host highlighted_ self) (fun self => Ok (true, self))
    | escape => Ok (true, action_hide self)
    | other_key => Ok (false, self)
    end.

End Widget.
Arguments Widget Path : clear implicits.

End AutoComplete.

(* ================================================================== *)
(** ** The specification's words *)
(* ================================================================== *)

Module Spec.
Import Py.

(** [i] is the index of the last occurrence of [c] in [s]. *)
Definition last_index (c : char) (s : str) (i : nat) : Prop :=
  nth_error s i = Some c /\ forall j, i < j -> nth_error s j <> Some c.

(** "the character immediately before it is either absent (start of text) or
    whitespace (space, tab, newline)". *)
Definition boundary_before (s : str) (i : nat) : Prop :=
  i = 0 \/ exists c, nth_error s (i - 1) = Some c /\ (c = SPACE \/ c = TAB \/ c = NEWLINE).

(** "If snapshot.text starts with /". *)
Definition starts_with_slash (text : str) : Prop := exists rest, text = SLASH :: rest.

(** "the substring of text from index 0 to cursorOffset (or the whole text if
    cursorOffset <= 0)". *)
Definition scanned (text : str) (cursorOffset : Z) : str :=
  if (cursorOffset <=? 0)%Z then text else firstn (Z.to_nat cursorOffset) text.

(** The splice of section 4.5 in PathReference mode, read with the offsets it
    is given: "let pathText = substring from triggerOffset+1 to cursorOffset.
    If pathText contains /, replace only the segment after the last / with
    label; otherwise replace everything after the trigger character". *)
Definition pathText (text : str) (triggerOffset cursorOffset : nat) : str :=
  slice text (triggerOffset + 1) cursorOffset.

Definition replaceStart (text : str) (triggerOffset cursorOffset : nat) : nat :=
  match rfind SLASH (pathText text triggerOffset cursorOffset) with
  | Some i => triggerOffset + 1 + i + 1
  | None => triggerOffset + 1
  end.

Definition splice (text : str) (triggerOffset cursorOffset : nat) (label : str) : str * nat :=
  let rs := replaceStart text triggerOffset cursorOffset in
  (firstn rs text ++ label ++ skipn cursorOffset text, rs + length label).

(** The offset the code splices at: the cursor, and the end of the text when
    the cursor is at offset 0 or below. *)
Definition effective_cursor (text : str) (cursorOffset : Z) : nat :=
  if (0 <? cursorOffset)%Z then Z.to_nat cursorOffset else length text.

(** [a] appears in [b], unchanged and in the same relative order. *)
Fixpoint subsequence (a b : str) : bool :=
  match a, b with
  | [], _ => true
  | _ :: _, [] => false
  | x :: a', y :: b' => if N.eqb x y then subsequence a' b' else subsequence a b'
  end.

End Spec.

(* ================================================================== *)
(** ** A concrete host *)
(* ================================================================== *)

(** A small file system and a plain subsequence matcher, to run the widget
    on concrete inputs. *)
Module Demo.
Import Py AutoComplete.

Definition Path := str.
Definition joinpath (base : Path) (d : str) : Path := base ++ [SLASH] ++ d.
Definition path_str (p : Path) : str := p.

(** The directory of the project's path test, with a hidden entry added. *)
Definition listing : list DirEntry :=
  [ {| name := lit "file2.txt"; is_dir := Ok false |};
    {| name := lit ".hidden"; is_dir := Ok false |};
    {| name := lit "subdir"; is_dir := Ok true |};
    {| name := lit "file1.txt"; is_dir := Ok false |} ].

(** A directory that can be listed and holds a file and a symbolic link that
    points to itself: [is_dir()] fails on the link with [ELOOP], errno 40. *)
Definition ELOOP : exn := OSError (OtherOSError 40).

Definition loops : list DirEntry :=
  [ {| name := lit "a.txt"; is_dir := Ok false |};
    {| name := lit "link"; is_dir := Raise ELOOP |} ].

Definition scandir (p : Path) : result (list DirEntry) :=
  if str_eqb p (lit "tmp") then Ok listing
  else if str_eqb p (lit "tmp/subdir") then Ok []
  else if str_eqb p (lit "tmp/loops") then Ok loops
  else if str_eqb p (lit "tmp/locked") then Raise (OSError PermissionError)
  else Raise (OSError FileNotFoundError).

(** The offsets at which [query] matches [candidate] as a subsequence. *)
Fixpoint offsets_from (i : nat) (query candidate : str) : option (list nat) :=
  match query, candidate with
  | [], _ => Some []
  | _ :: _, [] => None
  | q :: query', c :: candidate' =>
      if N.eqb q c
      then option_map (cons i) (offsets_from (S i) query' candidate')
      else offsets_from (S i) query candidate'
  end.

Definition fuzzy_match (query candidate : str) : Q * list nat :=
  match offsets_from 0 query candidate with
  | Some offs => (inject_Z (Z.of_nat (length offs)), offs)
  | None => (0%Q, [])
  end.

Definition isspace (c : char) : bool := char_in c [SPACE; NEWLINE; TAB].

Definition lower_char (c : char) : char :=
  if (N.leb 65 c && N.leb c 90)%N%bool then (c + 32)%N else c.
Definition lower (s : str) : str := map lower_char s.

Definition commands : list str :=
  [lit "/worktree start"; lit "/worktree finish"; lit "/clear"].

Definition widget (t : str) (loc : nat * nat) : Widget Path :=
  __init__ t loc commands (lit "tmp").

Definition quiet : Host := {| on_text := 0; on_cursor := 0 |}.
Definition busy : Host := {| on_text := 2; on_cursor := 1 |}.

(** A target whose document has the lines of [t.split("\n")], clamping as
    [TextArea.clamp_visitable] does: the row is brought into the document,
    the column into the line the requested row names, and to 0 when the
    document has no such row. *)
Definition clamp_visitable (t : str) (loc : nat * nat) : nat * nat :=
  let lines := split_lines t in
  match nth_error lines (fst loc) with
  | Some line => (fst loc, Nat.min (snd loc) (length line))
  | None => (length lines - 1, 0)
  end.

Definition handle_text_change := _handle_text_change joinpath path_str scandir fuzzy_match isspace lower.
Definition complete :=
  _complete joinpath path_str scandir fuzzy_match isspace lower clamp_visitable.
Definition apply_completion :=
  _apply_completion joinpath path_str scandir fuzzy_match isspace lower clamp_visitable.

Definition unwrap (r : result (Widget Path)) (default : Widget Path) : Widget Path :=
  match r with Ok w => w | Raise _ => default end.

End Demo.

(* ================================================================== *)
(** ** Facts about the built-ins *)
(* ================================================================== *)

Module PyFacts.
Import Py.

Lemma str_eqb_eq (a b : str) : str_eqb a b = true <-> a = b.
Proof.
  revert b; induction a as [|c a IH]; intros [|d b]; simpl;
    try (split; [discriminate | discriminate]); try tauto.
  rewrite andb_true_iff, N.eqb_eq, IH. split.
  - intros [-> ->]; reflexivity.
  - intros H; inversion H; auto.
Qed.

Lemma str_eqb_refl (a : str) : str_eqb a a = true.
Proof. apply str_eqb_eq; reflexivity. Qed.

Lemma str_eqb_neq (a b : str) : str_eqb a b = false <-> a <> b.
Proof.
  rewrite <- str_eqb_eq. destruct (str_eqb a b); split; congruence.
Qed.

Lemma char_in_In (c : char) (s : str) : char_in c s = true <-> In c s.
Proof.
  unfold char_in. rewrite existsb_exists. split.
  - intros [x [Hin Heq]]. apply N.eqb_eq in Heq. subst; assumption.
  - intros Hin. exists c. split; [assumption | apply N.eqb_refl].
Qed.

Lemma char_in_false (c : char) (s : str) : char_in c s = false <-> ~ In c s.
Proof.
  rewrite <- char_in_In. destruct (char_in c s); split; congruence.
Qed.

Lemma startswith_char (s : str) (c : char) :
  startswith s [c] = true <-> exists r, s = c :: r.
Proof.
  destruct s as [|d s]; simpl.
  - split; [discriminate | intros [r Hr]; discriminate].
  - replace (startswith s []) with true by (destruct s; reflexivity).
    rewrite andb_true_r, N.eqb_eq. split.
    + intros ->. exists s; reflexivity.
    + intros [r Hr]. inversion Hr; reflexivity.
Qed.

Lemma rfind_None (c : char) (s : str) : rfind c s = None <-> ~ In c s.
Proof.
  induction s as [|d s IH]; simpl.
  - tauto.
  - destruct (rfind c s) as [i|] eqn:E.
    + split; [discriminate|]. intros H. exfalso.
      assert (~ In c s) by tauto.
      apply IH in H0. discriminate.
    + destruct (N.eqb_spec d c) as [->|Hne].
      * split; [discriminate | intros H; exfalso; apply H; auto].
      * split; [|reflexivity]. intros _ [H|H]; [congruence|].
        apply IH in H; auto.
Qed.

Lemma rfind_char_in (c : char) (s : str) :
  char_in c s = true <-> exists i, rfind c s = Some i.
Proof.
  rewrite char_in_In. destruct (rfind c s) as [i|] eqn:E.
  - split; [eauto|]. intros _.
    destruct (in_dec N.eq_dec c s) as [H|H]; [assumption|].
    apply rfind_None in H. congruence.
  - apply rfind_None in E. split; [tauto | intros [i Hi]; discriminate].
Qed.

Lemma rfind_Some (c : char) (s : str) (i : nat) :
  rfind c s = Some i ->
  nth_error s i = Some c /\ forall j, i < j -> nth_error s j <> Some c.
Proof.
  revert i; induction s as [|d s IH]; simpl; intros i H; [discriminate|].
  destruct (rfind c s) as [i'|] eqn:E.
  - inversion H; subst; clear H. destruct (IH i' eq_refl) as [H1 H2].
    split; [assumption|]. intros [|j] Hj; [lia|]. simpl. apply H2; lia.
  - destruct (N.eqb_spec d c) as [->|Hne]; [|discriminate].
    inversion H; subst; clear H. split; [reflexivity|].
    intros [|j] Hj; [lia|]. simpl. intros Hn.
    apply rfind_None in E. apply E. eapply nth_error_In; eassumption.
Qed.

Lemma rfind_lt (c : char) (s : str) (i : nat) :
  rfind c s = Some i -> i < length s.
Proof.
  intros H. apply rfind_Some in H. destruct H as [H _].
  apply nth_error_Some. congruence.
Qed.

Lemma rfind_last_index (c : char) (s : str) (i : nat) :
  Spec.last_index c s i <-> rfind c s = Some i.
Proof.
  split.
  - intros [H1 H2]. destruct (rfind c s) as [k|] eqn:E.
    + apply rfind_Some in E. destruct E as [E1 E2].
      destruct (Nat.lt_trichotomy i k) as [Hlt|[->|Hgt]].
      * exfalso. apply (H2 k Hlt E1).
      * reflexivity.
      * exfalso. apply (E2 i Hgt H1).
    + apply rfind_None in E. exfalso. apply E.
      eapply nth_error_In; eassumption.
  - intros H. apply rfind_Some in H. exact H.
Qed.

(** *** Lines *)

Lemma split_lines_nonempty (s : str) : split_lines s <> [].
Proof.
  destruct s as [|c s]; simpl; [discriminate|].
  destruct (N.eqb c NEWLINE); [discriminate|].
  destruct (split_lines s); discriminate.
Qed.

Definition line_cost (l : str) : nat := length l + 1.

(** The characters of a text: every line but the last counts its newline. *)
Lemma split_lines_length (s : str) :
  list_sum (map line_cost (removelast (split_lines s)))
  + length (last (split_lines s) []) = length s.
Proof.
  induction s as [|c s IH]; [reflexivity|].
  simpl split_lines.
  destruct (split_lines s) as [|l ls] eqn:E;
    [exfalso; eapply split_lines_nonempty; eassumption|].
  destruct (N.eqb c NEWLINE).
  - change (removelast ([] :: l :: ls)) with ([] :: removelast (l :: ls)).
    change (last ([] :: l :: ls) []) with (last (l :: ls) (@nil char)).
    remember (removelast (l :: ls)) as R in *. remember (last (l :: ls) []) as L in *.
    unfold list_sum in *; cbn [map fold_right]. unfold line_cost at 1. cbn [length]. lia.
  - destruct ls as [|l2 ls].
    + cbn in *. lia.
    + change (removelast ((c :: l) :: l2 :: ls)) with ((c :: l) :: removelast (l2 :: ls)).
      change (removelast (l :: l2 :: ls)) with (l :: removelast (l2 :: ls)) in IH.
      change (last ((c :: l) :: l2 :: ls) []) with (last (l2 :: ls) (@nil char)).
      change (last (l :: l2 :: ls) []) with (last (l2 :: ls) (@nil char)) in IH.
      remember (removelast (l2 :: ls)) as R in *. remember (last (l2 :: ls) []) as L in *.
      unfold list_sum in *; cbn [map fold_right] in *. unfold line_cost at 1.
      unfold line_cost at 1 in IH. cbn [length]. lia.
Qed.

(** The lines before the last line of a prefix are lines of the whole text. *)
Lemma split_lines_prefix (a b : str) :
  firstn (length (split_lines a) - 1) (split_lines (a ++ b))
  = removelast (split_lines a).
Proof.
  induction a as [|c a IH]; [reflexivity|].
  simpl app. simpl split_lines.
  destruct (split_lines a) as [|l ls] eqn:E;
    [exfalso; eapply split_lines_nonempty; eassumption|].
  destruct (split_lines (a ++ b)) as [|l' ls'] eqn:E';
    [exfalso; eapply split_lines_nonempty; eassumption|].
  replace (length (l :: ls) - 1) with (length ls) in IH by (cbn [length]; lia).
  destruct (N.eqb c NEWLINE).
  - replace (length ([] :: l :: ls) - 1) with (S (length ls)) by (cbn [length]; lia).
    change (removelast ([] :: l :: ls)) with ([] :: removelast (l :: ls)).
    cbn [firstn]. rewrite IH. reflexivity.
  - replace (length ((c :: l) :: ls) - 1) with (length ls) by (cbn [length]; lia).
    destruct ls as [|l2 ls]; [reflexivity|].
    change (removelast ((c :: l) :: l2 :: ls)) with ((c :: l) :: removelast (l2 :: ls)).
    change (removelast (l :: l2 :: ls)) with (l :: removelast (l2 :: ls)) in IH.
    cbn [length firstn] in *. injection IH as Hl Hr. subst l'.
    rewrite Hr. reflexivity.
Qed.

(** From a linear offset to a row and a column and back. *)
Lemma row_col_round_trip (s : str) (n : nat) :
  n <= length s ->
  let lines := split_lines (firstn n s) in
  length lines - 1 <= length (split_lines s) /\
  list_sum (map line_cost (firstn (length lines - 1) (split_lines s)))
  + length (last lines []) = n.
Proof.
  intros Hn lines.
  assert (Hs : s = firstn n s ++ skipn n s) by (symmetry; apply firstn_skipn).
  assert (Hp := split_lines_prefix (firstn n s) (skipn n s)).
  rewrite <- Hs in Hp. fold lines in Hp. split.
  - assert (Hl : length (firstn (length lines - 1) (split_lines s))
                 = length (removelast lines)) by (rewrite Hp; reflexivity).
    rewrite length_firstn in Hl.
    assert (length (removelast lines) = length lines - 1).
    { unfold lines. destruct (split_lines (firstn n s)) as [|l ls] eqn:E;
        [reflexivity|].
      rewrite (app_removelast_last (@nil char) (l := l :: ls)) at 2 by discriminate.
      rewrite length_app. simpl. lia. }
    lia.
  - rewrite Hp. unfold lines. rewrite split_lines_length.
    apply firstn_length_le. exact Hn.
Qed.

(** *** Slices of a concatenation *)

Lemma skipn_length_app {A} (a b : list A) : skipn (length a) (a ++ b) = b.
Proof. induction a as [|x a IH]; [reflexivity | exact IH]. Qed.

Lemma firstn_length_app {A} (a b : list A) : firstn (length a) (a ++ b) = a.
Proof. induction a as [|x a IH]; [reflexivity | simpl; f_equal; exact IH]. Qed.

(** *** Subsequences *)

Lemma subsequence_nil_l (b : str) : Spec.subsequence [] b = true.
Proof. destruct b; reflexivity. Qed.

Lemma subsequence_refl (a : str) : Spec.subsequence a a = true.
Proof.
  induction a as [|x a IH]; [reflexivity|]. simpl. rewrite N.eqb_refl. exact IH.
Qed.

(** Dropping the head of the pattern keeps a match. *)
Lemma subsequence_tail (b : str) :
  forall (x : N) (a : str),
    Spec.subsequence (x :: a) b = true -> Spec.subsequence a b = true.
Proof.
  induction b as [|y b IH]; intros x a H; [discriminate|].
  simpl in H. destruct a as [|x' a]; [reflexivity|].
  simpl. destruct (N.eqb x y).
  - destruct (N.eqb x' y); [|assumption].
    eapply IH. eassumption.
  - apply IH in H. destruct (N.eqb x' y); [|assumption].
    eapply IH. eassumption.
Qed.

Lemma subsequence_cons_r (a : str) (y : N) (b : str) :
  Spec.subsequence a b = true -> Spec.subsequence a (y :: b) = true.
Proof.
  intros H. destruct a as [|x a]; [reflexivity|].
  simpl. destruct (N.eqb x y); [|assumption].
  eapply subsequence_tail. eassumption.
Qed.

Lemma subsequence_app_r (a b : str) : Spec.subsequence b (a ++ b) = true.
Proof.
  induction a as [|x a IH]; simpl; [apply subsequence_refl|].
  apply subsequence_cons_r. exact IH.
Qed.

Lemma subsequence_app_l (a b : str) : Spec.subsequence a (a ++ b) = true.
Proof.
  induction a as [|x a IH]; [apply subsequence_nil_l|].
  simpl. rewrite N.eqb_refl. exact IH.
Qed.

End PyFacts.

(* ================================================================== *)
(** ** Facts about sorting *)
(* ================================================================== *)

Module SortFacts.
Import Py.

Lemma StronglySorted_app {A} (R : A -> A -> Prop) (l1 l2 : list A) :
  StronglySorted R l1 -> StronglySorted R l2 ->
  (forall x y, In x l1 -> In y l2 -> R x y) ->
  StronglySorted R (l1 ++ l2).
Proof.
  induction l1 as [|a l1 IH]; simpl; intros H1 H2 H; [assumption|].
  apply StronglySorted_inv in H1. destruct H1 as [H1 Ha].
  constructor.
  - apply IH; auto.
  - apply Forall_app. split; [assumption|].
    apply Forall_forall. intros y Hy. apply H; auto.
Qed.

Lemma StronglySorted_rev {A} (R : A -> A -> Prop) (l : list A) :
  StronglySorted R l -> StronglySorted (fun a b => R b a) (rev l).
Proof.
  induction 1 as [|a l Hl IH Ha]; simpl; [constructor|].
  apply StronglySorted_app; [assumption | repeat constructor |].
  intros x y Hx [<-|[]]. rewrite Forall_forall in Ha.
  apply Ha. apply in_rev. assumption.
Qed.

Lemma filter_rev {A} (P : A -> bool) (l : list A) :
  filter P (rev l) = rev (filter P l).
Proof.
  induction l as [|a l IH]; [reflexivity|].
  simpl. rewrite filter_app, IH. simpl.
  destruct (P a); simpl; [reflexivity | apply app_nil_r].
Qed.

Section Facts.
Context {A K : Type} (ltb : K -> K -> bool) (key : A -> K).

(** [a] may stand before [b] in a list sorted by [key]. *)
Definition ordered (a b : A) : Prop := ltb (key b) (key a) = false.

Lemma insert_perm (x : A) (l : list A) : Permutation (insert ltb key x l) (x :: l).
Proof.
  induction l as [|y l IH]; simpl; [reflexivity|].
  destruct (ltb (key y) (key x)); [|reflexivity].
  rewrite IH. apply perm_swap.
Qed.

Lemma sort_perm (l : list A) : Permutation (sort ltb key l) l.
Proof.
  induction l as [|x l IH]; simpl; [reflexivity|].
  rewrite insert_perm, IH. reflexivity.
Qed.

(** Stability: elements that [<] does not separate keep their order. *)
Section Stable.
Variable P : A -> bool.
Hypothesis P_tied : forall x y, P x = true -> P y = true -> ltb (key x) (key y) = false.

Lemma insert_filter (x : A) (l : list A) :
  filter P (insert ltb key x l) = filter P (x :: l).
Proof.
  induction l as [|y l IH]; [reflexivity|].
  simpl insert. destruct (ltb (key y) (key x)) eqn:E; [|reflexivity].
  simpl in *. rewrite IH.
  destruct (P y) eqn:Py, (P x) eqn:Px; try reflexivity.
  rewrite (P_tied y x Py Px) in E. discriminate.
Qed.

Lemma sort_stable (l : list A) : filter P (sort ltb key l) = filter P l.
Proof.
  induction l as [|x l IH]; [reflexivity|].
  simpl sort. rewrite insert_filter. simpl. rewrite IH. reflexivity.
Qed.

Lemma sort_reverse_stable (l : list A) :
  filter P (sort_reverse ltb key l) = filter P l.
Proof.
  unfold sort_reverse. rewrite filter_rev, sort_stable, filter_rev.
  apply rev_involutive.
Qed.

End Stable.

Lemma sort_reverse_perm (l : list A) : Permutation (sort_reverse ltb key l) l.
Proof.
  unfold sort_reverse. rewrite <- Permutation_rev, sort_perm, <- Permutation_rev.
  reflexivity.
Qed.

Section Sorted.
Hypothesis ltb_asym : forall a b, ltb a b = true -> ltb b a = false.
Hypothesis ordered_trans : forall a b c : A, ordered a b -> ordered b c -> ordered a c.

Lemma insert_HdRel (y x : A) (l : list A) :
  ordered y x -> HdRel ordered y l -> HdRel ordered y (insert ltb key x l).
Proof.
  intros Hyx Hl. destruct l as [|z l]; simpl.
  - constructor; assumption.
  - destruct (ltb (key z) (key x)); constructor; [|assumption].
    inversion Hl; assumption.
Qed.

Lemma insert_sorted (x : A) (l : list A) :
  Sorted ordered l -> Sorted ordered (insert ltb key x l).
Proof.
  induction 1 as [|y l Hl IH Hy]; simpl.
  - repeat constructor.
  - destruct (ltb (key y) (key x)) eqn:E.
    + constructor; [assumption|].
      apply insert_HdRel; [|assumption].
      unfold ordered. apply ltb_asym. assumption.
    + constructor; [constructor; assumption|].
      constructor. exact E.
Qed.

Lemma sort_sorted (l : list A) : StronglySorted ordered (sort ltb key l).
Proof.
  apply Sorted_StronglySorted; [exact ordered_trans|].
  induction l as [|x l IH]; simpl; [constructor|].
  apply insert_sorted. assumption.
Qed.

(** With [reverse=True] the larger keys come first. *)
Lemma sort_reverse_sorted (l : list A) :
  StronglySorted (fun a b => ordered b a) (sort_reverse ltb key l).
Proof. unfold sort_reverse. apply StronglySorted_rev, sort_sorted. Qed.

End Sorted.
End Facts.

Lemma insert_map {A B K} (ltb : K -> K -> bool) (key : B -> K) (f : A -> B)
  (x : A) (l : list A) :
  insert ltb key (f x) (map f l) = map f (insert ltb (fun a => key (f a)) x l).
Proof.
  induction l as [|y l IH]; [reflexivity|].
  simpl. destruct (ltb (key (f y)) (key (f x))); simpl; [rewrite IH|]; reflexivity.
Qed.

Lemma sort_map {A B K} (ltb : K -> K -> bool) (key : B -> K) (f : A -> B) (l : list A) :
  sort ltb key (map f l) = map f (sort ltb (fun a => key (f a)) l).
Proof.
  induction l as [|x l IH]; [reflexivity|].
  simpl. rewrite IH. apply insert_map.
Qed.

Lemma sort_reverse_map {A B K} (ltb : K -> K -> bool) (key : B -> K) (f : A -> B)
  (l : list A) :
  sort_reverse ltb key (map f l) = map f (sort_reverse ltb (fun a => key (f a)) l).
Proof.
  unfold sort_reverse. rewrite <- map_rev, sort_map, map_rev. reflexivity.
Qed.

(** *** The orders the widget sorts by *)

Lemma str_ltb_irrefl (a : str) : str_ltb a a = false.
Proof.
  induction a as [|c a IH]; [reflexivity|].
  simpl. rewrite N.ltb_irrefl, N.eqb_refl, IH. reflexivity.
Qed.

Lemma str_ltb_asym (a b : str) : str_ltb a b = true -> str_ltb b a = false.
Proof.
  revert b; induction a as [|c a IH]; intros [|d b]; simpl; try congruence.
  intros H.
  destruct (N.ltb_spec c d), (N.ltb_spec d c), (N.eqb_spec c d), (N.eqb_spec d c);
    simpl in *; try lia; try reflexivity; try discriminate.
  apply IH; assumption.
Qed.

Lemma str_ltb_total_trans (a b c : str) :
  str_ltb b a = false -> str_ltb c b = false -> str_ltb c a = false.
Proof.
  revert b c; induction a as [|x a IH]; intros [|y b] [|z c]; simpl;
    try congruence.
  intros H1 H2.
  apply orb_false_iff in H1. destruct H1 as [H1 H1'].
  apply orb_false_iff in H2. destruct H2 as [H2 H2'].
  apply N.ltb_ge in H1. apply N.ltb_ge in H2.
  apply orb_false_iff. split; [apply N.ltb_ge; lia|].
  destruct (N.eqb_spec z x) as [->|Hzx]; [|reflexivity]. simpl.
  assert (y = x) by lia. subst y.
  rewrite N.eqb_refl in H1', H2'. simpl in *.
  eapply IH; eassumption.
Qed.

Lemma key_ltb_asym (a b : bool * str) :
  AutoComplete.key_ltb a b = true -> AutoComplete.key_ltb b a = false.
Proof.
  destruct a as [[] a], b as [[] b]; unfold AutoComplete.key_ltb; simpl;
    try congruence; apply str_ltb_asym.
Qed.

Lemma key_ltb_total_trans (a b c : bool * str) :
  AutoComplete.key_ltb b a = false -> AutoComplete.key_ltb c b = false ->
  AutoComplete.key_ltb c a = false.
Proof.
  destruct a as [[] a], b as [[] b], c as [[] c]; unfold AutoComplete.key_ltb;
    simpl; try congruence; apply str_ltb_total_trans.
Qed.

Lemma Qltb_lt (a b : Q) : AutoComplete.Qltb a b = true <-> (a < b)%Q.
Proof.
  unfold AutoComplete.Qltb. rewrite negb_true_iff. split.
  - intros H. apply Qnot_le_lt. intros Hle.
    apply Qle_bool_iff in Hle. congruence.
  - intros H. destruct (Qle_bool b a) eqn:E; [|reflexivity].
    apply Qle_bool_iff in E. exfalso. eapply Qlt_not_le; eassumption.
Qed.

Lemma Qltb_ge (a b : Q) : AutoComplete.Qltb a b = false <-> (b <= a)%Q.
Proof.
  unfold AutoComplete.Qltb. rewrite negb_false_iff. apply Qle_bool_iff.
Qed.

Lemma Qltb_asym (a b : Q) :
  AutoComplete.Qltb a b = true -> AutoComplete.Qltb b a = false.
Proof.
  rewrite Qltb_lt, Qltb_ge. apply Qlt_le_weak.
Qed.

End SortFacts.

(* ================================================================== *)
(** ** A target whose lines are the pieces between newlines *)
(* ================================================================== *)

(** The widget counts rows and columns on [text.split("\n")].  On a target
    that splits its document in the same way, the concrete one of [Demo],
    the location of an offset of the text is a location of the document,
    and the target keeps it. *)
Module Clamp.
Import Py AutoComplete PyFacts.

Lemma split_lines_app (a b : str) :
  split_lines (a ++ b)
  = removelast (split_lines a)
    ++ (last (split_lines a) [] ++ hd [] (split_lines b)) :: tl (split_lines b).
Proof.
  induction a as [|c a IH].
  - simpl. destruct (split_lines b) as [|l ls] eqn:E; [|reflexivity].
    exfalso. eapply split_lines_nonempty. eassumption.
  - simpl app. simpl split_lines. rewrite IH.
    destruct (split_lines a) as [|l ls] eqn:E;
      [exfalso; eapply split_lines_nonempty; eassumption|].
    destruct (N.eqb c NEWLINE).
    + change (removelast ([] :: l :: ls)) with ([] :: removelast (l :: ls)).
      reflexivity.
    + destruct ls as [|l2 ls]; [reflexivity|].
      change (removelast (l :: l2 :: ls)) with (l :: removelast (l2 :: ls)).
      change (removelast ((c :: l) :: l2 :: ls)) with ((c :: l) :: removelast (l2 :: ls)).
      reflexivity.
Qed.

Lemma split_lines_single (s : str) : ~ In NEWLINE s -> split_lines s = [s].
Proof.
  induction s as [|c s IH]; intros H; [reflexivity|].
  simpl. destruct (N.eqb_spec c NEWLINE) as [->|Hne].
  - exfalso. apply H. left. reflexivity.
  - rewrite IH; [reflexivity|]. intros Hin. apply H. right. exact Hin.
Qed.

Lemma removelast_length_pred {A} (l : list A) : length (removelast l) = length l - 1.
Proof.
  induction l as [|a l IH]; [reflexivity|].
  destruct l as [|b l]; [reflexivity|].
  change (removelast (a :: b :: l)) with (a :: removelast (b :: l)).
  cbn [length] in *. lia.
Qed.

(** The location the widget computes for an offset of the text is kept. *)
Lemma keeps_offset_location (t : str) (n : nat) :
  let lines := split_lines (firstn n t) in
  Demo.clamp_visitable t (length lines - 1, length (last lines []))
  = (length lines - 1, length (last lines [])).
Proof.
  intros lines. unfold Demo.clamp_visitable. cbn [fst snd].
  rewrite <- (firstn_skipn n t) at 1. rewrite split_lines_app. fold lines.
  rewrite nth_error_app2 by (rewrite removelast_length_pred; lia).
  rewrite removelast_length_pred, Nat.sub_diag. cbn [nth_error].
  rewrite length_app. f_equal. lia.
Qed.

(** The end of a label of one line is kept. *)
Lemma keeps_end_of_line (label : str) :
  ~ In NEWLINE label ->
  Demo.clamp_visitable label (0, length label) = (0, length label).
Proof.
  intros H. unfold Demo.clamp_visitable. rewrite (split_lines_single label H).
  cbn [fst snd nth_error]. rewrite Nat.min_id. reflexivity.
Qed.

(** The end of a label of more lines, asked for on row 0, is not: the cursor
    stops at the end of the first line. *)
Lemma clamps_end_of_lines (first rest : str) :
  ~ In NEWLINE first ->
  let label := first ++ NEWLINE :: rest in
  Demo.clamp_visitable label (0, length label) = (0, length first).
Proof.
  intros H label. unfold Demo.clamp_visitable, label.
  rewrite split_lines_app, (split_lines_single first H).
  cbn [removelast last app fst snd nth_error split_lines].
  rewrite N.eqb_refl. cbn [hd]. rewrite app_nil_r, length_app. cbn [length].
  f_equal. lia.
Qed.

End Clamp.

(* ================================================================== *)
(** ** Trigger detection *)
(* ================================================================== *)

Module Detection.
Import Py AutoComplete PyFacts.

Lemma text_to_check_scanned (state : TargetState) :
  text_to_check state = Spec.scanned (text state) (cursor_position state).
Proof.
  unfold text_to_check, Spec.scanned, prefix_to.
  destruct (Z.ltb_spec 0 (cursor_position state)) as [Hpos|Hneg].
  - destruct (Z.leb_spec (cursor_position state) 0); [lia|].
    destruct (Z.ltb_spec (cursor_position state) 0); [lia|reflexivity].
  - destruct (Z.leb_spec (cursor_position state) 0); [reflexivity|lia].
Qed.

(** The test the code applies to the character before the [@]. *)
Definition boundaryb (s : str) (i : nat) : bool :=
  (i =? 0)
  || match nth_error s (i - 1) with
     | Some c => char_in c [SPACE; NEWLINE; TAB]
     | None => false
     end.

Lemma boundaryb_spec (s : str) (i : nat) :
  nth_error s i <> None ->
  boundaryb s i = true <-> Spec.boundary_before s i.
Proof.
  intros Hi. unfold boundaryb, Spec.boundary_before.
  rewrite orb_true_iff, Nat.eqb_eq. split.
  - intros [H|H]; [left; assumption|]. right.
    destruct (nth_error s (i - 1)) as [c|]; [|discriminate].
    exists c. split; [reflexivity|].
    apply char_in_In in H. simpl in H. intuition congruence.
  - intros [H|[c [Hc Hw]]]; [left; assumption|]. right.
    rewrite Hc. apply char_in_In. simpl. intuition congruence.
Qed.

Lemma detect_cases (state : TargetState) :
  detect state =
  if startswith (text state) [SLASH] then (Some slash, 0)
  else match rfind AT (Spec.scanned (text state) (cursor_position state)) with
       | Some i =>
           if boundaryb (Spec.scanned (text state) (cursor_position state)) i
           then (Some path, i) else (None, 0)
       | None => (None, 0)
       end.
Proof.
  unfold detect. rewrite text_to_check_scanned.
  destruct (startswith (text state) [SLASH]); [reflexivity|].
  destruct (rfind AT _) as [i|] eqn:E.
  - assert (H : char_in AT (Spec.scanned (text state) (cursor_position state)) = true)
      by (apply rfind_char_in; eauto).
    rewrite H. reflexivity.
  - destruct (char_in AT _); reflexivity.
Qed.

(** C1.  Detection answers SlashCommand with offset 0 exactly when the text
    starts with [/]; otherwise it answers PathReference at the last [@] of
    the text up to the cursor (of the whole text when the cursor offset is 0
    or below) when that [@] stands at the start or after a space, a tab or a
    newline; and None in every other case. *)
Theorem detect_trigger (state : TargetState) :
  let scanned := Spec.scanned (text state) (cursor_position state) in
  (fst (detect state) = Some slash <-> Spec.starts_with_slash (text state))
  /\ (Spec.starts_with_slash (text state) -> detect state = (Some slash, 0))
  /\ (forall i, ~ Spec.starts_with_slash (text state) ->
        Spec.last_index AT scanned i -> Spec.boundary_before scanned i ->
        detect state = (Some path, i))
  /\ (forall i, detect state = (Some path, i) ->
        ~ Spec.starts_with_slash (text state)
        /\ Spec.last_index AT scanned i /\ Spec.boundary_before scanned i)
  /\ (~ Spec.starts_with_slash (text state) ->
      (forall i, Spec.last_index AT scanned i -> ~ Spec.boundary_before scanned i) ->
      detect state = (None, 0)).
Proof.
  intros scanned. rewrite detect_cases. fold scanned.
  assert (Hsw : startswith (text state) [SLASH] = true
                <-> Spec.starts_with_slash (text state))
    by apply startswith_char.
  destruct (startswith (text state) [SLASH]) eqn:Hs.
  - assert (Hyes : Spec.starts_with_slash (text state)) by (apply Hsw; reflexivity).
    split; [|split; [|split; [|split]]].
    + simpl; tauto.
    + reflexivity.
    + intros i H; exfalso; apply H; assumption.
    + intros i H; discriminate.
    + intros H; exfalso; apply H; assumption.
  - assert (Hno : ~ Spec.starts_with_slash (text state))
      by (intros H; apply Hsw in H; discriminate).
    destruct (rfind AT scanned) as [k|] eqn:Hk.
    + assert (Hlast : Spec.last_index AT scanned k) by (apply rfind_last_index; assumption).
      assert (Hnth : nth_error scanned k <> None) by (destruct Hlast as [H _]; congruence).
      destruct (boundaryb scanned k) eqn:Hb.
      * apply boundaryb_spec in Hb; [|assumption].
        split; [|split; [|split; [|split]]].
        -- simpl; split; [discriminate | tauto].
        -- tauto.
        -- intros i _ Hi _. apply rfind_last_index in Hi. congruence.
        -- intros i H. inversion H; subst. tauto.
        -- intros _ H. exfalso. apply (H k); assumption.
      * split; [|split; [|split; [|split]]].
        -- simpl; split; [discriminate | tauto].
        -- tauto.
        -- intros i _ Hi Hbi. apply rfind_last_index in Hi.
           assert (i = k) by congruence. subst i.
           apply boundaryb_spec in Hbi; [congruence | assumption].
        -- intros i H; discriminate.
        -- reflexivity.
    + split; [|split; [|split; [|split]]].
      * simpl; split; [discriminate | tauto].
      * tauto.
      * intros i _ Hi _. apply rfind_last_index in Hi. congruence.
      * intros i H; discriminate.
      * reflexivity.
Qed.

(** The path example of the specification: ["hello @wo"] with the cursor at
    the end. *)
Lemma detect_trigger_witness :
  detect {| text := lit "hello @wo"; cursor_position := 9 |} = (Some path, 6).
Proof.
  apply (detect_trigger {| text := lit "hello @wo"; cursor_position := 9 |}).
  - intros [rest H]. discriminate.
  - apply rfind_last_index. reflexivity.
  - right. exists SPACE. split; [reflexivity | left; reflexivity].
Defined.

End Detection.

(* ================================================================== *)
(** ** The splice of a commit *)
(* ================================================================== *)

Module Splice.
Import Py AutoComplete PyFacts.

Section Splice.
Context {Path : Type}.
Variable joinpath : Path -> str -> Path.
Variable path_str : Path -> str.
Variable scandir : Path -> result (list DirEntry).
Variable fuzzy_match : str -> str -> Q * list nat.
Variable isspace : char -> bool.
Variable lower : str -> str.
Variable clamp_visitable : str -> nat * nat -> nat * nat.

Local Abbreviation handle_text_change :=
  (_handle_text_change joinpath path_str scandir fuzzy_match isspace lower).
Local Abbreviation notify := (notify joinpath path_str scandir fuzzy_match isspace lower).
Local Abbreviation write_text := (write_text joinpath path_str scandir fuzzy_match isspace lower).
Local Abbreviation move_cursor := (move_cursor joinpath path_str scandir fuzzy_match isspace lower clamp_visitable).
Local Abbreviation apply_completion :=
  (_apply_completion joinpath path_str scandir fuzzy_match isspace lower clamp_visitable).

(** While the flag is set a notification returns at once. *)
Lemma handle_text_change_suppressed (self : Widget Path) :
  _completing self = true -> handle_text_change self = Ok self.
Proof. intros H. unfold _handle_text_change. rewrite H. reflexivity. Qed.

Lemma notify_suppressed (n : nat) (self : Widget Path) :
  _completing self = true -> notify n self = Ok self.
Proof.
  intros H. induction n as [|n IH]; [reflexivity|].
  simpl. rewrite handle_text_change_suppressed by assumption. simpl. exact IH.
Qed.

Lemma write_text_suppressed (host : Host) (t : str) (self : Widget Path) :
  _completing self = true ->
  write_text host t self = Ok (set_target t (0, 0) self).
Proof. intros H. unfold AutoComplete.write_text. apply notify_suppressed. exact H. Qed.

Lemma move_cursor_suppressed (host : Host) (loc : nat * nat) (self : Widget Path) :
  _completing self = true ->
  move_cursor host loc self
  = Ok (set_target (target_text self) (clamp_visitable (target_text self) loc) self).
Proof. intros H. unfold AutoComplete.move_cursor. apply notify_suppressed. exact H. Qed.

(** The start of the replaced span, as the code computes it. *)
Lemma replace_start_code (text : str) (trigger_pos cursor_pos : nat) :
  (if char_in SLASH (slice text (trigger_pos + 1) cursor_pos)
   then match rfind SLASH (slice text (trigger_pos + 1) cursor_pos) with
        | Some last_slash => trigger_pos + 1 + last_slash + 1
        | None => trigger_pos + 1
        end
   else trigger_pos + 1)
  = Spec.replaceStart text trigger_pos cursor_pos.
Proof.
  unfold Spec.replaceStart, Spec.pathText.
  destruct (char_in SLASH _) eqn:E; [reflexivity|].
  apply char_in_false in E. apply rfind_None in E. rewrite E. reflexivity.
Qed.

(** "If pathText contains /, replace only the segment after the last /;
    otherwise replace everything after the trigger character". *)
Lemma replaceStart_spec (text : str) (triggerOffset cursorOffset : nat) :
  (forall i, Spec.last_index SLASH (Spec.pathText text triggerOffset cursorOffset) i ->
     Spec.replaceStart text triggerOffset cursorOffset = triggerOffset + 1 + i + 1)
  /\ (~ In SLASH (Spec.pathText text triggerOffset cursorOffset) ->
     Spec.replaceStart text triggerOffset cursorOffset = triggerOffset + 1).
Proof.
  unfold Spec.replaceStart. split.
  - intros i H. apply rfind_last_index in H. rewrite H. reflexivity.
  - intros H. apply rfind_None in H. rewrite H. reflexivity.
Qed.

Lemma replaceStart_le (text : str) (triggerOffset cursorOffset : nat) :
  triggerOffset < length text ->
  Spec.replaceStart text triggerOffset cursorOffset <= length text.
Proof.
  intros Ht. unfold Spec.replaceStart.
  destruct (rfind SLASH _) as [i|] eqn:E; [|lia].
  apply rfind_lt in E. unfold Spec.pathText, slice in E.
  rewrite length_firstn, length_skipn in E. lia.
Qed.

(** What [_apply_completion] leaves in the target in path mode. *)
Lemma apply_completion_path (host : Host) (value : str) (state : TargetState)
  (self : Widget Path) :
  _completing self = true -> _mode self = Some path ->
  let cursor := Spec.effective_cursor (text state) (cursor_position state) in
  let rs := Spec.replaceStart (text state) (_trigger_pos self) cursor in
  let new_text := firstn rs (text state) ++ value ++ skipn cursor (text state) in
  let lines := split_lines (firstn (rs + length value) new_text) in
  apply_completion host value state self
  = Ok (set_target new_text
          (clamp_visitable new_text (length lines - 1, length (last lines []))) self).
Proof.
  intros Hc Hm cursor rs new_text lines.
  unfold _apply_completion. rewrite Hm.
  fold (Spec.effective_cursor (text state) (cursor_position state)). fold cursor.
  rewrite replace_start_code. fold rs. fold new_text.
  rewrite write_text_suppressed by assumption. simpl bind.
  rewrite move_cursor_suppressed by (destruct self; assumption).
  destruct self; reflexivity.
Qed.

Lemma apply_completion_slash (host : Host) (value : str) (state : TargetState)
  (self : Widget Path) :
  _completing self = true -> _mode self = Some slash ->
  apply_completion host value state self
  = Ok (set_target value (clamp_visitable value (0, length value)) self).
Proof.
  intros Hc Hm. unfold _apply_completion. rewrite Hm.
  rewrite write_text_suppressed by assumption. simpl bind.
  rewrite move_cursor_suppressed by (destruct self; assumption).
  destruct self; reflexivity.
Qed.

Lemma cursor_position_set_target (t : str) (row col : nat) (self : Widget Path) :
  row <= length (split_lines t) ->
  _get_cursor_position (set_target t (row, col) self)
  = Ok (list_sum (map line_cost (firstn row (split_lines t))) + col).
Proof.
  intros H. unfold _get_cursor_position. simpl.
  apply Nat.leb_le in H. rewrite H. reflexivity.
Qed.


(** C4, as amended.  In path mode a commit keeps the text before the replaced
    span and the text from the cursor on, the cursor being taken at the end
    of the text when its offset is 0 or below: the new text starts with
    [text[0:replaceStart]] and ends, right after the label, with
    [text[cursor:end]]; nothing but the target changes. *)
Theorem commit_frame (host : Host) (label : str) (state : TargetState)
  (self : Widget Path) :
  _completing self = true -> _mode self = Some path ->
  let cursor := Spec.effective_cursor (text state) (cursor_position state) in
  let kept_before :=
    firstn (Spec.replaceStart (text state) (_trigger_pos self) cursor) (text state) in
  let kept_after := skipn cursor (text state) in
  exists self',
    apply_completion host label state self = Ok self'
    /\ firstn (length kept_before) (target_text self') = kept_before
    /\ skipn (length kept_before + length label) (target_text self') = kept_after
    /\ firstn (length label) (skipn (length kept_before) (target_text self')) = label
    /\ Spec.subsequence kept_before (target_text self') = true
    /\ Spec.subsequence kept_after (target_text self') = true
    /\ self' = set_target (target_text self') (target_cursor_location self') self.
Proof.
  intros Hc Hm cursor kept_before kept_after.
  eexists. split; [apply apply_completion_path; assumption|].
  fold cursor. fold kept_before. fold kept_after.
  cbn [target_text set_target target_cursor_location].
  split; [|split; [|split; [|split; [|split]]]].
  - apply firstn_length_app.
  - rewrite app_assoc, <- length_app. apply skipn_length_app.
  - rewrite skipn_length_app. apply firstn_length_app.
  - apply subsequence_app_l.
  - rewrite app_assoc. apply subsequence_app_r.
  - destruct self; reflexivity.
Qed.

(** C10.  A commit made while the cursor offset is 0 splices as if the cursor
    stood at the end of the text: in path mode the replaced span runs from
    [replaceStart] to the end and nothing follows the label. *)
Theorem commit_at_offset_zero (host : Host) (label t : str) (self : Widget Path) :
  apply_completion host label {| text := t; cursor_position := 0 |} self
  = apply_completion host label
      {| text := t; cursor_position := Z.of_nat (length t) |} self
  /\ (_completing self = true -> _mode self = Some path ->
      exists self',
        apply_completion host label {| text := t; cursor_position := 0 |} self = Ok self'
        /\ target_text self'
           = firstn (Spec.replaceStart t (_trigger_pos self) (length t)) t ++ label
        /\ skipn (Spec.effective_cursor t 0) t = []).
Proof.
  split.
  - unfold _apply_completion. cbn [text cursor_position].
    replace (if (0 <? Z.of_nat (length t))%Z then Z.to_nat (Z.of_nat (length t))
             else length t) with (length t)
      by (destruct (0 <? Z.of_nat (length t))%Z; [rewrite Nat2Z.id|]; reflexivity).
    reflexivity.
  - intros Hc Hm. eexists.
    split; [apply apply_completion_path; assumption|].
    cbn [target_text set_target text cursor_position].
    unfold Spec.effective_cursor. cbn [Z.ltb Z.compare].
    rewrite skipn_all. rewrite app_nil_r. split; reflexivity.
Qed.

End Splice.

(** The widget as a commit finds it in path mode: the trigger at offset 0 and
    the flag set. *)
Definition committing (t : str) (loc : nat * nat) : Widget Demo.Path :=
  set_completing true (set_session (Some path) 0 (Demo.widget t loc)).



Lemma commit_frame_witness :
  exists self',
    Demo.apply_completion Demo.busy (lit "subdir/")
      {| text := lit "see @su now"; cursor_position := 7 |}
      (set_session (Some path) 4 (committing (lit "see @su now") (0, 7))) = Ok self'
    /\ target_text self' = lit "see @subdir/ now".
Proof.
  destruct (commit_frame Demo.joinpath Demo.path_str Demo.scandir Demo.fuzzy_match
              Demo.isspace Demo.lower Demo.clamp_visitable Demo.busy (lit "subdir/")
              {| text := lit "see @su now"; cursor_position := 7 |}
              (set_session (Some path) 4 (committing (lit "see @su now") (0, 7)))
              eq_refl eq_refl) as [self' [H1 _]].
  exists self'. split; [exact H1|].
  vm_compute in H1. injection H1 as <-. reflexivity.
Defined.

(** C4 as it is stated fails when the cursor offset is 0: [text[0:end]], the
    whole of ["@SRC"], does not survive in ["@src/"]. *)
Lemma commit_frame_counterexample :
  exists self',
    Demo.apply_completion Demo.quiet (lit "src/")
      {| text := lit "@SRC"; cursor_position := 0 |}
      (committing (lit "@SRC") (0, 0)) = Ok self'
    /\ target_text self' = lit "@src/"
    /\ Spec.subsequence (skipn 0 (lit "@SRC")) (target_text self') = false.
Proof.
  eexists. split; [vm_compute; reflexivity|]. split; reflexivity.
Qed.

Lemma commit_at_offset_zero_witness :
  exists self',
    Demo.apply_completion Demo.busy (lit "foo.py")
      {| text := lit "@src/fo"; cursor_position := 0 |}
      (committing (lit "@src/fo") (0, 0)) = Ok self'
    /\ target_text self' = lit "@src/foo.py".
Proof.
  destruct (commit_at_offset_zero Demo.joinpath Demo.path_str Demo.scandir
              Demo.fuzzy_match Demo.isspace Demo.lower Demo.clamp_visitable Demo.busy (lit "foo.py")
              (lit "@src/fo") (committing (lit "@src/fo") (0, 0))) as [_ H].
  destruct (H eq_refl eq_refl) as [self' [H1 [H2 _]]].
  exists self'. split; [exact H1 | exact H2].
Defined.

End Splice.

(* ================================================================== *)
(** ** Ranking *)
(* ================================================================== *)

Module Ranking.
Import Py AutoComplete PyFacts SortFacts.

Lemma StronglySorted_weaken {A} (R R' : A -> A -> Prop) (l : list A) :
  (forall a b, In a l -> In b l -> R a b -> R' a b) ->
  StronglySorted R l -> StronglySorted R' l.
Proof.
  intros H S. induction S as [|a l S IH Ha]; constructor.
  - apply IH. intros x y Hx Hy. apply H; right; assumption.
  - rewrite Forall_forall in *. intros y Hy.
    apply H; [left; reflexivity | right; assumption | apply Ha; assumption].
Qed.

Section Ranking.
Context {Path : Type}.
Variable fuzzy_match : str -> str -> Q * list nat.
Variable isspace : char -> bool.

Local Abbreviation score_of := (score_of fuzzy_match).
Local Abbreviation get_matches := (@_get_matches Path fuzzy_match isspace).

(** The test of the loop of [_get_matches]: [score > 0]. *)
Definition matched (query : str) (candidate : DropdownItem) : bool :=
  Qltb 0 (score_of query candidate).

(** The item the loop builds for a candidate that matches. *)
Definition highlighted (query : str) (candidate : DropdownItem) : DropdownItem :=
  {| main := _apply_highlights isspace (main candidate)
               (snd (fuzzy_match query (rstrip SLASH (value candidate))));
     prefix := prefix candidate; id := id candidate; disabled := disabled candidate |}.

Lemma apply_highlights_plain (c : Content) (offsets : list nat) :
  plain (_apply_highlights isspace c offsets) = plain c.
Proof.
  unfold _apply_highlights. revert c.
  induction offsets as [|o offsets IH]; intros c; [reflexivity|].
  simpl. rewrite IH.
  destruct (nth_error (plain c) o) as [ch|]; [|reflexivity].
  destruct (negb (isspace ch)); reflexivity.
Qed.

Lemma highlighted_value (query : str) (c : DropdownItem) :
  value (highlighted query c) = value c.
Proof. unfold value, highlighted. simpl. apply apply_highlights_plain. Qed.

Lemma matches_and_scores_filter (query : str) (candidates : list DropdownItem) :
  matches_and_scores fuzzy_match isspace query candidates
  = map (fun c => (highlighted query c, score_of query c))
        (filter (matched query) candidates).
Proof.
  unfold matches_and_scores.
  induction candidates as [|c cs IH]; [reflexivity|].
  simpl. rewrite IH. unfold matched, AutoComplete.score_of, highlighted.
  destruct (fuzzy_match query (rstrip SLASH (value c))) as [score offsets] eqn:E.
  simpl. destruct (Qltb 0 score); simpl; rewrite ?E; reflexivity.
Qed.

(** [_get_matches] for a query that is not empty. *)
Lemma get_matches_ranked (candidates : list DropdownItem) (search_string : str)
  (self : Widget Path) :
  query_of (_mode self) search_string <> [] ->
  get_matches candidates search_string self
  = map (highlighted (query_of (_mode self) search_string))
        (sort_reverse Qltb (score_of (query_of (_mode self) search_string))
           (filter (matched (query_of (_mode self) search_string)) candidates)).
Proof.
  intros Hq. unfold _get_matches.
  destruct search_string as [|ch rest].
  - exfalso. apply Hq. unfold query_of. destruct (mode_is _ _); reflexivity.
  - destruct (query_of (_mode self) (ch :: rest)) as [|q0 q] eqn:E; [congruence|].
    rewrite matches_and_scores_filter, sort_reverse_map, map_map. reflexivity.
Qed.

(** C5.  For a query that is not empty the display list holds exactly the
    candidates whose score is above 0, by descending score, and candidates of
    equal score stand in the order the candidate sequence gave them. *)
Theorem ranked_display_list (candidates : list DropdownItem) (search_string : str)
  (self : Widget Path) :
  let query := query_of (_mode self) search_string in
  query <> [] ->
  exists ranked,
    get_matches candidates search_string self = map (highlighted query) ranked
    /\ (forall c, value (highlighted query c) = value c
                  /\ prefix (highlighted query c) = prefix c)
    /\ Permutation ranked (filter (matched query) candidates)
    /\ (forall c, In c ranked <-> In c candidates /\ (0 < score_of query c)%Q)
    /\ StronglySorted (fun a b => (score_of query b <= score_of query a)%Q) ranked
    /\ (forall s : Q,
          filter (fun c => Qeq_bool (score_of query c) s) ranked
          = filter (fun c => Qeq_bool (score_of query c) s)
              (filter (matched query) candidates)).
Proof.
  intros query Hq.
  exists (sort_reverse Qltb (score_of query) (filter (matched query) candidates)).
  split; [apply get_matches_ranked; assumption|].
  split; [intros c; split; [apply highlighted_value | reflexivity]|].
  split; [apply sort_reverse_perm|].
  split; [|split].
  - intros c. split.
    + intros H. eapply Permutation_in in H; [|apply sort_reverse_perm].
      apply filter_In in H. destruct H as [H1 H2].
      split; [assumption | apply Qltb_lt; exact H2].
    + intros [H1 H2]. eapply Permutation_in; [symmetry; apply sort_reverse_perm|].
      apply filter_In. split; [assumption | apply Qltb_lt; exact H2].
  - eapply StronglySorted_weaken; [|apply sort_reverse_sorted].
    + intros a b _ _ H. unfold ordered in H. apply Qltb_ge in H. exact H.
    + apply Qltb_asym.
    + intros a b c. unfold ordered. rewrite !Qltb_ge. intros H1 H2.
      eapply Qle_trans; eassumption.
  - intros s. apply sort_reverse_stable.
    intros x y Hx Hy. apply Qltb_ge.
    apply Qeq_bool_iff in Hx. apply Qeq_bool_iff in Hy.
    rewrite Hx, Hy. apply Qle_refl.
Qed.

End Ranking.

(** The commands of the specification's example, typed up to ["/worktree"]. *)
Lemma ranked_display_list_witness :
  let candidates := map (fun cmd => new_item cmd BOLT) Demo.commands in
  let self := set_session (Some slash) 0 (Demo.widget (lit "/worktree") (0, 9)) in
  exists ranked,
    _get_matches Demo.fuzzy_match Demo.isspace candidates (lit "/worktree") self
    = map (highlighted Demo.fuzzy_match Demo.isspace (lit "worktree")) ranked
    /\ Permutation ranked
         (filter (matched Demo.fuzzy_match (lit "worktree")) candidates).
Proof.
  intros candidates self.
  destruct (ranked_display_list (Path := Demo.Path) Demo.fuzzy_match Demo.isspace
              candidates (lit "/worktree") self)
    as [ranked [H1 [_ [H2 _]]]].
  - vm_compute. discriminate.
  - exists ranked. split; [exact H1 | exact H2].
Defined.

(** The same example, run: the two worktree commands remain, in their
    original order. *)
Example ranked_worktree_commands :
  map value
    (_get_matches Demo.fuzzy_match Demo.isspace
       (map (fun cmd => new_item cmd BOLT) Demo.commands) (lit "/worktree")
       (set_session (Some slash) 0 (Demo.widget (lit "/worktree") (0, 9))))
  = [lit "/worktree start"; lit "/worktree finish"].
Proof. vm_compute. reflexivity. Qed.

End Ranking.

(* ================================================================== *)
(** ** The path provider *)
(* ================================================================== *)

Module PathProvider.
Import Py AutoComplete PyFacts SortFacts.

(** An entry is shown unless its name starts with a dot. *)
Definition visible (entry : DirEntry) : bool := negb (startswith (name entry) [DOT]).

(** What [entry.is_dir()] answered, for an entry whose call returned. *)
Definition is_directory (entry : DirEntry) : bool :=
  match is_dir entry with
  | Ok b => b
  | Raise _ => false
  end.

(** The loop can examine a listing when [is_dir()] returns for every entry it
    does not skip. *)
Definition examinable (entries : list DirEntry) : Prop :=
  Forall (fun e => visible e = true -> exists b, is_dir e = Ok b) entries.

(** The candidate the loop of [_get_path_candidates] builds for an entry. *)
Definition candidate_of (entry : DirEntry) : DropdownItem :=
  if is_directory entry then new_item (name entry ++ [SLASH]) FOLDER
  else new_item (name entry) PAGE.

Definition label (entry : DirEntry) : str := value (candidate_of entry).

Lemma entry_items_visible (entries : list DirEntry) :
  examinable entries ->
  entry_items entries = Ok (map candidate_of (filter visible entries)).
Proof.
  unfold examinable. induction entries as [|e es IH]; intros H; [reflexivity|].
  inversion H as [|e' es' He Hes]; subst. simpl. unfold visible in *.
  destruct (startswith (name e) [DOT]); simpl; [apply IH; exact Hes|].
  destruct (He eq_refl) as [b Hb]. rewrite Hb, (IH Hes). simpl.
  unfold candidate_of, is_directory. rewrite Hb. reflexivity.
Qed.

(** The loop raises as soon as [is_dir()] does: what leaves it is the
    exception of an entry that is not skipped. *)
Lemma entry_items_raises (entries : list DirEntry) :
  ~ examinable entries ->
  exists e x,
    In e entries /\ visible e = true /\ is_dir e = Raise x
    /\ entry_items entries = Raise x.
Proof.
  unfold examinable. induction entries as [|e es IH]; intros H.
  - exfalso. apply H. constructor.
  - destruct (visible e) eqn:Ev.
    + destruct (is_dir e) as [b|x] eqn:Eb.
      * destruct IH as [e' [x [H1 [H2 [H3 H4]]]]].
        { intros Hes. apply H. constructor; [intros _; exists b; exact Eb | exact Hes]. }
        exists e', x. split; [right; exact H1|]. split; [exact H2|].
        split; [exact H3|]. simpl. unfold visible in Ev.
        apply negb_true_iff in Ev. rewrite Ev, Eb. simpl. rewrite H4. reflexivity.
      * exists e, x. split; [left; reflexivity|]. split; [exact Ev|].
        split; [exact Eb|]. simpl. unfold visible in Ev.
        apply negb_true_iff in Ev. rewrite Ev, Eb. reflexivity.
    + destruct IH as [e' [x [H1 [H2 [H3 H4]]]]].
      { intros Hes. apply H. constructor; [rewrite Ev; discriminate | exact Hes]. }
      exists e', x. split; [right; exact H1|]. split; [exact H2|].
      split; [exact H3|]. simpl. unfold visible in Ev.
      apply negb_false_iff in Ev. rewrite Ev. exact H4.
Qed.

Lemma examinable_dec (entries : list DirEntry) :
  examinable entries \/ ~ examinable entries.
Proof.
  unfold examinable. induction entries as [|e es IH]; [left; constructor|].
  destruct IH as [IH|IH].
  - destruct (visible e) eqn:Ev.
    + destruct (is_dir e) as [b|x] eqn:Eb.
      * left. constructor; [eauto | exact IH].
      * right. intros H. inversion H as [|e' es' He Hes]; subst.
        destruct (He Ev) as [b Hb]. congruence.
    + left. constructor; [rewrite Ev; discriminate | exact IH].
  - right. intros H. inversion H; subst. contradiction.
Qed.

Lemma label_eq (entry : DirEntry) :
  label entry = if is_directory entry then name entry ++ [SLASH] else name entry.
Proof. unfold label, candidate_of. destruct (is_directory entry); reflexivity. Qed.

Lemma endswith_app_char (s : str) (c : N) : endswith (s ++ [c]) [c] = true.
Proof.
  unfold endswith. rewrite rev_app_distr. simpl.
  rewrite N.eqb_refl. destruct (rev s); reflexivity.
Qed.

Lemma endswith_absent (s : str) (c : N) : ~ In c s -> endswith s [c] = false.
Proof.
  intros H. unfold endswith. simpl.
  destruct (rev s) as [|d r] eqn:E; [reflexivity|].
  simpl. destruct (N.eqb_spec d c) as [->|Hne]; [|reflexivity].
  exfalso. apply H. apply in_rev. rewrite E. left; reflexivity.
Qed.

(** The mark of a container, the trailing slash the widget looks for, is on
    the directories and on nothing else. *)
Lemma container_mark (entry : DirEntry) :
  ~ In SLASH (name entry) ->
  endswith (label entry) [SLASH] = is_directory entry.
Proof.
  intros H. rewrite label_eq. destruct (is_directory entry).
  - apply endswith_app_char.
  - apply endswith_absent. exact H.
Qed.

Section PathProvider.
Context {Path : Type}.
Variable joinpath : Path -> str -> Path.
Variable path_str : Path -> str.
Variable scandir : Path -> result (list DirEntry).
Variable fuzzy_match : str -> str -> Q * list nat.
Variable isspace : char -> bool.
Variable lower : str -> str.

Local Abbreviation get_path_candidates := (_get_path_candidates joinpath path_str scandir lower).
Local Abbreviation get_candidates := (_get_candidates joinpath path_str scandir lower).
Local Abbreviation rebuild_options :=
  (_rebuild_options joinpath path_str scandir fuzzy_match isspace lower).
Local Abbreviation handle_text_change :=
  (_handle_text_change joinpath path_str scandir fuzzy_match isspace lower).
Local Abbreviation directory_of := (target_directory joinpath).

(** The listing the provider works from: the cached one, or else the one the
    file system gives. *)
Definition listed (state : TargetState) (self : Widget Path) (entries : list DirEntry) : Prop :=
  let key := path_str (directory_of state self) in
  LRU.lookup key (LRU.entries (_directory_cache self)) = Some entries
  \/ (LRU.lookup key (LRU.entries (_directory_cache self)) = None
      /\ scandir (directory_of state self) = Ok entries).

(** The order of the candidates: containers first, then by lowered label. *)
Definition before (a b : DirEntry) : Prop :=
  (is_directory a = true \/ is_directory b = false)
  /\ (is_directory a = is_directory b ->
      str_ltb (lower (label b)) (lower (label a)) = false).

Lemma sorted_entries (entries : list DirEntry) :
  sort key_ltb (sort_key lower) (map candidate_of (filter visible entries))
  = map candidate_of
      (sort key_ltb (fun e => sort_key lower (candidate_of e)) (filter visible entries)).
Proof. apply sort_map. Qed.

(** The provider answers with what the loop over the listing gives. *)
Lemma get_path_candidates_loop (state : TargetState) (self : Widget Path)
  (entries : list DirEntry) :
  listed state self entries ->
  exists cache',
    get_path_candidates state self
    = bind (entry_items entries) (fun results =>
      Ok (sort key_ltb (sort_key lower) results, cache')).
Proof.
  unfold listed, _get_path_candidates, LRU.get.
  intros [H|[H1 H2]].
  - rewrite H. eexists. reflexivity.
  - rewrite H1, H2. eexists. reflexivity.
Qed.

Lemma get_path_candidates_listed (state : TargetState) (self : Widget Path)
  (entries : list DirEntry) :
  listed state self entries -> examinable entries ->
  exists cache',
    get_path_candidates state self
    = Ok (sort key_ltb (sort_key lower) (map candidate_of (filter visible entries)), cache').
Proof.
  intros Hl He. destruct (get_path_candidates_loop state self entries Hl) as [cache' H].
  exists cache'. rewrite H, (entry_items_visible entries He). reflexivity.
Qed.

(** What the provider makes of a listing it can examine: one candidate for
    each entry whose name does not start with a dot; a directory gets its
    name followed by [/], which is the mark of a container; the candidates
    stand containers first and then by label, compared without regard to
    case. *)
Lemma path_candidates_examined (state : TargetState) (self : Widget Path)
  (entries : list DirEntry) :
  listed state self entries ->
  examinable entries ->
  Forall (fun e => ~ In SLASH (name e)) entries ->
  exists kept cache',
    get_path_candidates state self = Ok (map candidate_of kept, cache')
    /\ Permutation kept (filter visible entries)
    /\ (forall e, In e kept <-> In e entries /\ startswith (name e) [DOT] = false)
    /\ (forall e, label e = if is_directory e then name e ++ [SLASH] else name e)
    /\ (forall e, In e kept -> endswith (label e) [SLASH] = is_directory e)
    /\ StronglySorted before kept.
Proof.
  intros Hl He Hn.
  destruct (get_path_candidates_listed state self entries Hl He) as [cache' Hc].
  rewrite sorted_entries in Hc.
  set (kept := sort key_ltb (fun e => sort_key lower (candidate_of e))
                 (filter visible entries)) in *.
  assert (Hperm : Permutation kept (filter visible entries)) by apply sort_perm.
  assert (Hin : forall e, In e kept <-> In e entries /\ startswith (name e) [DOT] = false).
  { intros e. split.
    - intros H. eapply Permutation_in in H; [|exact Hperm].
      apply filter_In in H. destruct H as [H1 H2]. split; [assumption|].
      unfold visible in H2. apply negb_true_iff in H2. exact H2.
    - intros [H1 H2]. eapply Permutation_in; [symmetry; exact Hperm|].
      apply filter_In. split; [assumption|].
      unfold visible. rewrite H2. reflexivity. }
  assert (Hmark : forall e, In e kept -> endswith (label e) [SLASH] = is_directory e).
  { intros e H. apply container_mark. apply Hin in H. destruct H as [H _].
    rewrite Forall_forall in Hn. apply Hn. exact H. }
  exists kept, cache'. split; [exact Hc|]. split; [exact Hperm|].
  split; [exact Hin|]. split; [exact label_eq|]. split; [exact Hmark|].
  eapply Ranking.StronglySorted_weaken; [|apply sort_sorted].
  - intros a b Ha Hb H. unfold ordered, sort_key in H.
    fold (label a) in H. fold (label b) in H.
    rewrite (Hmark a Ha), (Hmark b Hb) in H.
    unfold before, key_ltb in *. simpl in H.
    destruct (is_directory a), (is_directory b); simpl in H; try discriminate;
      split; auto; intros; try discriminate.
  - apply key_ltb_asym.
  - intros a b c. unfold ordered. apply key_ltb_total_trans.
Qed.

(** An entry the loop cannot examine: the exception of [is_dir()] leaves the
    provider, and with it the rebuilding of the options and the detection
    that asked for them. *)
Lemma unexamined_entry_escapes (state : TargetState) (self : Widget Path)
  (entries : list DirEntry) :
  listed state self entries ->
  ~ examinable entries ->
  exists e x,
    In e entries /\ visible e = true /\ is_dir e = Raise x
    /\ get_path_candidates state self = Raise x
    /\ (_mode self = Some path -> rebuild_options state self = Raise x).
Proof.
  intros Hl He.
  destruct (entry_items_raises entries He) as [e [x [H1 [H2 [H3 H4]]]]].
  assert (Hp : forall w : Widget Path, listed state w entries ->
                 get_path_candidates state w = Raise x).
  { intros w Hw. destruct (get_path_candidates_loop state w entries Hw) as [cache' H].
    rewrite H, H4. reflexivity. }
  exists e, x. repeat split; auto.
  intros Hm. unfold _rebuild_options, _get_candidates. cbn [_mode set_options].
  rewrite Hm. rewrite Hp; [reflexivity|]. destruct self; exact Hl.
Qed.

(** C7.  When the directory is not in the cache and reading it raises an
    [OSError] of any kind, the provider returns no candidate and raises
    nothing, and the cache is as it was; the display list is rebuilt empty. *)
Theorem unreadable_directory (state : TargetState) (self : Widget Path) (e : os_error) :
  LRU.lookup (path_str (directory_of state self)) (LRU.entries (_directory_cache self))
  = None ->
  scandir (directory_of state self) = Raise (OSError e) ->
  get_path_candidates state self = Ok ([], _directory_cache self)
  /\ (_mode self = Some path ->
      get_candidates state self = Ok ([], _directory_cache self)
      /\ exists self',
           rebuild_options state self = Ok self'
           /\ options self' = []
           /\ _directory_cache self' = _directory_cache self).
Proof.
  intros Hmiss Hraise.
  assert (Hp : get_path_candidates state self = Ok ([], _directory_cache self)).
  { unfold _get_path_candidates, LRU.get. rewrite Hmiss, Hraise. reflexivity. }
  split; [exact Hp|]. intros Hm.
  assert (Hc : get_candidates state self = Ok ([], _directory_cache self)).
  { unfold _get_candidates. rewrite Hm. exact Hp. }
  split; [exact Hc|].
  unfold _rebuild_options.
  assert (Hc' : get_candidates state (set_options [] None self)
                = Ok ([], _directory_cache self)).
  { destruct self; exact Hc. }
  rewrite Hc'. simpl bind.
  assert (Hm' : forall s w, @_get_matches Path fuzzy_match isspace [] s w = []).
  { intros s w. unfold _get_matches. destruct s; [reflexivity|].
    destruct (query_of _ _); reflexivity. }
  rewrite Hm'. eexists. split; [reflexivity|]. split; reflexivity.
Qed.

End PathProvider.

(** The directory of the project's path test: three candidates, the hidden
    entry left out, the directory first. *)
Example path_candidates_examined_run :
  exists kept cache',
    _get_path_candidates Demo.joinpath Demo.path_str Demo.scandir Demo.lower
      {| text := lit "@"; cursor_position := 1 |}
      (set_session (Some path) 0 (Demo.widget (lit "@") (0, 1)))
    = Ok (map candidate_of kept, cache')
    /\ Permutation kept (filter visible Demo.listing).
Proof.
  destruct (path_candidates_examined Demo.joinpath Demo.path_str Demo.scandir Demo.lower
              {| text := lit "@"; cursor_position := 1 |}
              (set_session (Some path) 0 (Demo.widget (lit "@") (0, 1)))
              Demo.listing)
    as [kept [cache' [H1 [H2 _]]]].
  - right. split; reflexivity.
  - repeat constructor; intros _; eexists; reflexivity.
  - repeat constructor; vm_compute; intuition discriminate.
  - exists kept, cache'. split; [exact H1 | exact H2].
Qed.

(** C6, the code at the failing input.  The directory [loops] can be listed
    and holds a file and a symbolic link that points to itself; neither name
    starts with a dot.  [is_dir()] raises for the link, in the loop that
    stands outside the [try], and the [OSError] leaves the provider and the
    detection that called it: no candidate is produced, not for the file
    either. *)
Theorem looping_link_escapes :
  let state := {| text := lit "@loops/"; cursor_position := 7 |} in
  let self := set_session (Some path) 0 (Demo.widget (lit "@loops/") (0, 7)) in
  listed Demo.joinpath Demo.path_str Demo.scandir state self Demo.loops
  /\ filter visible Demo.loops = Demo.loops
  /\ ~ examinable Demo.loops
  /\ _get_path_candidates Demo.joinpath Demo.path_str Demo.scandir Demo.lower state self
     = Raise Demo.ELOOP
  /\ Demo.handle_text_change (Demo.widget (lit "@loops/") (0, 7)) = Raise Demo.ELOOP.
Proof.
  intros state self.
  assert (Hl : listed Demo.joinpath Demo.path_str Demo.scandir state self Demo.loops)
    by (right; split; reflexivity).
  assert (He : ~ examinable Demo.loops).
  { intros H. inversion H as [|e es _ H']; subst. inversion H' as [|e es H1 _]; subst.
    destruct (H1 eq_refl) as [b Hb]. discriminate. }
  split; [exact Hl|]. split; [reflexivity|]. split; [exact He|].
  split; vm_compute; reflexivity.
Qed.

Example path_candidates_run :
  option_map (fun r => map value (fst r))
    (match _get_path_candidates Demo.joinpath Demo.path_str Demo.scandir Demo.lower
             {| text := lit "@"; cursor_position := 1 |}
             (set_session (Some path) 0 (Demo.widget (lit "@") (0, 1))) with
     | Ok r => Some r
     | Raise _ => None
     end)
  = Some [lit "subdir/"; lit "file1.txt"; lit "file2.txt"].
Proof. vm_compute. reflexivity. Qed.

(** A directory that the file system refuses to list. *)
Lemma unreadable_directory_witness :
  _get_path_candidates Demo.joinpath Demo.path_str Demo.scandir Demo.lower
    {| text := lit "@locked/"; cursor_position := 8 |}
    (set_session (Some path) 0 (Demo.widget (lit "@locked/") (0, 8)))
  = Ok ([], LRU.empty 100).
Proof.
  destruct (unreadable_directory Demo.joinpath Demo.path_str Demo.scandir
              Demo.fuzzy_match Demo.isspace Demo.lower
              {| text := lit "@locked/"; cursor_position := 8 |}
              (set_session (Some path) 0 (Demo.widget (lit "@locked/") (0, 8)))
              PermissionError eq_refl eq_refl) as [H _].
  exact H.
Defined.

End PathProvider.

(* ================================================================== *)
(** ** The directory cache *)
(* ================================================================== *)

Module Cache.
Import Py AutoComplete PyFacts.

Section Cache.
Context {V : Type}.
Implicit Types (c : LRU.LRUCache V) (l : list (str * V)) (k : str).

Lemma lookup_None l k : LRU.lookup k l = None <-> ~ In k (map fst l).
Proof.
  induction l as [|[k' v] l IH]; simpl; [tauto|].
  destruct (str_eqb k k') eqn:E.
  - apply str_eqb_eq in E. subst. split; [discriminate | intros H; exfalso; auto].
  - apply str_eqb_neq in E. rewrite IH. split.
    + intros H [H'|H']; [congruence | auto].
    + intros H H'. apply H. right; assumption.
Qed.

Lemma lookup_Some_In l k v : LRU.lookup k l = Some v -> In k (map fst l).
Proof.
  intros H. destruct (in_dec (list_eq_dec N.eq_dec) k (map fst l)) as [Hin|Hout];
    [assumption|].
  apply lookup_None in Hout. congruence.
Qed.

Lemma In_lookup l k : In k (map fst l) -> exists v, LRU.lookup k l = Some v.
Proof.
  intros H. destruct (LRU.lookup k l) as [v|] eqn:E; [eauto|].
  apply lookup_None in E. contradiction.
Qed.

Lemma remove_keys l k :
  map fst (LRU.remove k l) = filter (fun k' => negb (str_eqb k k')) (map fst l).
Proof.
  induction l as [|[k' v] l IH]; [reflexivity|].
  simpl. destruct (str_eqb k k'); simpl; rewrite IH; reflexivity.
Qed.

Lemma remove_length l k : length (LRU.remove k l) <= length l.
Proof.
  induction l as [|[k' v] l IH]; simpl; [lia|].
  destruct (str_eqb k k'); simpl; lia.
Qed.

Lemma remove_shorter l k v :
  LRU.lookup k l = Some v -> length (LRU.remove k l) < length l.
Proof.
  induction l as [|[k' v'] l IH]; simpl; [discriminate|].
  destruct (str_eqb k k').
  - intros _. pose proof (remove_length l k). lia.
  - intros H. apply IH in H. simpl. lia.
Qed.

Lemma removelast_length {A} (l : list A) : length (removelast l) = length l - 1.
Proof.
  induction l as [|a l IH]; [reflexivity|].
  destruct l as [|b l]; [reflexivity|].
  change (removelast (a :: b :: l)) with (a :: removelast (b :: l)).
  cbn [length] in *. lia.
Qed.

Lemma removelast_map {A B} (f : A -> B) (l : list A) :
  removelast (map f l) = map f (removelast l).
Proof.
  induction l as [|a l IH]; [reflexivity|].
  destruct l as [|b l]; [reflexivity|].
  change (removelast (a :: b :: l)) with (a :: removelast (b :: l)).
  cbn [map] in *. rewrite <- IH. reflexivity.
Qed.

Lemma In_removelast {A} (x : A) (l : list A) : In x (removelast l) -> In x l.
Proof.
  induction l as [|a l IH]; [tauto|].
  destruct l as [|b l]; [simpl; tauto|].
  change (removelast (a :: b :: l)) with (a :: removelast (b :: l)).
  intros [H|H]; [left; assumption | right; apply IH; assumption].
Qed.

Lemma NoDup_removelast {A} (l : list A) : NoDup l -> NoDup (removelast l).
Proof.
  induction l as [|a l IH]; intros H; [constructor|].
  destruct l as [|b l]; [constructor|].
  change (removelast (a :: b :: l)) with (a :: removelast (b :: l)).
  inversion H; subst. constructor.
  - intros Hin. apply In_removelast in Hin. contradiction.
  - apply IH. assumption.
Qed.

(** A list that ends with [x]. *)
Lemma rev_head_last {A} (l : list A) (x : A) (r : list A) :
  rev l = x :: r -> l = removelast l ++ [x].
Proof.
  intros H. assert (Hl : l = rev r ++ [x]).
  { rewrite <- (rev_involutive l), H. reflexivity. }
  rewrite Hl at 2. rewrite removelast_last. exact Hl.
Qed.

(** What every operation keeps. *)
Definition well_formed c : Prop :=
  NoDup (LRU.keys c) /\ length (LRU.entries c) <= LRU.maxsize c.

Lemma get_maxsize c k : LRU.maxsize (snd (LRU.get k c)) = LRU.maxsize c.
Proof. unfold LRU.get. destruct (LRU.lookup k (LRU.entries c)); reflexivity. Qed.

Lemma put_maxsize c k v : LRU.maxsize (LRU.put k v c) = LRU.maxsize c.
Proof. unfold LRU.put. destruct (LRU.lookup k (LRU.entries c)); reflexivity. Qed.

Lemma promoted_NoDup l k : NoDup (map fst l) -> NoDup (k :: map fst (LRU.remove k l)).
Proof.
  intros H. rewrite remove_keys. constructor.
  - intros Hin. apply filter_In in Hin. destruct Hin as [_ Hin].
    rewrite str_eqb_refl in Hin. discriminate.
  - apply NoDup_filter. assumption.
Qed.

Lemma get_well_formed c k : well_formed c -> well_formed (snd (LRU.get k c)).
Proof.
  intros [Hn Hl]. unfold LRU.get.
  destruct (LRU.lookup k (LRU.entries c)) as [v|] eqn:E; [|split; assumption].
  unfold LRU.keys in *. split; simpl.
  - apply promoted_NoDup. exact Hn.
  - apply remove_shorter in E. lia.
Qed.

Lemma put_well_formed c k v :
  1 <= LRU.maxsize c -> well_formed c -> well_formed (LRU.put k v c).
Proof.
  intros Hm [Hn Hl]. unfold LRU.put, well_formed, LRU.keys in *.
  destruct (LRU.lookup k (LRU.entries c)) as [v'|] eqn:E.
  - split; simpl.
    + apply promoted_NoDup. exact Hn.
    + apply remove_shorter in E. lia.
  - apply lookup_None in E. unfold LRU.full.
    destruct (Nat.leb_spec (LRU.maxsize c) (length (LRU.entries c))) as [Hf|Hf].
    + split; simpl.
      * constructor.
        -- rewrite <- removelast_map. intros Hin. apply In_removelast in Hin.
           contradiction.
        -- rewrite <- removelast_map. apply NoDup_removelast. exact Hn.
      * rewrite removelast_length. lia.
    + split; simpl.
      * constructor; assumption.
      * lia.
Qed.

Lemma run_maxsize (ops : list (LRU.op V)) c :
  LRU.maxsize (LRU.run ops c) = LRU.maxsize c.
Proof.
  revert c. induction ops as [|o ops IH]; intros c; [reflexivity|].
  change (LRU.run (o :: ops) c) with (LRU.run ops (LRU.apply o c)). rewrite IH.
  destruct o; simpl; [apply get_maxsize | apply put_maxsize].
Qed.

Lemma run_well_formed (ops : list (LRU.op V)) c :
  1 <= LRU.maxsize c -> well_formed c -> well_formed (LRU.run ops c).
Proof.
  revert c. induction ops as [|o ops IH]; intros c Hm Hw; [assumption|].
  change (LRU.run (o :: ops) c) with (LRU.run ops (LRU.apply o c)). apply IH.
  - destruct o; simpl; [rewrite get_maxsize | rewrite put_maxsize]; assumption.
  - destruct o; simpl; [apply get_well_formed | apply put_well_formed]; assumption.
Qed.

(** A new key put into a full cache takes the place of the last key. *)
Lemma put_evicts c k v old :
  well_formed c -> 1 <= LRU.maxsize c ->
  LRU.lookup k (LRU.entries c) = None -> LRU.full c = true ->
  LRU.lru_key c = Some old ->
  LRU.keys (LRU.put k v c) = k :: removelast (LRU.keys c)
  /\ LRU.keys c = removelast (LRU.keys c) ++ [old]
  /\ ~ In old (LRU.keys (LRU.put k v c))
  /\ (forall k', In k' (LRU.keys c) -> k' <> old -> In k' (LRU.keys (LRU.put k v c)))
  /\ length (LRU.entries (LRU.put k v c)) = length (LRU.entries c).
Proof.
  intros [Hn Hl] Hm Hmiss Hfull Hold.
  assert (Hk : LRU.keys (LRU.put k v c) = k :: removelast (LRU.keys c)).
  { unfold LRU.put, LRU.keys. rewrite Hmiss, Hfull. simpl.
    rewrite removelast_map. reflexivity. }
  assert (Hlast : LRU.keys c = removelast (LRU.keys c) ++ [old]).
  { unfold LRU.lru_key in Hold. destruct (rev (LRU.keys c)) as [|x r] eqn:E;
      [discriminate|].
    inversion Hold; subst. eapply rev_head_last. eassumption. }
  split; [exact Hk|]. split; [exact Hlast|]. split; [|split].
  - rewrite Hk. intros [H|H].
    + subst old. apply lookup_None in Hmiss. apply Hmiss.
      fold (LRU.keys c). rewrite Hlast. apply in_or_app. right. left. reflexivity.
    + rewrite Hlast in Hn. apply NoDup_remove_2 in Hn.
      rewrite app_nil_r in Hn. contradiction.
  - intros k' Hin Hne. rewrite Hk. right.
    rewrite Hlast in Hin. apply in_app_or in Hin.
    destruct Hin as [Hin|[Hin|[]]]; [assumption | congruence].
  - unfold LRU.put. rewrite Hmiss, Hfull. simpl. rewrite removelast_length.
    unfold LRU.full in Hfull. apply Nat.leb_le in Hfull. lia.
Qed.

(** A hit moves the key to the front. *)
Lemma get_promotes c k v :
  LRU.lookup k (LRU.entries c) = Some v ->
  fst (LRU.get k c) = Some v
  /\ LRU.keys (snd (LRU.get k c))
     = k :: filter (fun k' => negb (str_eqb k k')) (LRU.keys c).
Proof.
  intros H. unfold LRU.get. rewrite H. split; [reflexivity|].
  unfold LRU.keys. simpl. rewrite remove_keys. reflexivity.
Qed.

(** A key read just before a new key is put survives the put. *)
Lemma get_protects c k k' v :
  2 <= LRU.maxsize c ->
  In k (LRU.keys c) -> ~ In k' (LRU.keys c) ->
  In k (LRU.keys (LRU.put k' v (snd (LRU.get k c)))).
Proof.
  intros Hm Hin Hout.
  destruct (In_lookup _ _ Hin) as [v0 Hv0].
  unfold LRU.get. rewrite Hv0. simpl snd.
  assert (Hne : str_eqb k' k = false).
  { apply str_eqb_neq. intros ->. contradiction. }
  assert (Hmiss : LRU.lookup k' (LRU.remove k (LRU.entries c)) = None).
  { apply lookup_None. rewrite remove_keys. intros H.
    apply filter_In in H. destruct H as [H _]. contradiction. }
  unfold LRU.put. simpl. rewrite Hne, Hmiss. unfold LRU.full. simpl.
  destruct (Nat.leb_spec (LRU.maxsize c) (S (length (LRU.remove k (LRU.entries c)))))
    as [Hf|Hf].
  - destruct (LRU.remove k (LRU.entries c)) as [|e r] eqn:E.
    + simpl in Hf. lia.
    + unfold LRU.keys. simpl. right. left. reflexivity.
  - unfold LRU.keys. simpl. right. left. reflexivity.
Qed.

End Cache.

Lemma run_app {V} (ops ops' : list (LRU.op V)) (c : LRU.LRUCache V) :
  LRU.run (ops ++ ops') c = LRU.run ops' (LRU.run ops c).
Proof. unfold LRU.run. apply fold_left_app. Qed.

(** *** Recency, read off the operations

    Which key is the least recently accessed is a fact about the operations
    performed, not about the cache: the accesses are numbered, and a key is
    older than another when its last access has the smaller number. *)
Section Recency.
Context {V : Type}.
Implicit Types (ops : list (LRU.op V)) (c : LRU.LRUCache V) (k : str).

(** The key an operation names. *)
Definition key_of (o : LRU.op V) : str :=
  match o with
  | LRU.Get k => k
  | LRU.Put k _ => k
  end.

(** The number of the last operation of [ops] that names [k], the
    operations being numbered from 0.  For a key that is in the cache this
    is its last access: the [put] that stored it or a later [get], which
    found it there. *)
Fixpoint last_access ops k : option nat :=
  match ops with
  | [] => None
  | o :: ops' =>
      match last_access ops' k with
      | Some i => Some (S i)
      | None => if str_eqb (key_of o) k then Some 0 else None
      end
  end.

(** [a] was last accessed before [b] was. *)
Definition older ops (a b : str) : Prop :=
  exists i j, last_access ops a = Some i /\ last_access ops b = Some j /\ i < j.

Lemma last_access_lt ops k i : last_access ops k = Some i -> i < length ops.
Proof.
  revert i. induction ops as [|o ops IH]; intros i; simpl; [discriminate|].
  destruct (last_access ops k) as [j|].
  - intros H. inversion H; subst. specialize (IH j eq_refl). lia.
  - destruct (str_eqb (key_of o) k); intros H; inversion H; subst. lia.
Qed.

Lemma last_access_snoc ops (o : LRU.op V) k :
  last_access (ops ++ [o]) k
  = if str_eqb (key_of o) k then Some (length ops) else last_access ops k.
Proof.
  induction ops as [|a ops IH]; simpl.
  - destruct (str_eqb (key_of o) k); reflexivity.
  - rewrite IH. destruct (str_eqb (key_of o) k); reflexivity.
Qed.

Lemma last_access_snoc_other ops (o : LRU.op V) k :
  key_of o <> k -> last_access (ops ++ [o]) k = last_access ops k.
Proof.
  intros H. rewrite last_access_snoc.
  apply str_eqb_neq in H. rewrite H. reflexivity.
Qed.

Lemma last_access_snoc_same ops (o : LRU.op V) :
  last_access (ops ++ [o]) (key_of o) = Some (length ops).
Proof. rewrite last_access_snoc, str_eqb_refl. reflexivity. Qed.

(** The keys stand most recently accessed first, and each has been
    accessed. *)
Definition by_recency ops (l : list str) : Prop :=
  StronglySorted (fun a b => older ops b a) l
  /\ Forall (fun k => exists i, last_access ops k = Some i) l.

Lemma by_recency_nil ops : by_recency ops [].
Proof. split; constructor. Qed.

Lemma by_recency_inv ops k l :
  by_recency ops (k :: l) ->
  by_recency ops l
  /\ (exists i, last_access ops k = Some i)
  /\ (forall k', In k' l -> older ops k' k).
Proof.
  intros [Hs Hf]. apply StronglySorted_inv in Hs. destruct Hs as [Hs Hk].
  inversion Hf; subst. split; [split; assumption|]. split; [assumption|].
  rewrite Forall_forall in Hk. exact Hk.
Qed.

Lemma by_recency_cons ops k l :
  by_recency ops l -> (exists i, last_access ops k = Some i) ->
  (forall k', In k' l -> older ops k' k) ->
  by_recency ops (k :: l).
Proof.
  intros [Hs Hf] Hk Hold. split; constructor; try assumption.
  rewrite Forall_forall. exact Hold.
Qed.

Lemma by_recency_filter ops (f : str -> bool) l :
  by_recency ops l -> by_recency ops (filter f l).
Proof.
  induction l as [|k l IH]; intros H; [exact H|].
  apply by_recency_inv in H. destruct H as [Hl [Hk Hold]]. simpl.
  destruct (f k); [|apply IH; exact Hl].
  apply by_recency_cons; [apply IH; exact Hl | exact Hk|].
  intros k' Hin. apply filter_In in Hin. apply Hold. tauto.
Qed.

Lemma by_recency_removelast ops l :
  by_recency ops l -> by_recency ops (removelast l).
Proof.
  induction l as [|k l IH]; intros H; [exact H|].
  apply by_recency_inv in H. destruct H as [Hl [Hk Hold]].
  destruct l as [|k2 l]; [apply by_recency_nil|].
  change (removelast (k :: k2 :: l)) with (k :: removelast (k2 :: l)).
  apply by_recency_cons; [apply IH; exact Hl | exact Hk|].
  intros k' Hin. apply Hold. apply In_removelast. exact Hin.
Qed.

(** The key at the end was last accessed before every other key. *)
Lemma by_recency_last ops l old :
  by_recency ops (l ++ [old]) -> forall k', In k' l -> older ops old k'.
Proof.
  induction l as [|k l IH]; intros H k' Hin; [contradiction|].
  simpl in H. apply by_recency_inv in H. destruct H as [Hl [_ Hold]].
  destruct Hin as [<-|Hin].
  - apply Hold. apply in_or_app. right. left. reflexivity.
  - apply IH; assumption.
Qed.

(** An operation on another key leaves the order as it is. *)
Lemma by_recency_other ops (o : LRU.op V) l :
  ~ In (key_of o) l -> by_recency ops l -> by_recency (ops ++ [o]) l.
Proof.
  induction l as [|k l IH]; intros Hout H; [apply by_recency_nil|].
  apply by_recency_inv in H. destruct H as [Hl [[i Hk] Hold]].
  assert (Hne : key_of o <> k) by (intros E; apply Hout; left; symmetry; exact E).
  assert (Hout' : ~ In (key_of o) l) by (intros Hin; apply Hout; right; exact Hin).
  apply by_recency_cons; [apply IH; assumption | | ].
  - exists i. rewrite last_access_snoc_other by exact Hne. exact Hk.
  - intros k' Hin. destruct (Hold k' Hin) as [a [b [Ha [Hb Hlt]]]].
    assert (Hne' : key_of o <> k') by (intros E; apply Hout'; rewrite E; exact Hin).
    exists a, b. rewrite (last_access_snoc_other ops o k' Hne').
    rewrite (last_access_snoc_other ops o k Hne). auto.
Qed.

(** An operation on a key makes it the most recently accessed one. *)
Lemma by_recency_promote ops (o : LRU.op V) l :
  ~ In (key_of o) l -> by_recency ops l -> by_recency (ops ++ [o]) (key_of o :: l).
Proof.
  intros Hout H.
  apply by_recency_cons; [apply by_recency_other; assumption | |].
  - exists (length ops). apply last_access_snoc_same.
  - intros k' Hin. destruct H as [_ Hf]. rewrite Forall_forall in Hf.
    destruct (Hf k' Hin) as [i Hi].
    exists i, (length ops). rewrite last_access_snoc_same.
    rewrite last_access_snoc_other by (intros E; apply Hout; rewrite E; exact Hin).
    split; [exact Hi|]. split; [reflexivity|]. apply (last_access_lt ops k'). exact Hi.
Qed.

Lemma not_in_filtered k (l : list str) :
  ~ In k (filter (fun k' => negb (str_eqb k k')) l).
Proof.
  intros H. apply filter_In in H. destruct H as [_ H].
  rewrite str_eqb_refl in H. discriminate.
Qed.

(** Every operation keeps the keys in the order of their last accesses. *)
Lemma apply_by_recency ops (o : LRU.op V) c :
  by_recency ops (LRU.keys c) ->
  by_recency (ops ++ [o]) (LRU.keys (LRU.apply o c)).
Proof.
  intros H. destruct o as [k|k v]; simpl.
  - unfold LRU.get. destruct (LRU.lookup k (LRU.entries c)) as [v|] eqn:E; simpl.
    + unfold LRU.keys in *. simpl. rewrite remove_keys.
      apply (by_recency_promote ops (LRU.Get k));
        [apply not_in_filtered | apply by_recency_filter; exact H].
    + apply lookup_None in E.
      apply (by_recency_other ops (LRU.Get k)); assumption.
  - unfold LRU.put. destruct (LRU.lookup k (LRU.entries c)) as [v'|] eqn:E.
    + unfold LRU.keys in *. simpl. rewrite remove_keys.
      apply (by_recency_promote ops (LRU.Put k v));
        [apply not_in_filtered | apply by_recency_filter; exact H].
    + apply lookup_None in E. unfold LRU.keys in *.
      destruct (LRU.full c); simpl.
      * rewrite <- removelast_map.
        apply (by_recency_promote ops (LRU.Put k v));
          [intros Hin; apply In_removelast in Hin; contradiction
          |apply by_recency_removelast; exact H].
      * apply (by_recency_promote ops (LRU.Put k v)); assumption.
Qed.

Lemma run_by_recency ops (n : nat) :
  by_recency ops (LRU.keys (LRU.run ops (LRU.empty n))).
Proof.
  induction ops as [|o ops IH] using rev_ind; [apply by_recency_nil|].
  rewrite run_app. apply apply_by_recency. exact IH.
Qed.

(** A new key put into a full cache, after any operations: one key leaves,
    and it is the one whose last access is the oldest. *)
Lemma evicts_least_recent ops (n : nat) k v :
  1 <= n ->
  let c := LRU.run ops (LRU.empty n) in
  LRU.lookup k (LRU.entries c) = None -> LRU.full c = true ->
  exists old,
    In old (LRU.keys c)
    /\ ~ In old (LRU.keys (LRU.put k v c))
    /\ In k (LRU.keys (LRU.put k v c))
    /\ (forall k', In k' (LRU.keys c) -> k' <> old ->
          In k' (LRU.keys (LRU.put k v c)) /\ older ops old k')
    /\ length (LRU.entries (LRU.put k v c)) = length (LRU.entries c).
Proof.
  intros Hn c Hmiss Hfull.
  assert (Hm : LRU.maxsize c = n) by (unfold c; rewrite run_maxsize; reflexivity).
  assert (Hw : well_formed c).
  { unfold c. apply run_well_formed; simpl; [lia|]. split; simpl; [constructor | lia]. }
  destruct (LRU.lru_key c) as [old|] eqn:Eold.
  - destruct (put_evicts c k v old Hw ltac:(lia) Hmiss Hfull Eold)
      as [Hk [Hlast [Hgone [Hkept Hlen]]]].
    pose proof (run_by_recency ops n) as Hr. fold c in Hr. rewrite Hlast in Hr.
    exists old. split; [rewrite Hlast; apply in_or_app; right; left; reflexivity|].
    split; [exact Hgone|]. split; [rewrite Hk; left; reflexivity|].
    split; [|exact Hlen].
    intros k' Hin Hne. split; [apply Hkept; assumption|].
    apply (by_recency_last ops _ old Hr).
    rewrite Hlast in Hin. apply in_app_or in Hin.
    destruct Hin as [Hin|[Hin|[]]]; [exact Hin | congruence].
  - exfalso. unfold LRU.lru_key in Eold.
    destruct (rev (LRU.keys c)) as [|x r] eqn:E; [|discriminate].
    assert (Hnil : LRU.keys c = []).
    { rewrite <- (rev_involutive (LRU.keys c)), E. reflexivity. }
    unfold LRU.full in Hfull. apply Nat.leb_le in Hfull.
    unfold LRU.keys in Hnil. apply map_eq_nil in Hnil. rewrite Hnil in Hfull.
    simpl in Hfull. lia.
Qed.

End Recency.

Section Widget.
Context {Path : Type}.
Variable joinpath : Path -> str -> Path.
Variable path_str : Path -> str.
Variable scandir : Path -> result (list DirEntry).
Variable lower : str -> str.

Local Abbreviation get_path_candidates := (_get_path_candidates joinpath path_str scandir lower).

(** The provider reaches the cache through [get] and [put] only. *)
Lemma path_candidates_cache (state : TargetState) (self : Widget Path)
  (items : list DropdownItem) (cache' : LRU.LRUCache (list DirEntry)) :
  get_path_candidates state self = Ok (items, cache') ->
  exists ops, cache' = LRU.run ops (_directory_cache self).
Proof.
  unfold _get_path_candidates.
  set (key := path_str (target_directory joinpath state self)).
  destruct (LRU.get key (_directory_cache self)) as [cached cache] eqn:E.
  assert (Hc : cache = LRU.run [LRU.Get key] (_directory_cache self))
    by (simpl; rewrite E; reflexivity).
  destruct cached as [entries|].
  - destruct (entry_items entries) as [results|x]; simpl; intros H; inversion H; subst.
    exists [LRU.Get key]. reflexivity.
  - destruct (scandir _) as [entries|e].
    + destruct (entry_items entries) as [results|x]; simpl; intros H; inversion H; subst.
      exists [LRU.Get key; LRU.Put key entries]. simpl. rewrite E. reflexivity.
    + destruct (is_OSError e); intros H; inversion H; subst.
      exists [LRU.Get key]. reflexivity.
Qed.

(** The keys of the cache after a hit are those it had. *)
Lemma get_keeps_keys {V} (c : LRU.LRUCache V) (k : str) (v : V) :
  LRU.lookup k (LRU.entries c) = Some v ->
  forall k', In k' (LRU.keys (snd (LRU.get k c))) <-> In k' (LRU.keys c).
Proof.
  intros Hv k'. destruct (get_promotes c k v Hv) as [_ H2]. rewrite H2. split.
  - intros [<-|Hin]; [eapply lookup_Some_In; exact Hv|].
    apply filter_In in Hin. tauto.
  - intros Hin. destruct (str_eqb k k') eqn:E.
    + apply str_eqb_eq in E. left. exact E.
    + right. apply filter_In. split; [exact Hin|]. rewrite E. reflexivity.
Qed.

(** C8.  The cache a widget creates has capacity 100 and, whatever is done
    with it, never holds more than 100 entries.  A new key put into the full
    cache makes exactly one key leave, and that key is the least recently
    accessed one: its last access, a [put] or a [get] that found it, came
    before the last access of every other key in the cache.  A hit returns
    the value and counts as an access: a key read just before a new key is
    put is not the one evicted, and the key that is evicted is the least
    recently accessed one with that read counted. *)
Theorem directory_cache_lru (t : str) (loc : nat * nat) (commands : list str)
  (base : Path) (ops : list (LRU.op (list DirEntry))) :
  let c := LRU.run ops (_directory_cache (__init__ t loc commands base)) in
  LRU.maxsize c = 100
  /\ length (LRU.entries c) <= 100
  /\ (forall k v,
        LRU.lookup k (LRU.entries c) = None -> LRU.full c = true ->
        exists old,
          In old (LRU.keys c)
          /\ ~ In old (LRU.keys (LRU.put k v c))
          /\ In k (LRU.keys (LRU.put k v c))
          /\ (forall k', In k' (LRU.keys c) -> k' <> old ->
                In k' (LRU.keys (LRU.put k v c)) /\ older ops old k')
          /\ length (LRU.entries (LRU.put k v c)) = length (LRU.entries c))
  /\ (forall k v,
        LRU.lookup k (LRU.entries c) = Some v ->
        fst (LRU.get k c) = Some v
        /\ (forall k', In k' (LRU.keys (snd (LRU.get k c))) <-> In k' (LRU.keys c)))
  /\ (forall k k' v,
        In k (LRU.keys c) -> ~ In k' (LRU.keys c) ->
        let c' := snd (LRU.get k c) in
        In k (LRU.keys (LRU.put k' v c'))
        /\ (LRU.full c' = true ->
            exists old,
              old <> k /\ In old (LRU.keys c)
              /\ ~ In old (LRU.keys (LRU.put k' v c'))
              /\ (forall k'', In k'' (LRU.keys c) -> k'' <> old ->
                    In k'' (LRU.keys (LRU.put k' v c'))
                    /\ older (ops ++ [LRU.Get k]) old k'')))
  /\ (forall state self items cache',
        _directory_cache self = c ->
        get_path_candidates state self = Ok (items, cache') ->
        exists ops',
          cache' = LRU.run (ops ++ ops') (_directory_cache (__init__ t loc commands base))).
Proof.
  intros c.
  assert (Hm : LRU.maxsize c = 100) by (unfold c; rewrite run_maxsize; reflexivity).
  assert (Hw : well_formed c).
  { unfold c. apply run_well_formed; simpl; [lia|].
    split; simpl; [constructor | lia]. }
  split; [exact Hm|]. split; [destruct Hw; lia|].
  split; [|split; [|split]].
  - intros k v. apply (evicts_least_recent ops 100 k v). lia.
  - intros k v Hv. split; [apply (get_promotes c k v Hv)|].
    apply (get_keeps_keys c k v Hv).
  - intros k k' v Hin Hout c'.
    assert (Hsafe : In k (LRU.keys (LRU.put k' v c')))
      by (apply get_protects; [lia | exact Hin | exact Hout]).
    split; [exact Hsafe|]. intros Hfull.
    destruct (In_lookup _ _ Hin) as [v0 Hv0].
    pose proof (get_keeps_keys c k v0 Hv0) as Hkeys. fold c' in Hkeys.
    assert (Hrun : LRU.run (ops ++ [LRU.Get k]) (LRU.empty 100) = c')
      by (rewrite run_app; reflexivity).
    destruct (evicts_least_recent (ops ++ [LRU.Get k]) 100 k' v ltac:(lia))
      as [old [H1 [H2 [_ [H3 _]]]]].
    + rewrite Hrun. apply lookup_None. intros H. apply Hout. apply Hkeys. exact H.
    + rewrite Hrun. exact Hfull.
    + rewrite Hrun in *. exists old.
      split; [intros ->; contradiction|].
      split; [apply Hkeys; exact H1|]. split; [exact H2|].
      intros k'' Hin'' Hne. apply H3; [apply Hkeys; exact Hin'' | exact Hne].
  - intros state self items cache' Hc H.
    apply path_candidates_cache in H. destruct H as [ops' H].
    exists ops'. rewrite run_app. fold c. rewrite <- Hc. exact H.
Qed.

End Widget.

(** A cache filled with 100 keys, the key [0] put first: key 100 evicts key
    0 and nothing else; after key 0 is read, key 100 evicts key 1. *)
Definition filled : list (LRU.op (list DirEntry)) :=
  map (fun n => LRU.Put [N.of_nat n] []) (seq 0 100).

Example eviction_run :
  let c := LRU.run filled (LRU.empty 100) in
  LRU.keys (LRU.put [100%N] [] c)
  = [100%N] :: map (fun n => [N.of_nat n]) (rev (seq 1 99))
  /\ LRU.keys (LRU.put [100%N] [] (snd (LRU.get [0%N] c)))
     = [100%N] :: [0%N] :: map (fun n => [N.of_nat n]) (rev (seq 2 98)).
Proof. vm_compute. split; reflexivity. Qed.

(** The full cache and a new key: the key that leaves is older than every
    key that stays. *)
Lemma directory_cache_lru_witness :
  let c := LRU.run filled (LRU.empty 100) in
  exists old,
    In old (LRU.keys c)
    /\ ~ In old (LRU.keys (LRU.put [100%N] [] c))
    /\ (forall k', In k' (LRU.keys c) -> k' <> old -> older filled old k').
Proof.
  intros c.
  destruct (directory_cache_lru Demo.joinpath Demo.path_str Demo.scandir Demo.lower
              [] (0, 0) Demo.commands (lit "tmp") filled)
    as [_ [_ [Hevict _]]].
  destruct (Hevict [100%N] []) as [old [H1 [H2 [_ [H3 _]]]]].
  - vm_compute. reflexivity.
  - vm_compute. reflexivity.
  - exists old. split; [exact H1|]. split; [exact H2|].
    intros k' Hin Hne. apply H3; assumption.
Defined.

End Cache.

(* ================================================================== *)
(** ** The visibility heuristic *)
(* ================================================================== *)

Module Visibility.
Import Py AutoComplete PyFacts.

Lemma str_eqb_length (a b : str) : str_eqb a b = true -> length a = length b.
Proof. intros H. apply str_eqb_eq in H. subst. reflexivity. Qed.

(** The text [_should_show] compares is the prompt, which starts with the
    prefix of the candidate. *)
Lemma prompt_new_item (label glyph : str) :
  glyph <> [] -> plain (prompt (new_item label glyph)) = glyph ++ label.
Proof. intros H. destruct glyph; [congruence | reflexivity]. Qed.

(** With one candidate left, a search text equal to its label does not hide
    the dropdown: the prompt is longer than the label by its prefix. *)
Lemma single_candidate_shown {Path} (label glyph : str) (self : Widget Path) :
  glyph <> [] -> _mode self = Some path ->
  options self = [new_item label glyph] ->
  _should_show label self = true.
Proof.
  intros Hg Hm Ho. unfold _should_show. rewrite Ho, Hm. simpl mode_is.
  rewrite prompt_new_item by assumption.
  destruct (str_eqb (glyph ++ label) label) eqn:E; [|reflexivity].
  apply str_eqb_length in E. rewrite length_app in E.
  destruct glyph; [congruence | simpl in E; lia].
Qed.

(** C9, the code at the failing input.  In the directory of the path test
    the text ["@file1.txt"] leaves one candidate, [file1.txt], which is what
    the search text already says; the dropdown is shown all the same. *)
Theorem exact_single_match_is_shown :
  exists self',
    Demo.handle_text_change (Demo.widget (lit "@file1.txt") (0, 10)) = Ok self'
    /\ map value (options self') = [lit "file1.txt"]
    /\ _get_search_string {| text := lit "@file1.txt"; cursor_position := 10 |} self'
       = lit "file1.txt"
    /\ _should_show (lit "file1.txt") self' = true
    /\ display self' = true.
Proof.
  eexists. split; [vm_compute; reflexivity|].
  repeat split; vm_compute; reflexivity.
Qed.

End Visibility.

(* ================================================================== *)
(** ** Suppression *)
(* ================================================================== *)

Module Suppression.
Import Py AutoComplete PyFacts.

(** A host that delivers nothing while a write is in progress. *)
Definition silent : Host := {| on_text := 0; on_cursor := 0 |}.

(** The label [_complete] takes from the option: the prompt without its
    two-character prefix. *)
Definition committed_value (option : DropdownItem) : str :=
  if startswith_any (plain (prompt option)) [BOLT; FOLDER; PAGE]
  then skipn 2 (plain (prompt option))
  else plain (prompt option).

Section Suppression.
Context {Path : Type}.
Variable joinpath : Path -> str -> Path.
Variable path_str : Path -> str.
Variable scandir : Path -> result (list DirEntry).
Variable fuzzy_match : str -> str -> Q * list nat.
Variable isspace : char -> bool.
Variable lower : str -> str.
Variable clamp_visitable : str -> nat * nat -> nat * nat.

Local Abbreviation handle_text_change :=
  (_handle_text_change joinpath path_str scandir fuzzy_match isspace lower).
Local Abbreviation rebuild_options :=
  (_rebuild_options joinpath path_str scandir fuzzy_match isspace lower).
Local Abbreviation notify := (notify joinpath path_str scandir fuzzy_match isspace lower).
Local Abbreviation apply_completion :=
  (_apply_completion joinpath path_str scandir fuzzy_match isspace lower clamp_visitable).
Local Abbreviation complete :=
  (_complete joinpath path_str scandir fuzzy_match isspace lower clamp_visitable).

(** The part of the widget that detection does not touch: the target, the
    flag and the callbacks waiting for the refresh. *)
Definition untouched (w w' : Widget Path) : Prop :=
  target_text w' = target_text w
  /\ target_cursor_location w' = target_cursor_location w
  /\ _completing w' = _completing w
  /\ after_refresh w' = after_refresh w.

Lemma untouched_refl (w : Widget Path) : untouched w w.
Proof. repeat split. Qed.

Lemma untouched_trans (a b c : Widget Path) :
  untouched a b -> untouched b c -> untouched a c.
Proof. unfold untouched. intuition congruence. Qed.

Lemma rebuild_options_untouched (state : TargetState) (w w' : Widget Path) :
  rebuild_options state w = Ok w' -> untouched w w'.
Proof.
  unfold _rebuild_options.
  destruct (_get_candidates _ _ _ _ _ _) as [[candidates cache]|e]; simpl;
    [|discriminate].
  destruct (_get_matches _ _ _ _ _); intros H; inversion H; subst;
    repeat split.
Qed.

(** Detection never writes the buffer, whether it is suppressed or not. *)
Lemma handle_text_change_untouched (w w' : Widget Path) :
  handle_text_change w = Ok w' -> untouched w w'.
Proof.
  unfold _handle_text_change.
  destruct (_completing w); [intros H; inversion H; subst; apply untouched_refl|].
  destruct (_get_target_state w) as [state|e]; simpl; [|discriminate].
  destruct (detect state) as [mode trigger_pos].
  destruct mode as [m|]; simpl.
  - destruct (rebuild_options state (set_session (Some m) trigger_pos w))
      as [w1|e] eqn:E; simpl; [|discriminate].
    apply rebuild_options_untouched in E.
    assert (E' : untouched w w1) by (destruct E as [? [? [? ?]]]; repeat split; assumption).
    destruct (0 <? option_count w1); [destruct (_should_show _ _)|];
      intros H; inversion H; subst;
      destruct E' as [? [? [? ?]]]; repeat split; assumption.
  - intros H. inversion H; subst. repeat split.
Qed.

Lemma apply_completion_suppressed (host : Host) (value : str) (state : TargetState)
  (self : Widget Path) :
  _completing self = true ->
  exists t loc,
    apply_completion host value state self = Ok (set_target t loc self)
    /\ apply_completion silent value state self = Ok (set_target t loc self).
Proof.
  intros Hc. destruct (_mode self) as [[|]|] eqn:Hm.
  - do 2 eexists. split; apply Splice.apply_completion_slash; assumption.
  - do 2 eexists. split; apply Splice.apply_completion_path; assumption.
  - exists (target_text self), (target_cursor_location self).
    unfold _apply_completion. rewrite Hm. destruct self; split; reflexivity.
Qed.

Lemma complete_steps (host : Host) (option_index : nat) (self : Widget Path)
  (option : DropdownItem) (state : TargetState) :
  display self = true ->
  nth_error (options self) option_index = Some option ->
  _get_target_state self = Ok state ->
  complete host option_index self
  = bind (apply_completion host (committed_value option) state (set_completing true self))
      (fun s =>
         if mode_is (_mode self) path && endswith (committed_value option) [SLASH]
         then handle_text_change (set_completing false s)
         else Ok (call_after_refresh hide_and_reset s)).
Proof.
  intros Hd Ho Hs. unfold _complete. rewrite Hd, Ho.
  assert (Hn : (option_count self =? 0) = false).
  { apply Nat.eqb_neq. unfold option_count. intros H.
    apply length_zero_iff_nil in H. rewrite H in Ho. destruct option_index; discriminate. }
  rewrite Hn. simpl orb. cbv iota. rewrite Hs. reflexivity.
Qed.

Lemma run_callbacks (cbs : list Callback) (w : Widget Path) :
  let w' := fold_left (fun w cb => run_callback cb w) cbs w in
  target_text w' = target_text w
  /\ target_cursor_location w' = target_cursor_location w
  /\ (cbs <> [] -> _completing w' = false /\ display w' = false).
Proof.
  revert w. induction cbs as [|cb cbs IH]; intros w; simpl.
  - repeat split; congruence.
  - destruct (IH (run_callback cb w)) as [H1 [H2 H3]].
    destruct cb. split; [rewrite H1; reflexivity|].
    split; [rewrite H2; reflexivity|]. intros _.
    destruct cbs as [|cb' cbs]; [split; reflexivity|].
    apply H3. discriminate.
Qed.

(** C2.  A commit sets the flag, writes, and clears the flag.  Whatever
    number of change notifications the writes raise, they find the flag set
    and leave the widget as it is: the commit ends as it does with no
    notification at all, with one splice in the buffer.  When the candidate
    is not a container the flag stays set until the refresh, so that
    notifications delivered before it are ignored too, and the refresh clears
    the flag and hides the dropdown.  When it is a container the flag is
    cleared once the splice is complete and detection is run again; that
    run, like every run of detection, leaves the buffer alone. *)
Theorem commit_suppresses_notifications (host : Host) (option_index : nat)
  (self : Widget Path) (option : DropdownItem) (state : TargetState) :
  display self = true ->
  nth_error (options self) option_index = Some option ->
  _get_target_state self = Ok state ->
  let value := committed_value option in
  let keep_open := mode_is (_mode self) path && endswith value [SLASH] in
  exists spliced,
    apply_completion host value state (set_completing true self) = Ok spliced
    /\ apply_completion silent value state (set_completing true self) = Ok spliced
    /\ spliced = set_target (target_text spliced) (target_cursor_location spliced)
                   (set_completing true self)
    /\ (forall n, notify n spliced = Ok spliced)
    /\ complete host option_index self = complete silent option_index self
    /\ (forall w w', handle_text_change w = Ok w' -> untouched w w')
    /\ (keep_open = false ->
        let waiting := call_after_refresh hide_and_reset spliced in
        complete host option_index self = Ok waiting
        /\ (forall n, notify n waiting = Ok waiting)
        /\ _completing (refresh waiting) = false
        /\ display (refresh waiting) = false
        /\ target_text (refresh waiting) = target_text spliced)
    /\ (keep_open = true ->
        complete host option_index self = handle_text_change (set_completing false spliced)
        /\ forall self', complete host option_index self = Ok self' ->
             _completing self' = false
             /\ target_text self' = target_text spliced
             /\ target_cursor_location self' = target_cursor_location spliced).
Proof.
  intros Hd Ho Hs value keep_open.
  destruct (apply_completion_suppressed host value state (set_completing true self))
    as [t [loc [Ha Hq]]]; [destruct self; reflexivity|].
  set (spliced := set_target t loc (set_completing true self)) in *.
  assert (Hflag : _completing spliced = true) by (destruct self; reflexivity).
  assert (Hc : forall h, complete h option_index self
                 = bind (apply_completion h value state (set_completing true self))
                     (fun s => if keep_open
                               then handle_text_change (set_completing false s)
                               else Ok (call_after_refresh hide_and_reset s)))
    by (intros h; apply complete_steps; assumption).
  assert (Ha' : forall h, apply_completion h value state (set_completing true self)
                          = Ok spliced).
  { intros h.
    destruct (apply_completion_suppressed h value state (set_completing true self))
      as [t' [loc' [_ Hq']]]; [destruct self; reflexivity|].
    destruct (apply_completion_suppressed h value state (set_completing true self))
      as [t'' [loc'' [Hh Hq'']]]; [destruct self; reflexivity|].
    rewrite Hh. rewrite Hq in Hq''. exact (eq_sym Hq''). }
  exists spliced. split; [exact Ha|]. split; [exact Hq|].
  split; [destruct self; reflexivity|].
  split; [intros n; apply Splice.notify_suppressed; exact Hflag|].
  split; [rewrite !Hc, !Ha'; reflexivity|].
  split; [exact handle_text_change_untouched|].
  split.
  - intros Hk waiting. rewrite Hc, Ha, Hk. simpl bind.
    split; [reflexivity|].
    split; [intros n; apply Splice.notify_suppressed; destruct self; reflexivity|].
    unfold refresh.
    destruct (run_callbacks (after_refresh waiting) (set_after_refresh [] waiting))
      as [H1 [_ H3]].
    assert (Hne : after_refresh waiting <> []).
    { unfold waiting, call_after_refresh. simpl. intros H.
      apply app_eq_nil in H. destruct H as [_ H]. discriminate. }
    destruct (H3 Hne) as [H4 H5].
    split; [exact H4|]. split; [exact H5|]. rewrite H1. reflexivity.
  - intros Hk. rewrite Hc, Ha, Hk. simpl bind. split; [reflexivity|].
    intros self' H. apply handle_text_change_untouched in H.
    destruct H as [H1 [H2 [H3 _]]].
    split; [rewrite H3; destruct self; reflexivity|].
    split; [rewrite H1 | rewrite H2]; destruct self; reflexivity.
Qed.

End Suppression.

(** The tab-completion test of the project: ["/worktree st"] leaves one
    command, and committing it while the host delivers three notifications
    leaves ["/worktree start"] in the buffer and the dropdown hidden after the
    refresh. *)
Definition one_command : Widget Demo.Path :=
  Demo.unwrap (Demo.handle_text_change (Demo.widget (lit "/worktree st") (0, 0)))
    (Demo.widget [] (0, 0)).

Lemma commit_suppresses_notifications_witness :
  exists waiting,
    Demo.complete Demo.busy 0 one_command = Ok waiting
    /\ target_text waiting = lit "/worktree start"
    /\ target_text (refresh waiting) = lit "/worktree start"
    /\ display (refresh waiting) = false
    /\ _completing (refresh waiting) = false.
Proof.
  destruct (commit_suppresses_notifications Demo.joinpath Demo.path_str Demo.scandir
              Demo.fuzzy_match Demo.isspace Demo.lower Demo.clamp_visitable
              Demo.busy 0 one_command
              (hd (new_item [] []) (options one_command))
              {| text := lit "/worktree st"; cursor_position := 0 |}
              eq_refl eq_refl eq_refl)
    as [spliced [H1 [_ [_ [_ [_ [_ [H2 _]]]]]]]].
  destruct (H2 eq_refl) as [H3 [_ [H4 [H5 H6]]]].
  vm_compute in H1. injection H1 as <-.
  eexists. split; [exact H3|].
  split; [reflexivity|]. split; [exact H6|]. split; [exact H5 | exact H4].
Defined.

(** The same commit of a container: ["see @su"] completed to the directory
    keeps the session open, with detection run once more after the splice. *)
Example container_commit_run :
  match Demo.complete Demo.busy 0
          (Demo.unwrap (Demo.handle_text_change (Demo.widget (lit "see @su") (0, 7)))
             (Demo.widget [] (0, 0))) with
  | Ok w => (target_text w, target_cursor_location w, _completing w, _mode w, _trigger_pos w)
            = (lit "see @subdir/", (0, 12), false, Some path, 4)
  | Raise _ => False
  end.
Proof. vm_compute. reflexivity. Qed.

End Suppression.

(* ================================================================== *)
(** ** Locations and offsets *)
(* ================================================================== *)

Module Location.
Import Py AutoComplete PyFacts.

Lemma split_lines_newline (c : N) (s : str) :
  N.eqb c NEWLINE = true -> split_lines (c :: s) = [] :: split_lines s.
Proof. intros H. simpl. rewrite H. reflexivity. Qed.

Lemma split_lines_other (c : N) (s l : str) (ls : list (list N)) :
  N.eqb c NEWLINE = false -> split_lines s = l :: ls ->
  split_lines (c :: s) = (c :: l) :: ls.
Proof. intros H E. simpl. rewrite H, E. reflexivity. Qed.

(** The offset of the location [(row, col)] in a text with these lines. *)
Definition offset_of (lines : list (list N)) (row col : nat) : nat :=
  list_sum (map line_cost (firstn row lines)) + col.

Lemma offset_of_first (lines : list (list N)) (col : nat) : offset_of lines 0 col = col.
Proof. reflexivity. Qed.

Lemma offset_of_next (l : list N) (ls : list (list N)) (row col : nat) :
  offset_of (l :: ls) (S row) col = S (length l + offset_of ls row col).
Proof. unfold offset_of, line_cost. simpl. lia. Qed.

(** The offset of a location that lies in the text, and the lines of the text
    up to that offset. *)
Lemma location_offset (s : str) :
  forall (row col : nat) (line : str),
    nth_error (split_lines s) row = Some line -> col <= length line ->
    offset_of (split_lines s) row col <= length s
    /\ split_lines (firstn (offset_of (split_lines s) row col) s)
       = firstn row (split_lines s) ++ [firstn col line].
Proof.
  induction s as [|c s IH]; intros row col line Hrow Hcol.
  - destruct row as [|row]; simpl in Hrow; [|destruct row; discriminate].
    inversion Hrow; subst. simpl in Hcol. assert (col = 0) by lia. subst.
    rewrite offset_of_first. split; [simpl; lia | reflexivity].
  - destruct (split_lines s) as [|l ls] eqn:E;
      [exfalso; eapply split_lines_nonempty; eassumption|].
    destruct (N.eqb c NEWLINE) eqn:Ec.
    + rewrite (split_lines_newline c s Ec), E in *.
      destruct row as [|row].
      * simpl in Hrow. inversion Hrow; subst. simpl in Hcol.
        assert (col = 0) by lia. subst. rewrite offset_of_first.
        split; [simpl; lia | reflexivity].
      * simpl in Hrow. destruct (IH row col line Hrow Hcol) as [H1 H2].
        rewrite offset_of_next. cbn [length Nat.add firstn].
        split; [lia|].
        rewrite (split_lines_newline c _ Ec), H2. reflexivity.
    + rewrite (split_lines_other c s l ls Ec E) in *.
      destruct row as [|row].
      * simpl in Hrow. inversion Hrow; subst. rewrite offset_of_first.
        destruct col as [|k]; [split; [simpl; lia | reflexivity]|].
        cbn [length] in Hcol.
        destruct (IH 0 k l eq_refl) as [H1 H2]; [lia|].
        rewrite offset_of_first in H1, H2. cbn [firstn app] in H2.
        cbn [firstn length app]. split; [lia|].
        apply (split_lines_other c _ _ _ Ec H2).
      * simpl in Hrow.
        destruct (IH (S row) col line Hrow Hcol) as [H1 H2].
        rewrite offset_of_next in *. cbn [length Nat.add firstn app] in *.
        split; [lia|].
        apply (split_lines_other c _ _ _ Ec H2).
Qed.

Lemma last_snoc {A} (l : list A) (x d : A) : last (l ++ [x]) d = x.
Proof. apply last_last. Qed.

Section Location.
Context {Path : Type}.

(** X1.  Offset to location and back: the row and column that
    [_apply_completion] computes for an offset inside the text are read back
    by [_get_cursor_position] as that offset. *)
Theorem offset_location_offset (t : str) (n : nat) (self : Widget Path) :
  n <= length t ->
  let lines := split_lines (firstn n t) in
  _get_cursor_position (set_target t (length lines - 1, length (last lines [])) self)
  = Ok n.
Proof.
  intros Hn lines.
  destruct (row_col_round_trip t n Hn) as [Hrow Hsum]. fold lines in Hrow, Hsum.
  rewrite Splice.cursor_position_set_target by exact Hrow.
  rewrite Hsum. reflexivity.
Qed.

(** X2.  Location to offset and back: for a cursor that stands on a line of
    the text, not beyond its end, [_get_cursor_position] returns an offset
    inside the text, and the row and column computed from the text up to
    that offset are the cursor's. *)
Theorem location_offset_location (self : Widget Path) (row col : nat) (line : str) :
  target_cursor_location self = (row, col) ->
  nth_error (split_lines (target_text self)) row = Some line ->
  col <= length line ->
  exists p,
    _get_cursor_position self = Ok p
    /\ p <= length (target_text self)
    /\ (let lines := split_lines (firstn p (target_text self)) in
        (length lines - 1, length (last lines [])) = (row, col)).
Proof.
  intros Hloc Hrow Hcol.
  destruct (location_offset (target_text self) row col line Hrow Hcol) as [H1 H2].
  unfold offset_of in H1, H2.
  eexists. split; [|split; [exact H1|]].
  - unfold _get_cursor_position. rewrite Hloc.
    assert (Hr : (row <=? length (split_lines (target_text self))) = true).
    { apply Nat.leb_le. apply Nat.lt_le_incl. apply nth_error_Some. congruence. }
    rewrite Hr. reflexivity.
  - cbv zeta. rewrite H2. rewrite last_snoc, length_app, length_firstn.
    assert (Hr : row < length (split_lines (target_text self)))
      by (apply nth_error_Some; congruence).
    rewrite length_firstn. simpl. f_equal; lia.
Qed.

(** A cursor below the last line: the sum over the rows above it fails. *)
Lemma cursor_position_IndexError (self : Widget Path) :
  length (split_lines (target_text self)) < fst (target_cursor_location self) ->
  _get_cursor_position self = Raise IndexError.
Proof.
  intros H. unfold _get_cursor_position.
  destruct (target_cursor_location self) as [row col]. simpl in H.
  destruct (Nat.leb_spec row (length (split_lines (target_text self)))); [lia|].
  reflexivity.
Qed.

End Location.

Lemma offset_location_offset_witness :
  _get_cursor_position
    (set_target (lit "ab
cd") (1, 1) (Demo.widget [] (0, 0))) = Ok 4.
Proof.
  apply (offset_location_offset (Path := Demo.Path) (lit "ab
cd") 4 (Demo.widget [] (0, 0))).
  vm_compute. lia.
Defined.

Lemma location_offset_location_witness :
  exists p,
    _get_cursor_position (Demo.widget (lit "ab
cd") (1, 1)) = Ok p
    /\ p <= 5.
Proof.
  destruct (location_offset_location (Demo.widget (lit "ab
cd") (1, 1))
              1 1 (lit "cd") eq_refl eq_refl) as [p [H1 [H2 _]]].
  - vm_compute. lia.
  - exists p. split; [exact H1 | exact H2].
Defined.

End Location.

(* ================================================================== *)
(** ** The search string and the listed directory *)
(* ================================================================== *)

Module Search.
Import Py AutoComplete PyFacts.

Lemma In_skipn_nth {A} (x : A) (n : nat) (l : list A) :
  In x (skipn n l) -> exists j, n <= j /\ nth_error l j = Some x.
Proof.
  revert l. induction n as [|n IH]; intros l H.
  - apply In_nth_error in H. destruct H as [j Hj]. exists j. split; [lia | exact Hj].
  - destruct l as [|a l]; [contradiction|].
    apply IH in H. destruct H as [j [Hj1 Hj2]].
    exists (S j). split; [lia | exact Hj2].
Qed.

(** The part of a string after its last [c] holds no [c]. *)
Lemma after_rfind (c : N) (s : str) (i : nat) :
  rfind c s = Some i -> ~ In c (skipn (i + 1) s).
Proof.
  intros H Hin. apply rfind_Some in H. destruct H as [_ H].
  apply In_skipn_nth in Hin. destruct Hin as [j [Hj1 Hj2]].
  apply (H j); [lia | exact Hj2].
Qed.

(** A string with a [c] in it is what stands before the last [c], the [c],
    and what stands after it. *)
Lemma split_at_rfind (c : N) (s : str) (i : nat) :
  rfind c s = Some i -> s = firstn i s ++ c :: skipn (i + 1) s.
Proof.
  intros H. apply rfind_Some in H. destruct H as [H _].
  rewrite Nat.add_1_r. symmetry. apply firstn_skipn_middle. exact H.
Qed.

Section Search.
Context {Path : Type}.
Variable joinpath : Path -> str -> Path.

Local Abbreviation directory_of := (target_directory joinpath).

(** X3.  In path mode the search string is the last segment of the path
    being typed: it holds no [/], and the text after the trigger is either
    the search string alone, or some text, a [/] and the search string. *)
Theorem search_string_is_last_segment (state : TargetState) (self : Widget Path) :
  _mode self = Some path ->
  let path_text := skipn (_trigger_pos self + 1) (text_to_check state) in
  ~ In SLASH (_get_search_string state self)
  /\ ((~ In SLASH path_text /\ _get_search_string state self = path_text)
      \/ (exists dir_part,
            path_text = dir_part ++ SLASH :: _get_search_string state self)).
Proof.
  intros Hm path_text. unfold _get_search_string. rewrite Hm. fold path_text.
  destruct (char_in SLASH path_text) eqn:E.
  - destruct (rfind SLASH path_text) as [i|] eqn:Ei.
    + split; [apply after_rfind; exact Ei|].
      right. exists (firstn i path_text). apply split_at_rfind. exact Ei.
    + apply rfind_None in Ei. apply char_in_In in E. contradiction.
  - apply char_in_false in E. split; [exact E|]. left. split; [exact E | reflexivity].
Qed.

(** X4.  With the cursor past offset 0, the text between the trigger and the
    cursor is either the search string alone, and the base directory is
    listed, or a directory part, a [/] and the search string, and the listed
    directory is the base joined with that part, or with ["/"] when the part
    is empty.  With the cursor at offset 0 the base directory is listed
    whatever the text says. *)
Theorem listed_directory_and_search (state : TargetState) (self : Widget Path) :
  _mode self = Some path ->
  ((0 < cursor_position state)%Z ->
   let path_text := skipn (_trigger_pos self + 1) (text_to_check state) in
   (~ In SLASH path_text
    /\ _get_search_string state self = path_text
    /\ directory_of state self = base_path self)
   \/ (exists dir_part,
         path_text = dir_part ++ SLASH :: _get_search_string state self
         /\ directory_of state self
            = joinpath (base_path self)
                (match dir_part with [] => [SLASH] | d => d end)))
  /\ (cursor_position state = 0%Z -> directory_of state self = base_path self).
Proof.
  intros Hm. split.
  - intros Hpos path_text.
    assert (Ht : prefix_to (text state) (cursor_position state) = text_to_check state).
    { unfold text_to_check. apply Z.ltb_lt in Hpos. rewrite Hpos. reflexivity. }
    unfold _get_search_string, target_directory. rewrite Hm, Ht. fold path_text.
    destruct (char_in SLASH path_text) eqn:E.
    + destruct (rfind SLASH path_text) as [i|] eqn:Ei.
      * right. exists (firstn i path_text).
        split; [apply split_at_rfind; exact Ei|].
        destruct (firstn i path_text); reflexivity.
      * apply rfind_None in Ei. apply char_in_In in E. contradiction.
    + left. apply char_in_false in E. repeat split; [exact E].
  - intros H0. unfold target_directory, prefix_to. rewrite H0. simpl.
    rewrite skipn_nil. reflexivity.
Qed.

End Search.

Lemma search_string_is_last_segment_witness :
  exists dir_part,
    lit "src/widgets/au"
    = dir_part ++ SLASH ::
        _get_search_string {| text := lit "@src/widgets/au"; cursor_position := 15 |}
          (set_session (Some path) 0 (Demo.widget (lit "@src/widgets/au") (0, 15))).
Proof.
  destruct (search_string_is_last_segment (Path := Demo.Path)
              {| text := lit "@src/widgets/au"; cursor_position := 15 |}
              (set_session (Some path) 0 (Demo.widget (lit "@src/widgets/au") (0, 15)))
              eq_refl) as [_ [[H _]|H]].
  - exfalso. apply H. vm_compute. tauto.
  - exact H.
Defined.

Lemma listed_directory_and_search_witness :
  target_directory Demo.joinpath {| text := lit "@subdir/x"; cursor_position := 0 |}
    (set_session (Some path) 0 (Demo.widget (lit "@subdir/x") (0, 0)))
  = lit "tmp".
Proof.
  apply (listed_directory_and_search Demo.joinpath
           {| text := lit "@subdir/x"; cursor_position := 0 |}
           (set_session (Some path) 0 (Demo.widget (lit "@subdir/x") (0, 0)))
           eq_refl).
  reflexivity.
Defined.

End Search.

(* ================================================================== *)
(** ** Highlights and labels *)
(* ================================================================== *)

Module Labels.
Import Py AutoComplete PyFacts.

Section Labels.
Variable isspace : char -> bool.

(** An offset is highlighted when it lies in the text on a character that is
    not white space. *)
Definition highlightable (text : str) (offset : nat) : bool :=
  match nth_error text offset with
  | Some c => negb (isspace c)
  | None => false
  end.

(** X5.  Highlighting leaves the text of a candidate as it is and adds, in
    the order of the offsets, one span of one character for each offset that
    lies in the text on a character that is not white space. *)
Theorem highlight_spans (candidate : Content) (offsets : list nat) :
  plain (_apply_highlights isspace candidate offsets) = plain candidate
  /\ spans (_apply_highlights isspace candidate offsets)
     = spans candidate
       ++ map (fun o => (o, o + 1)) (filter (highlightable (plain candidate)) offsets).
Proof.
  unfold _apply_highlights. revert candidate.
  induction offsets as [|o offsets IH]; intros candidate.
  - simpl. rewrite app_nil_r. split; reflexivity.
  - cbn [fold_left filter]. unfold highlightable at 1.
    destruct (nth_error (plain candidate) o) as [c|] eqn:E.
    + destruct (negb (isspace c)) eqn:Es.
      * destruct (IH (stylize candidate o (o + 1))) as [H1 H2].
        split; [exact H1|]. rewrite H2. simpl. rewrite <- app_assoc. reflexivity.
      * apply IH.
    + apply IH.
Qed.

End Labels.

(** X6.  The label a commit writes is the label of the chosen option: for an
    option that carries one of the three prefixes of the widget, as every
    option it builds does, stripping two characters from the prompt gives
    the option's value. *)
Theorem committed_value_is_label (option : DropdownItem) (glyph : Content) :
  prefix option = Some glyph ->
  In (plain glyph) [BOLT; FOLDER; PAGE] ->
  Suppression.committed_value option = value option.
Proof.
  intros Hp Hg. unfold Suppression.committed_value, prompt, value. rewrite Hp.
  destruct glyph as [g gs]. destruct option as [[m ms] pf i dis]. simpl in *.
  destruct Hg as [Hg|[Hg|[Hg|[]]]]; subst g; destruct m; reflexivity.
Qed.

Lemma committed_value_is_label_witness :
  Suppression.committed_value (new_item (lit "subdir/") FOLDER) = lit "subdir/".
Proof.
  apply (committed_value_is_label (new_item (lit "subdir/") FOLDER)
           (Content_of_str FOLDER) eq_refl).
  right. left. reflexivity.
Defined.

End Labels.

(* ================================================================== *)
(** ** The display list *)
(* ================================================================== *)

Module Matches.
Import Py AutoComplete PyFacts SortFacts.

Lemma lstrip_nil (c : N) (s : str) : lstrip c s = [] <-> Forall (eq c) s.
Proof.
  induction s as [|d s IH]; simpl.
  - split; [constructor | reflexivity].
  - destruct (N.eqb_spec d c) as [->|Hne].
    + rewrite IH. split.
      * intros H. constructor; [reflexivity | exact H].
      * intros H. inversion H; assumption.
    + split; [discriminate|]. intros H. inversion H; subst. congruence.
Qed.

Section Matches.
Context {Path : Type}.
Variable fuzzy_match : str -> str -> Q * list nat.
Variable isspace : char -> bool.

Local Abbreviation get_matches := (@_get_matches Path fuzzy_match isspace).

Lemma get_matches_empty_query (candidates : list DropdownItem) (search_string : str)
  (self : Widget Path) :
  query_of (_mode self) search_string = [] ->
  get_matches candidates search_string self = candidates.
Proof.
  intros H. unfold _get_matches. destruct search_string; [reflexivity|].
  rewrite H. reflexivity.
Qed.

(** X7.  Nothing is filtered when there is nothing to match: with an empty
    search string, or in slash mode with a search string made of slashes
    only, the candidates are returned as they are; and these are the only
    search strings whose query is empty. *)
Theorem empty_query_keeps_candidates (candidates : list DropdownItem)
  (search_string : str) (self : Widget Path) :
  (query_of (_mode self) search_string = []
   <-> search_string = []
       \/ (_mode self = Some slash /\ Forall (eq SLASH) search_string))
  /\ (query_of (_mode self) search_string = [] ->
      get_matches candidates search_string self = candidates).
Proof.
  split; [|apply get_matches_empty_query].
  unfold query_of. destruct (_mode self) as [[|]|]; simpl.
  - rewrite lstrip_nil. split.
    + intros H. right. split; [reflexivity | exact H].
    + intros [->|[_ H]]; [constructor | exact H].
  - split; [intros H; left; exact H|]. intros [H|[H _]]; [exact H | discriminate].
  - split; [intros H; left; exact H|]. intros [H|[H _]]; [exact H | discriminate].
Qed.

(** X8.  The display list never grows and never invents an option: it is no
    longer than the candidate sequence, and each of its items has the label,
    the prefix, the id and the disabled flag of one of the candidates. *)
Theorem matches_come_from_candidates (candidates : list DropdownItem)
  (search_string : str) (self : Widget Path) :
  length (get_matches candidates search_string self) <= length candidates
  /\ forall d, In d (get_matches candidates search_string self) ->
       exists c, In c candidates
                 /\ value d = value c /\ prefix d = prefix c
                 /\ id d = id c /\ disabled d = disabled c.
Proof.
  destruct (query_of (_mode self) search_string) as [|q0 q] eqn:E.
  - rewrite get_matches_empty_query by exact E.
    split; [lia|]. intros d Hd. exists d. repeat split. exact Hd.
  - assert (Hq : query_of (_mode self) search_string <> []) by congruence.
    rewrite (Ranking.get_matches_ranked fuzzy_match isspace candidates search_string self Hq).
    split.
    + rewrite length_map.
      rewrite (Permutation_length (sort_reverse_perm _ _ _)).
      apply filter_length_le.
    + intros d Hd. apply in_map_iff in Hd. destruct Hd as [c [Hc Hin]].
      eapply Permutation_in in Hin; [|apply sort_reverse_perm].
      apply filter_In in Hin. destruct Hin as [Hin _].
      exists c. subst d. split; [exact Hin|].
      split; [apply Ranking.highlighted_value|]. repeat split.
Qed.

End Matches.

Lemma empty_query_keeps_candidates_witness :
  _get_matches Demo.fuzzy_match Demo.isspace
    (map (fun cmd => new_item cmd BOLT) Demo.commands) (lit "//")
    (set_session (Some slash) 0 (Demo.widget (lit "//") (0, 2)))
  = map (fun cmd => new_item cmd BOLT) Demo.commands.
Proof.
  apply (empty_query_keeps_candidates (Path := Demo.Path) Demo.fuzzy_match Demo.isspace
           (map (fun cmd => new_item cmd BOLT) Demo.commands) (lit "//")
           (set_session (Some slash) 0 (Demo.widget (lit "//") (0, 2)))).
  reflexivity.
Defined.

End Matches.

(* ================================================================== *)
(** ** Keys *)
(* ================================================================== *)

Module Keys.
Import Py AutoComplete PyFacts.

Lemma wrap_next (h n : nat) :
  h < n -> Z.to_nat ((Z.of_nat h + 1) mod Z.of_nat n) = if S h =? n then 0 else S h.
Proof.
  intros H. destruct (Nat.eqb_spec (S h) n) as [E|E].
  - replace (Z.of_nat h + 1)%Z with (Z.of_nat n) by lia.
    rewrite Z.mod_same by lia. reflexivity.
  - rewrite Z.mod_small by lia. lia.
Qed.

Lemma wrap_previous (h n : nat) :
  h < n -> Z.to_nat ((Z.of_nat h - 1) mod Z.of_nat n) = if h =? 0 then n - 1 else h - 1.
Proof.
  intros H. destruct (Nat.eqb_spec h 0) as [E|E].
  - subst h. replace (Z.of_nat 0 - 1)%Z with (Z.of_nat n - 1 + (-1) * Z.of_nat n)%Z by lia.
    rewrite Z.mod_add by lia. rewrite Z.mod_small by lia. lia.
  - rewrite Z.mod_small by lia. lia.
Qed.

Section Keys.
Context {Path : Type}.
Variable joinpath : Path -> str -> Path.
Variable path_str : Path -> str.
Variable scandir : Path -> result (list DirEntry).
Variable fuzzy_match : str -> str -> Q * list nat.
Variable isspace : char -> bool.
Variable lower : str -> str.
Variable clamp_visitable : str -> nat * nat -> nat * nat.

Local Abbreviation handle_key_ :=
  (handle_key joinpath path_str scandir fuzzy_match isspace lower clamp_visitable).

(** X9.  A key is consumed exactly when the dropdown is displayed with at
    least one option and the key is one of down, up, tab, enter and escape;
    every other press is left to the target. *)
Theorem key_consumed_iff (host : Host) (key : Key) (self w' : Widget Path) (b : bool) :
  handle_key_ host key self = Ok (b, w') ->
  (b = true <-> option_count self <> 0 /\ display self = true /\ key <> other_key).
Proof.
  unfold handle_key.
  destruct (Nat.eqb_spec (option_count self) 0) as [E|E]; simpl.
  - intros H. inversion H; subst. split; [discriminate | tauto].
  - destruct (display self); simpl.
    + destruct key; simpl;
        try (intros H; inversion H; subst; split; [intros _|reflexivity];
             repeat split; [exact E | discriminate]).
      * destruct (_complete _ _ _ _ _ _ _ _ _); simpl; intros H; inversion H; subst.
        split; [intros _|reflexivity]. repeat split; [exact E | discriminate].
      * destruct (_complete _ _ _ _ _ _ _ _ _); simpl; intros H; inversion H; subst.
        split; [intros _|reflexivity]. repeat split; [exact E | discriminate].
      * intros H; inversion H; subst. split; [discriminate|]. intros [_ [_ H']]. congruence.
    + intros H. inversion H; subst. split; [discriminate|]. intros [_ [H' _]]. discriminate.
Qed.

(** X10.  Moving the highlight wraps around in both directions and can be
    taken back: down from the last option goes to the first, up from the
    first goes to the last, and down followed by up, or up followed by down,
    leaves the widget as it was. *)
Theorem navigation_round_trip (host : Host) (self : Widget Path) (h : nat) :
  display self = true -> highlighted self = Some h -> h < option_count self ->
  (exists w1,
     handle_key_ host down self = Ok (true, w1)
     /\ highlighted w1 = Some (if S h =? option_count self then 0 else S h)
     /\ handle_key_ host up w1 = Ok (true, self))
  /\ (exists w1,
     handle_key_ host up self = Ok (true, w1)
     /\ highlighted w1 = Some (if h =? 0 then option_count self - 1 else h - 1)
     /\ handle_key_ host down w1 = Ok (true, self)).
Proof.
  intros Hd Hh Hlt.
  assert (Hn : (option_count self =? 0) = false) by (apply Nat.eqb_neq; lia).
  split.
  - eexists. split; [|split].
    + unfold handle_key. rewrite Hn, Hd, Hh. simpl. reflexivity.
    + simpl. rewrite wrap_next by exact Hlt. reflexivity.
    + unfold handle_key. unfold option_count in *. simpl.
      rewrite Hn, Hd. simpl. rewrite wrap_next by exact Hlt.
      rewrite wrap_previous
        by (destruct (Nat.eqb_spec (S h) (length (options self))); lia).
      replace (if (if S h =? length (options self) then 0 else S h) =? 0
               then length (options self) - 1
               else (if S h =? length (options self) then 0 else S h) - 1) with h
        by (destruct (Nat.eqb_spec (S h) (length (options self))); simpl; lia).
      destruct self; simpl in *; subst; reflexivity.
  - eexists. split; [|split].
    + unfold handle_key. rewrite Hn, Hd, Hh. simpl. reflexivity.
    + simpl. rewrite wrap_previous by exact Hlt. reflexivity.
    + unfold handle_key. unfold option_count in *. simpl.
      rewrite Hn, Hd. simpl. rewrite wrap_previous by exact Hlt.
      rewrite wrap_next
        by (destruct (Nat.eqb_spec h 0); lia).
      replace (if S (if h =? 0 then length (options self) - 1 else h - 1)
                  =? length (options self)
               then 0
               else S (if h =? 0 then length (options self) - 1 else h - 1)) with h
        by (destruct (Nat.eqb_spec h 0) as [E|E];
            [subst; replace (S (length (options self) - 1)) with (length (options self)) by lia;
             rewrite Nat.eqb_refl; reflexivity
            |destruct (Nat.eqb_spec (S (h - 1)) (length (options self))); lia]).
      destruct self; simpl in *; subst; reflexivity.
Qed.

(** X11.  Only tab and enter can change the buffer: any other key returns
    without an exception and leaves the text, the cursor, the options, the
    mode, the trigger and the flag as they were. *)
Theorem other_keys_leave_buffer (host : Host) (key : Key) (self : Widget Path) :
  key <> tab -> key <> enter ->
  exists b w',
    handle_key_ host key self = Ok (b, w')
    /\ target_text w' = target_text self
    /\ target_cursor_location w' = target_cursor_location self
    /\ options w' = options self
    /\ _mode w' = _mode self
    /\ _trigger_pos w' = _trigger_pos self
    /\ _completing w' = _completing self
    /\ (key = escape -> b = true -> display w' = false).
Proof.
  intros Ht He. unfold handle_key.
  destruct ((option_count self =? 0) || negb (display self)).
  - do 2 eexists. split; [reflexivity|]. repeat split. discriminate.
  - destruct key; try congruence; do 2 eexists; (split; [reflexivity|]);
      repeat split; try discriminate.
Qed.

End Keys.

Lemma key_consumed_iff_witness :
  option_count Suppression.one_command <> 0
  /\ display Suppression.one_command = true /\ escape <> other_key.
Proof.
  apply (key_consumed_iff Demo.joinpath Demo.path_str Demo.scandir Demo.fuzzy_match
           Demo.isspace Demo.lower Demo.clamp_visitable Demo.quiet escape Suppression.one_command
           (action_hide Suppression.one_command) true).
  - reflexivity.
  - reflexivity.
Defined.

(** The three candidates of the path test, the highlight on the last. *)
Definition three_options : Widget Demo.Path :=
  set_options
    (options (Demo.unwrap (Demo.handle_text_change (Demo.widget (lit "@") (0, 1)))
                (Demo.widget [] (0, 0))))
    (Some 2)
    (Demo.unwrap (Demo.handle_text_change (Demo.widget (lit "@") (0, 1)))
       (Demo.widget [] (0, 0))).

Lemma navigation_round_trip_witness :
  exists w1,
    handle_key Demo.joinpath Demo.path_str Demo.scandir Demo.fuzzy_match
      Demo.isspace Demo.lower Demo.clamp_visitable Demo.quiet down three_options = Ok (true, w1)
    /\ highlighted w1 = Some 0.
Proof.
  destruct (navigation_round_trip Demo.joinpath Demo.path_str Demo.scandir
              Demo.fuzzy_match Demo.isspace Demo.lower Demo.clamp_visitable Demo.quiet three_options 2
              eq_refl eq_refl) as [[w1 [H1 [H2 _]]] _].
  - vm_compute. lia.
  - exists w1. split; [exact H1 | exact H2].
Defined.

Lemma other_keys_leave_buffer_witness :
  exists b w',
    handle_key Demo.joinpath Demo.path_str Demo.scandir Demo.fuzzy_match
      Demo.isspace Demo.lower Demo.clamp_visitable Demo.quiet escape three_options = Ok (b, w')
    /\ target_text w' = lit "@".
Proof.
  destruct (other_keys_leave_buffer Demo.joinpath Demo.path_str Demo.scandir
              Demo.fuzzy_match Demo.isspace Demo.lower Demo.clamp_visitable Demo.quiet escape three_options)
    as [b [w' [H1 [H2 _]]]].
  - discriminate.
  - discriminate.
  - exists b, w'. split; [exact H1 | exact H2].
Defined.

End Keys.

(* ================================================================== *)
(** ** The session after a change *)
(* ================================================================== *)

Module Session.
Import Py AutoComplete PyFacts.

Lemma nth_error_firstn_Some {A} (n i : nat) (l : list A) (x : A) :
  nth_error (firstn n l) i = Some x -> nth_error l i = Some x /\ i < n.
Proof.
  revert i l. induction n as [|n IH]; intros i l H.
  - destruct i; discriminate.
  - destruct l as [|a l]; [destruct i; discriminate|].
    destruct i as [|i]; simpl in *; [split; [exact H | lia]|].
    apply IH in H. destruct H. split; [assumption | lia].
Qed.

Lemma nth_error_firstn_lt {A} (n i : nat) (l : list A) :
  i < n -> nth_error (firstn n l) i = nth_error l i.
Proof.
  revert i l. induction n as [|n IH]; intros i l H; [lia|].
  destruct l as [|a l]; [reflexivity|].
  destruct i as [|i]; simpl; [reflexivity|]. apply IH. lia.
Qed.

(** The text detection scans is the text up to the offset a commit splices
    at. *)
Lemma scanned_effective (text : str) (cursor : Z) :
  Spec.scanned text cursor = firstn (Spec.effective_cursor text cursor) text.
Proof.
  unfold Spec.scanned, Spec.effective_cursor.
  destruct (Z.leb_spec cursor 0), (Z.ltb_spec 0 cursor); try lia.
  - symmetry. apply firstn_all.
  - reflexivity.
Qed.

(** What a detection that answers path mode has found. *)
Lemma detect_path (state : TargetState) (trigger : nat) :
  detect state = (Some path, trigger) ->
  startswith (text state) [SLASH] = false
  /\ rfind AT (Spec.scanned (text state) (cursor_position state)) = Some trigger
  /\ Detection.boundaryb (Spec.scanned (text state) (cursor_position state)) trigger = true.
Proof.
  rewrite Detection.detect_cases.
  destruct (startswith (text state) [SLASH]); [discriminate|].
  destruct (rfind AT _) as [i|]; [|discriminate].
  destruct (Detection.boundaryb _ i) eqn:E; [|discriminate].
  intros H. inversion H; subst. repeat split. exact E.
Qed.

Lemma detect_slash (state : TargetState) (trigger : nat) :
  detect state = (Some slash, trigger) ->
  trigger = 0 /\ nth_error (text state) 0 = Some SLASH.
Proof.
  rewrite Detection.detect_cases.
  destruct (startswith (text state) [SLASH]) eqn:E.
  - intros H. inversion H; subst. split; [reflexivity|].
    apply startswith_char in E. destruct E as [r ->]. reflexivity.
  - destruct (rfind AT _) as [i|]; [|discriminate].
    destruct (Detection.boundaryb _ i); discriminate.
Qed.

Lemma detect_none (state : TargetState) (trigger : nat) :
  detect state = (None, trigger) -> trigger = 0.
Proof.
  rewrite Detection.detect_cases.
  destruct (startswith (text state) [SLASH]); [discriminate|].
  destruct (rfind AT _) as [i|]; [|intros H; inversion H; reflexivity].
  destruct (Detection.boundaryb _ i); intros H; inversion H; reflexivity.
Qed.

Section Session.
Context {Path : Type}.
Variable joinpath : Path -> str -> Path.
Variable path_str : Path -> str.
Variable scandir : Path -> result (list DirEntry).
Variable fuzzy_match : str -> str -> Q * list nat.
Variable isspace : char -> bool.
Variable lower : str -> str.

Local Abbreviation handle_text_change :=
  (_handle_text_change joinpath path_str scandir fuzzy_match isspace lower).
Local Abbreviation rebuild_options :=
  (_rebuild_options joinpath path_str scandir fuzzy_match isspace lower).

(** What [_rebuild_options] leaves: the session as it was, and either no
    option and no highlight or some options with the first highlighted. *)
Lemma rebuild_options_shape (state : TargetState) (w w' : Widget Path) :
  rebuild_options state w = Ok w' ->
  _mode w' = _mode w /\ _trigger_pos w' = _trigger_pos w
  /\ target_text w' = target_text w /\ display w' = display w
  /\ ((options w' = [] /\ highlighted w' = None)
      \/ (options w' <> [] /\ highlighted w' = Some 0)).
Proof.
  unfold _rebuild_options.
  destruct (_get_candidates _ _ _ _ _ _) as [[candidates cache]|e]; simpl;
    [|discriminate].
  destruct (_get_matches _ _ _ _ _) as [|m ms]; intros H; inversion H; subst; simpl.
  - repeat split. left. split; reflexivity.
  - repeat split. right. split; [discriminate | reflexivity].
Qed.

(** The steps of a detection that is not suppressed. *)
Lemma handle_text_change_steps (self w' : Widget Path) :
  _completing self = false ->
  handle_text_change self = Ok w' ->
  exists state,
    _get_target_state self = Ok state
    /\ ((fst (detect state) = None
         /\ w' = action_hide (set_session None (snd (detect state)) self))
        \/ (fst (detect state) <> None
            /\ exists w1,
                 rebuild_options state
                   (set_session (fst (detect state)) (snd (detect state)) self) = Ok w1
                 /\ (w' = action_show w1 /\ options w1 <> [] \/ w' = action_hide w1))).
Proof.
  intros Hc. unfold _handle_text_change. rewrite Hc.
  destruct (_get_target_state self) as [state|e]; simpl; [|discriminate].
  exists state. split; [reflexivity|].
  destruct (detect state) as [mode trigger_pos]. simpl fst. simpl snd.
  destruct mode as [m|]; simpl.
  - right. split; [discriminate|].
    destruct (rebuild_options state (set_session (Some m) trigger_pos self))
      as [w1|e] eqn:E; simpl in H; [|discriminate].
    exists w1. split; [reflexivity|].
    destruct (0 <? option_count w1) eqn:En.
    + destruct (_should_show _ w1); inversion H; subst; [left | right; reflexivity].
      split; [reflexivity|]. apply Nat.ltb_lt in En. unfold option_count in En.
      intros Hnil. rewrite Hnil in En. simpl in En. lia.
    + inversion H; subst. right; reflexivity.
  - left. inversion H; subst. split; reflexivity.
Qed.

(** X12.  After a change that is not suppressed, the dropdown is displayed
    only with a mode, at least one option and the first option highlighted;
    when no trigger is found it is hidden. *)
Theorem shown_dropdown_has_options (self w' : Widget Path) :
  _completing self = false ->
  handle_text_change self = Ok w' ->
  (display w' = true ->
   options w' <> [] /\ highlighted w' = Some 0 /\ _mode w' <> None)
  /\ (_mode w' = None -> display w' = false).
Proof.
  intros Hc H.
  destruct (handle_text_change_steps self w' Hc H) as [state [_ [[Hn Hw]|[Hn [w1 [Hr Hw]]]]]].
  - subst w'. split; [discriminate | reflexivity].
  - apply rebuild_options_shape in Hr.
    destruct Hr as [Hm [_ [_ [_ Hopt]]]]. simpl in Hm.
    destruct Hw as [[Hw Ho]|Hw]; subst w'; simpl.
    + split; [|intros H'; rewrite Hm in H'; contradiction].
      intros _. split; [exact Ho|]. split; [|rewrite Hm; exact Hn].
      destruct Hopt as [[Ho' _]|[_ Hh]]; [contradiction | exact Hh].
    + split; [discriminate | reflexivity].
Qed.

(** X13.  After a change that is not suppressed, the mode and the trigger
    are those detected on the target as it stands, and the trigger offset
    points at the trigger character: in path mode at an [@] of the text, in
    slash mode at the [/] that opens it; with no mode it is 0. *)
Theorem trigger_points_at_trigger (self w' : Widget Path) :
  _completing self = false ->
  handle_text_change self = Ok w' ->
  exists state,
    _get_target_state self = Ok state
    /\ text state = target_text w'
    /\ (_mode w', _trigger_pos w') = detect state
    /\ (_mode w' = Some path ->
        nth_error (target_text w') (_trigger_pos w') = Some AT
        /\ _trigger_pos w' < length (target_text w'))
    /\ (_mode w' = Some slash ->
        _trigger_pos w' = 0 /\ nth_error (target_text w') 0 = Some SLASH)
    /\ (_mode w' = None -> _trigger_pos w' = 0).
Proof.
  intros Hc H.
  destruct (handle_text_change_steps self w' Hc H) as [state [Hs Hcases]].
  assert (Ht : text state = target_text self).
  { unfold _get_target_state in Hs.
    destruct (_get_cursor_position self); simpl in Hs; inversion Hs; reflexivity. }
  assert (Hw : target_text w' = target_text self
               /\ (_mode w', _trigger_pos w') = detect state).
  { destruct Hcases as [[Hn Hw]|[Hn [w1 [Hr Hw]]]].
    - subst w'. simpl. split; [reflexivity|].
      destruct (detect state); simpl in *; subst; reflexivity.
    - apply rebuild_options_shape in Hr. destruct Hr as [Hm [Hp [Htx _]]].
      simpl in Hm, Hp, Htx.
      destruct Hw as [[Hw _]|Hw]; subst w'; simpl; rewrite Hm, Hp, Htx;
        (split; [reflexivity | destruct (detect state); reflexivity]). }
  destruct Hw as [Hw1 Hw2].
  exists state. split; [exact Hs|]. split; [congruence|]. split; [exact Hw2|].
  rewrite Hw1, <- Ht. split; [|split].
  - intros Hm. rewrite Hm in Hw2. symmetry in Hw2.
    apply detect_path in Hw2. destruct Hw2 as [_ [Hr _]].
    apply rfind_Some in Hr. destruct Hr as [Hr _].
    rewrite scanned_effective in Hr. apply nth_error_firstn_Some in Hr.
    destruct Hr as [Hr _]. split; [exact Hr|].
    apply nth_error_Some. congruence.
  - intros Hm. rewrite Hm in Hw2. symmetry in Hw2. apply detect_slash in Hw2. exact Hw2.
  - intros Hm. rewrite Hm in Hw2. symmetry in Hw2. apply detect_none in Hw2. exact Hw2.
Qed.

End Session.

Lemma shown_dropdown_has_options_witness :
  exists w',
    Demo.handle_text_change (Demo.widget (lit "@zz") (0, 3)) = Ok w'
    /\ _mode w' = Some path /\ display w' = false /\ options w' = [].
Proof.
  eexists. split; [vm_compute; reflexivity|].
  split; [reflexivity|]. split; [|reflexivity].
  destruct (display _) eqn:E; [|reflexivity].
  destruct (shown_dropdown_has_options Demo.joinpath Demo.path_str Demo.scandir
              Demo.fuzzy_match Demo.isspace Demo.lower
              (Demo.widget (lit "@zz") (0, 3)) _ eq_refl eq_refl) as [H _].
  destruct (H E) as [H' _]. exfalso. apply H'. reflexivity.
Defined.

Lemma trigger_points_at_trigger_witness :
  exists w',
    Demo.handle_text_change (Demo.widget (lit "see @su") (0, 7)) = Ok w'
    /\ nth_error (target_text w') (_trigger_pos w') = Some AT.
Proof.
  eexists. split; [vm_compute; reflexivity|].
  destruct (trigger_points_at_trigger Demo.joinpath Demo.path_str Demo.scandir
              Demo.fuzzy_match Demo.isspace Demo.lower
              (Demo.widget (lit "see @su") (0, 7)) _ eq_refl eq_refl)
    as [state [_ [_ [_ [H _]]]]].
  apply H. reflexivity.
Defined.

End Session.

(* ================================================================== *)
(** ** Commits from end to end *)
(* ================================================================== *)

Module Commit.
Import Py AutoComplete PyFacts.

Lemma startswith_nil (s : str) : startswith s [] = true.
Proof. destruct s; reflexivity. Qed.

(** Detection after a descent: when the label holds no [@], the text with
    the label spliced in, scanned up to the end of the label, has its
    trigger where it was. *)
Lemma detect_after_descent (t : str) (cursor : Z) (trigger : nat) (label : str) :
  detect {| text := t; cursor_position := cursor |} = (Some path, trigger) ->
  ~ In AT label ->
  let c := Spec.effective_cursor t cursor in
  let rs := Spec.replaceStart t trigger c in
  detect {| text := firstn rs t ++ label ++ skipn c t;
            cursor_position := Z.of_nat (rs + length label) |}
  = (Some path, trigger).
Proof.
  intros Hd Hlabel c rs.
  apply Session.detect_path in Hd. cbn [text cursor_position] in Hd.
  destruct Hd as [Hs [Hr Hb]]. rewrite Session.scanned_effective in Hr, Hb.
  fold c in Hr, Hb.
  pose proof (rfind_Some _ _ _ Hr) as [Hat Hlast].
  pose proof (Session.nth_error_firstn_Some _ _ _ _ Hat) as [Hat' Htc].
  assert (Htl : trigger < length t) by (apply nth_error_Some; congruence).
  assert (Hrs_le : rs <= length t) by (apply Splice.replaceStart_le; exact Htl).
  assert (Hrs_gt : trigger < rs).
  { unfold rs, Spec.replaceStart. destruct (rfind SLASH _); lia. }
  assert (Hrs_c : rs <= c).
  { unfold rs, Spec.replaceStart. destruct (rfind SLASH _) as [i|] eqn:E; [|lia].
    apply rfind_lt in E. unfold Spec.pathText, slice in E.
    rewrite length_firstn, length_skipn in E. lia. }
  assert (Hlen : length (firstn rs t) = rs) by (rewrite length_firstn; lia).
  assert (Hnth : forall j, j < rs ->
            nth_error (firstn rs t ++ label) j = nth_error (firstn c t) j).
  { intros j Hj. rewrite nth_error_app1 by lia.
    rewrite !Session.nth_error_firstn_lt by lia. reflexivity. }
  rewrite Detection.detect_cases. cbn [text cursor_position].
  assert (Hscan : Spec.scanned (firstn rs t ++ label ++ skipn c t)
                    (Z.of_nat (rs + length label)) = firstn rs t ++ label).
  { unfold Spec.scanned.
    destruct (Z.leb_spec (Z.of_nat (rs + length label)) 0); [lia|].
    rewrite Nat2Z.id. rewrite <- Hlen at 1.
    rewrite firstn_app_2. rewrite firstn_length_app. reflexivity. }
  rewrite Hscan.
  assert (Hstart : startswith (firstn rs t ++ label ++ skipn c t) [SLASH] = false).
  { destruct t as [|c0 rest]; [simpl in Htl; lia|].
    destruct rs as [|r]; [lia|]. simpl in Hs |- *.
    rewrite startswith_nil in *. exact Hs. }
  rewrite Hstart.
  assert (Hfind : rfind AT (firstn rs t ++ label) = Some trigger).
  { apply rfind_last_index. split.
    - rewrite Hnth by exact Hrs_gt. exact Hat.
    - intros j Hj Hj'. destruct (Nat.lt_ge_cases j rs) as [Hlt|Hge].
      + rewrite Hnth in Hj' by exact Hlt. apply (Hlast j Hj Hj').
      + rewrite nth_error_app2 in Hj' by lia.
        apply nth_error_In in Hj'. contradiction. }
  rewrite Hfind.
  assert (Hbound : Detection.boundaryb (firstn rs t ++ label) trigger = true).
  { unfold Detection.boundaryb in *. destruct (Nat.eqb_spec trigger 0); [reflexivity|].
    rewrite Hnth by lia. exact Hb. }
  rewrite Hbound. reflexivity.
Qed.

Section Commit.
Context {Path : Type}.
Variable joinpath : Path -> str -> Path.
Variable path_str : Path -> str.
Variable scandir : Path -> result (list DirEntry).
Variable fuzzy_match : str -> str -> Q * list nat.
Variable isspace : char -> bool.
Variable lower : str -> str.
Variable clamp_visitable : str -> nat * nat -> nat * nat.

Local Abbreviation handle_text_change :=
  (_handle_text_change joinpath path_str scandir fuzzy_match isspace lower).
Local Abbreviation rebuild_options :=
  (_rebuild_options joinpath path_str scandir fuzzy_match isspace lower).
Local Abbreviation complete :=
  (_complete joinpath path_str scandir fuzzy_match isspace lower clamp_visitable).

(** The cursor position depends on the text and the location alone. *)
Lemma cursor_position_of (w : Widget Path) (t : str) (row col : nat) :
  target_text w = t -> target_cursor_location w = (row, col) ->
  row <= length (split_lines t) ->
  _get_cursor_position w
  = Ok (list_sum (map line_cost (firstn row (split_lines t))) + col).
Proof.
  intros Ht Hl Hr. unfold _get_cursor_position. rewrite Ht, Hl.
  apply Nat.leb_le in Hr. rewrite Hr. reflexivity.
Qed.

(** X14.  A commit in slash mode, from end to end: the buffer becomes the
    label of the chosen command, the cursor is sent to row 0, column
    [length label], and stands at the end of the label when the target keeps
    that location; the flag stays set, and the refresh that follows hides
    the dropdown and clears the flag without touching the buffer. *)
Theorem slash_commit (host : Host) (option_index : nat) (self : Widget Path)
  (option : DropdownItem) (glyph : Content) (state : TargetState) :
  display self = true -> _mode self = Some slash ->
  nth_error (options self) option_index = Some option ->
  prefix option = Some glyph -> plain glyph = BOLT ->
  _get_target_state self = Ok state ->
  let label := value option in
  exists w',
    complete host option_index self = Ok w'
    /\ target_text w' = label
    /\ target_cursor_location w' = clamp_visitable label (0, length label)
    /\ (clamp_visitable label (0, length label) = (0, length label) ->
        _get_cursor_position w' = Ok (length label))
    /\ _completing w' = true
    /\ options w' = options self
    /\ display (refresh w') = false
    /\ _completing (refresh w') = false
    /\ target_text (refresh w') = label.
Proof.
  intros Hd Hm Ho Hp Hg Hs label.
  assert (Hv : Suppression.committed_value option = label).
  { unfold label, Suppression.committed_value, prompt, value. rewrite Hp.
    destruct glyph as [g gs]. destruct option as [[m ms] pf i dis]. simpl in *.
    subst g. destruct m; reflexivity. }
  rewrite (Suppression.complete_steps joinpath path_str scandir fuzzy_match isspace lower
             clamp_visitable host option_index self option state Hd Ho Hs).
  rewrite Hv, Hm. cbn [mode_is Mode_eqb andb].
  rewrite Splice.apply_completion_slash by (destruct self; simpl in *; congruence).
  cbn [bind]. eexists. split; [reflexivity|].
  split; [reflexivity|]. split; [reflexivity|].
  split.
  { intros Hkeep.
    rewrite (cursor_position_of _ label 0 (length label));
      [reflexivity | reflexivity | simpl; exact Hkeep | simpl; lia]. }
  split; [reflexivity|]. split; [destruct self; reflexivity|].
  unfold refresh.
  match goal with
  | |- context [fold_left _ (after_refresh ?w) ?w0] =>
      destruct (Suppression.run_callbacks (after_refresh w) w0) as [H1 [_ H3]];
      assert (Hne : after_refresh w <> [])
  end.
  { simpl. intros H. apply app_eq_nil in H. destruct H as [_ H]. discriminate. }
  destruct (H3 Hne) as [H4 H5].
  split; [exact H5|]. split; [exact H4|]. rewrite H1. reflexivity.
Qed.

(** X15.  Descent into a directory: committing a container whose label holds
    no [@], in a session that detection has set up in path mode, splices the
    label in, clears the flag and detects again.  When that detection
    returns, the target keeping the location the commit sent the cursor to,
    the session is still in path mode with its trigger where it was, and the
    cursor stands right after the label. *)
Theorem container_commit_keeps_session (host : Host) (option_index : nat)
  (self w' : Widget Path) (option : DropdownItem) (state : TargetState) :
  display self = true ->
  nth_error (options self) option_index = Some option ->
  _get_target_state self = Ok state ->
  detect state = (Some path, _trigger_pos self) -> _mode self = Some path ->
  endswith (Suppression.committed_value option) [SLASH] = true ->
  ~ In AT (Suppression.committed_value option) ->
  let label := Suppression.committed_value option in
  let cursor := Spec.effective_cursor (text state) (cursor_position state) in
  let new_text := fst (Spec.splice (text state) (_trigger_pos self) cursor label) in
  let new_cursor := snd (Spec.splice (text state) (_trigger_pos self) cursor label) in
  let lines := split_lines (firstn new_cursor new_text) in
  let loc := (length lines - 1, length (last lines [])) in
  clamp_visitable new_text loc = loc ->
  complete host option_index self = Ok w' ->
  target_text w' = new_text
  /\ _get_cursor_position w' = Ok new_cursor
  /\ _completing w' = false
  /\ _mode w' = Some path
  /\ _trigger_pos w' = _trigger_pos self.
Proof.
  intros Hd Ho Hs Hdet Hm Hend Hat label cursor new_text new_cursor lines loc Hkeep Hw'.
  rewrite (Suppression.complete_steps joinpath path_str scandir fuzzy_match isspace lower
             clamp_visitable host option_index self option state Hd Ho Hs) in Hw'.
  fold label in Hw'. rewrite Hm in Hw'. unfold label at 2 in Hw'. rewrite Hend in Hw'.
  cbn [mode_is Mode_eqb andb] in Hw'.
  rewrite Splice.apply_completion_path in Hw'
    by (destruct self; simpl in *; congruence).
  cbn [bind] in Hw'.
  replace (_trigger_pos (set_completing true self)) with (_trigger_pos self) in Hw'
    by (destruct self; reflexivity).
  fold cursor in Hw'.
  unfold new_text, new_cursor, Spec.splice in *. cbn [fst snd] in *.
  set (rs := Spec.replaceStart (text state) (_trigger_pos self) cursor) in *.
  set (t := firstn rs (text state) ++ label ++ skipn cursor (text state)) in *.
  fold lines in Hw'. fold loc in Hw'. rewrite Hkeep in Hw'.
  set (w2 := set_completing false (set_target t loc (set_completing true self))) in *.
  (* the offsets *)
  pose proof (Session.detect_path _ _ Hdet) as [_ [Hr _]].
  apply rfind_Some in Hr. destruct Hr as [Hr _].
  rewrite Session.scanned_effective in Hr.
  apply Session.nth_error_firstn_Some in Hr. destruct Hr as [Hr _].
  assert (Htl : _trigger_pos self < length (text state))
    by (apply nth_error_Some; congruence).
  assert (Hrs : rs <= length (text state)) by (apply Splice.replaceStart_le; exact Htl).
  assert (Hn : rs + length label <= length t).
  { unfold t. rewrite !length_app, length_firstn. lia. }
  destruct (row_col_round_trip t (rs + length label) Hn) as [Hrow Hsum].
  fold lines in Hrow, Hsum.
  assert (Hpos : forall w : Widget Path, target_text w = t ->
            target_cursor_location w = loc ->
            _get_cursor_position w = Ok (rs + length label)).
  { intros w Ht Hl. rewrite (cursor_position_of w t _ _ Ht Hl Hrow).
    rewrite Hsum. reflexivity. }
  assert (Hs2 : _get_target_state w2
                = Ok {| text := t; cursor_position := Z.of_nat (rs + length label) |}).
  { unfold _get_target_state. rewrite (Hpos w2) by (destruct self; reflexivity).
    simpl. destruct self; reflexivity. }
  assert (Hdet2 : detect {| text := t; cursor_position := Z.of_nat (rs + length label) |}
                  = (Some path, _trigger_pos self)).
  { destruct state as [t0 c]. apply (detect_after_descent t0 c); assumption. }
  pose proof (Suppression.handle_text_change_untouched _ _ _ _ _ _ _ _ Hw')
    as [Ht [Hl [Hc _]]].
  assert (Hnew : target_text w' = t) by (rewrite Ht; destruct self; reflexivity).
  split; [exact Hnew|].
  split; [apply Hpos; [exact Hnew | rewrite Hl; destruct self; reflexivity]|].
  split; [rewrite Hc; destruct self; reflexivity|].
  destruct (Session.handle_text_change_steps _ _ _ _ _ _ w2 w'
              ltac:(destruct self; reflexivity) Hw')
    as [state' [Hs' Hcases]].
  rewrite Hs2 in Hs'. inversion Hs'; subst state'. rewrite Hdet2 in Hcases.
  cbn [fst snd] in Hcases.
  destruct Hcases as [[Hnone _]|[_ [w1 [Hr1 Hw]]]]; [discriminate|].
  apply Session.rebuild_options_shape in Hr1.
  destruct Hr1 as [Hm1 [Hp1 _]]. simpl in Hm1, Hp1.
  destruct Hw as [[Hw _]|Hw]; subst w'; simpl; split; assumption.
Qed.

End Commit.

Lemma slash_commit_witness :
  exists w',
    Demo.complete Demo.busy 0 Suppression.one_command = Ok w'
    /\ target_text w' = lit "/worktree start"
    /\ _get_cursor_position w' = Ok 15.
Proof.
  destruct (slash_commit Demo.joinpath Demo.path_str Demo.scandir Demo.fuzzy_match
              Demo.isspace Demo.lower Demo.clamp_visitable Demo.busy 0
              Suppression.one_command
              (hd (new_item [] []) (options Suppression.one_command))
              (Content_of_str BOLT)
              {| text := lit "/worktree st"; cursor_position := 0 |}
              eq_refl eq_refl eq_refl eq_refl eq_refl eq_refl)
    as [w' [H1 [H2 [_ [H3 _]]]]].
  exists w'. split; [exact H1|]. split; [exact H2|]. apply H3. reflexivity.
Defined.

(** ["see @su"] completed to [subdir/]: the session stays on the [@] at
    offset 4. *)
Definition one_directory : Widget Demo.Path :=
  Demo.unwrap (Demo.handle_text_change (Demo.widget (lit "see @su") (0, 7)))
    (Demo.widget [] (0, 0)).

Lemma container_commit_keeps_session_witness :
  exists w',
    Demo.complete Demo.busy 0 one_directory = Ok w'
    /\ target_text w' = lit "see @subdir/"
    /\ _mode w' = Some path /\ _trigger_pos w' = 4.
Proof.
  eexists. split; [vm_compute; reflexivity|].
  destruct (container_commit_keeps_session Demo.joinpath Demo.path_str Demo.scandir
              Demo.fuzzy_match Demo.isspace Demo.lower Demo.clamp_visitable
              Demo.busy 0 one_directory
              (Demo.unwrap (Demo.complete Demo.busy 0 one_directory) one_directory)
              (hd (new_item [] []) (options one_directory))
              {| text := lit "see @su"; cursor_position := 7 |}
              eq_refl eq_refl eq_refl eq_refl eq_refl eq_refl)
    as [H2 [_ [_ [H3 H4]]]].
  - vm_compute. intuition discriminate.
  - reflexivity.
  - vm_compute. reflexivity.
  - split; [exact H2|]. split; [exact H3 | exact H4].
Defined.

End Commit.

(* ================================================================== *)
(** ** The target: [ChatInput] and its history *)
(* ================================================================== *)

(** [cc_textual/widgets/chat.py]: the text area the widget completes in,
    which keeps a history of what was submitted. *)
Module ChatInput.
Import Py.

(** [l[i]] for an integer [i] of either sign. *)
Definition getitem (l : list (list N)) (i : Z) : result str :=
  let n := Z.of_nat (length l) in
  let j := if (i <? 0)%Z then (i + n)%Z else i in
  if ((0 <=? j) && (j <? n))%Z%bool
  then match nth_error l (Z.to_nat j) with
       | Some x => Ok x
       | None => Raise IndexError
       end
  else Raise IndexError.

Record ChatInput := {
  text : str;
  cursor_location : nat * nat;
  _history : list (list N);
  _history_index : Z;
  _current_input : str;
  posted : list (list N)
}.

Section ChatInput.

(** What Textual and [str] provide: [str.strip], the number of lines of the
    document, its end, and the move of the cursor by some rows. *)
Variable strip : str -> str.
Variable line_count : str -> nat.
Variable document_end : str -> nat * nat.
Variable move_cursor_relative : str -> nat * nat -> Z -> nat * nat.

Definition set_cursor (loc : nat * nat) (self : ChatInput) : ChatInput :=
  {| text := text self; cursor_location := loc; _history := _history self;
     _history_index := _history_index self; _current_input := _current_input self;
     posted := posted self |}.

(** [self.text = t], which leaves the cursor at the start, followed by
    [self.move_cursor(self.document.end)]; the index and the saved input are
    those the method has set by then. *)
Definition show_entry (t : str) (index : Z) (saved : str) (self : ChatInput) : ChatInput :=
  {| text := t; cursor_location := document_end t; _history := _history self;
     _history_index := index; _current_input := saved; posted := posted self |}.

Definition action_submit (self : ChatInput) : result ChatInput :=
  let text_ := strip (text self) in
  bind
    (match text_ with
     | [] => Ok (_history self)
     | _ :: _ =>
         match _history self with
         | [] => Ok (_history self ++ [text_])
         | _ :: _ =>
             bind (getitem (_history self) (-1)) (fun last_entry =>
             if negb (str_eqb last_entry text_)
             then Ok (_history self ++ [text_])
             else Ok (_history self))
         end
     end)
    (fun history =>
       Ok {| text := text self; cursor_location := cursor_location self;
             _history := history; _history_index := (-1)%Z;
             _current_input := _current_input self;
             posted := posted self ++ [text self] |}).

Definition action_history_prev (self : ChatInput) : result ChatInput :=
  if negb (fst (cursor_location self) =? 0)
  then Ok (set_cursor (move_cursor_relative (text self) (cursor_location self) (-1)) self)
  else
    match _history self with
    | [] => Ok self
    | _ :: _ =>
        let '(saved, index) :=
          if (_history_index self =? -1)%Z
          then (text self, (Z.of_nat (length (_history self)) - 1)%Z)
          else if (0 <? _history_index self)%Z
               then (_current_input self, (_history_index self - 1)%Z)
               else (_current_input self, _history_index self) in
        bind (getitem (_history self) index) (fun entry =>
        Ok (show_entry entry index saved self))
    end.

Definition action_history_next (self : ChatInput) : result ChatInput :=
  let last_line := line_count (text self) - 1 in
  if negb (fst (cursor_location self) =? last_line)
  then Ok (set_cursor (move_cursor_relative (text self) (cursor_location self) 1) self)
  else if (_history_index self =? -1)%Z then Ok self
  else if (_history_index self <? Z.of_nat (length (_history self)) - 1)%Z
       then bind (getitem (_history self) (_history_index self + 1)) (fun entry =>
            Ok (show_entry entry (_history_index self + 1)%Z (_current_input self) self))
       else Ok (show_entry (_current_input self) (-1)%Z (_current_input self) self).

End ChatInput.
End ChatInput.

Module History.
Import Py PyFacts ChatInput.

(** The index is [-1] or points into the history. *)
Definition index_in_range (self : ChatInput) : Prop :=
  (-1 <= _history_index self < Z.of_nat (length (_history self)))%Z.

(** No entry is empty and no entry repeats the one before it. *)
Fixpoint tidy (history : list (list N)) : Prop :=
  match history with
  | [] => True
  | a :: rest =>
      a <> [] /\ match rest with
                 | [] => True
                 | b :: _ => a <> b
                 end /\ tidy rest
  end.

Lemma getitem_in_range (l : list (list N)) (i : Z) :
  (0 <= i < Z.of_nat (length l))%Z ->
  exists x, getitem l i = Ok x /\ nth_error l (Z.to_nat i) = Some x.
Proof.
  intros H. unfold getitem.
  destruct (Z.ltb_spec i 0); [lia|].
  destruct (Z.leb_spec 0 i); [|lia].
  destruct (Z.ltb_spec i (Z.of_nat (length l))); [|lia]. simpl.
  destruct (nth_error l (Z.to_nat i)) as [x|] eqn:E; [eauto|].
  apply nth_error_None in E. lia.
Qed.

Lemma getitem_last (l : list (list N)) (x : list N) :
  getitem (l ++ [x]) (-1) = Ok x.
Proof.
  unfold getitem. rewrite length_app. simpl length.
  destruct (Z.ltb_spec (-1) 0); [|lia].
  destruct (Z.leb_spec 0 (-1 + Z.of_nat (length l + 1))); [|lia].
  destruct (Z.ltb_spec (-1 + Z.of_nat (length l + 1)) (Z.of_nat (length l + 1))); [|lia].
  cbn [andb]. replace (Z.to_nat (-1 + Z.of_nat (length l + 1))) with (length l) by lia.
  rewrite nth_error_app2 by lia. rewrite Nat.sub_diag. reflexivity.
Qed.

Lemma tidy_snoc (l : list (list N)) (last_entry x : list N) :
  tidy (l ++ [last_entry]) -> x <> [] -> last_entry <> x ->
  tidy ((l ++ [last_entry]) ++ [x]).
Proof.
  intros Ht Hx Hne. induction l as [|a l IH]; simpl in *.
  - destruct Ht as [Ha _]. repeat split; assumption.
  - destruct Ht as [Ha [Hb Ht]]. split; [exact Ha|]. split.
    + destruct l; simpl in *; exact Hb.
    + apply IH. exact Ht.
Qed.

Section History.
Variable strip : str -> str.
Variable line_count : str -> nat.
Variable document_end : str -> nat * nat.
Variable move_cursor_relative : str -> nat * nat -> Z -> nat * nat.

Local Abbreviation submit := (action_submit strip).
Local Abbreviation prev := (action_history_prev document_end move_cursor_relative).
Local Abbreviation next := (action_history_next line_count document_end move_cursor_relative).

(** X16.  Submitting keeps the history tidy: it raises nothing, appends the
    stripped text unless that is empty or equal to the last entry, changes no
    earlier entry, leaves the browsing state, and posts the text as it
    stands; a history without empty entries and without an entry repeated
    right after itself stays so. *)
Theorem submit_keeps_history_tidy (self : ChatInput) :
  exists self',
    submit self = Ok self'
    /\ (_history self' = _history self
        \/ _history self' = _history self ++ [strip (text self)])
    /\ (_history self' = _history self <->
        strip (text self) = []
        \/ exists l, _history self = l ++ [strip (text self)])
    /\ _history_index self' = (-1)%Z
    /\ text self' = text self
    /\ posted self' = posted self ++ [text self]
    /\ (tidy (_history self) -> tidy (_history self')).
Proof.
  unfold action_submit.
  destruct (strip (text self)) as [|c t] eqn:Es.
  - simpl. eexists. split; [reflexivity|]. simpl.
    split; [left; reflexivity|]. split; [tauto|]. repeat split. tauto.
  - destruct (_history self) as [|a l] eqn:Eh.
    + simpl. eexists. split; [reflexivity|]. simpl.
      split; [right; reflexivity|].
      split; [|repeat split; discriminate].
      split; [discriminate|]. intros [H|[l H]]; [discriminate|].
      destruct l; discriminate.
    + destruct (exists_last (l := a :: l)) as [l0 [e He]]; [discriminate|].
      rewrite He. rewrite getitem_last. simpl bind.
      destruct (str_eqb e (c :: t)) eqn:Ee; simpl.
      * apply str_eqb_eq in Ee. subst e.
        eexists. split; [reflexivity|]. simpl.
        split; [left; reflexivity|].
        split; [split; [intros _; right; exists l0; reflexivity | reflexivity]|].
        repeat split. tauto.
      * apply str_eqb_neq in Ee.
        eexists. split; [reflexivity|]. simpl.
        split; [right; reflexivity|]. split.
        -- split.
           ++ intros H. exfalso.
              assert (Hl : length ((l0 ++ [e]) ++ [c :: t]) = length (l0 ++ [e]))
                by (rewrite H; reflexivity).
              rewrite length_app in Hl. simpl in Hl. lia.
           ++ intros [H|[l' H]]; [discriminate|].
              apply app_inj_tail in H. destruct H as [_ H]. congruence.
        -- repeat split. intros Ht. apply tidy_snoc; [exact Ht | discriminate | exact Ee].
Qed.

(** X17.  Browsing never leaves the history: when the index is [-1] or
    points into the history, previous and next raise nothing, leave the
    history as it is and leave the index in that range. *)
Theorem browsing_stays_in_range (self : ChatInput) :
  index_in_range self ->
  (exists self', prev self = Ok self'
                 /\ _history self' = _history self /\ index_in_range self')
  /\ (exists self', next self = Ok self'
                    /\ _history self' = _history self /\ index_in_range self').
Proof.
  unfold index_in_range. intros Hr. split.
  - unfold action_history_prev.
    destruct (negb (fst (cursor_location self) =? 0)).
    { eexists. split; [reflexivity|]. split; [reflexivity | exact Hr]. }
    destruct (_history self) as [|a l] eqn:Eh.
    { eexists. split; [reflexivity|]. rewrite Eh. split; [reflexivity | exact Hr]. }
    rewrite <- Eh in *.
    assert (Hlen : (0 < Z.of_nat (length (_history self)))%Z) by (rewrite Eh; simpl; lia).
    destruct (Z.eqb_spec (_history_index self) (-1)).
    + destruct (getitem_in_range (_history self) (Z.of_nat (length (_history self)) - 1))
        as [x [Hx _]]; [lia|].
      rewrite Hx. simpl. eexists. split; [reflexivity|]. simpl. split; [reflexivity | lia].
    + destruct (Z.ltb_spec 0 (_history_index self)).
      * destruct (getitem_in_range (_history self) (_history_index self - 1))
          as [x [Hx _]]; [lia|].
        rewrite Hx. simpl. eexists. split; [reflexivity|]. simpl.
        split; [reflexivity | lia].
      * destruct (getitem_in_range (_history self) (_history_index self))
          as [x [Hx _]]; [lia|].
        rewrite Hx. simpl. eexists. split; [reflexivity|]. simpl.
        split; [reflexivity | lia].
  - unfold action_history_next.
    destruct (negb (fst (cursor_location self) =? line_count (text self) - 1)).
    { eexists. split; [reflexivity|]. split; [reflexivity | exact Hr]. }
    destruct (Z.eqb_spec (_history_index self) (-1)).
    { eexists. split; [reflexivity|]. split; [reflexivity | exact Hr]. }
    destruct (Z.ltb_spec (_history_index self) (Z.of_nat (length (_history self)) - 1)).
    + destruct (getitem_in_range (_history self) (_history_index self + 1))
        as [x [Hx _]]; [lia|].
      rewrite Hx. simpl. eexists. split; [reflexivity|]. simpl.
      split; [reflexivity | lia].
    + eexists. split; [reflexivity|]. simpl. split; [reflexivity | lia].
Qed.

(** X18.  Previous and then next: from a state that is not browsing, with
    the cursor on the first row and a history that is not empty, previous
    shows the last entry and saves the input, and next -- the cursor then
    standing on the last line, where the end of the document is -- restores
    the input and stops browsing. *)
Theorem previous_then_next (self : ChatInput) :
  (forall t, fst (document_end t) = line_count t - 1) ->
  _history_index self = (-1)%Z ->
  fst (cursor_location self) = 0 ->
  _history self <> [] ->
  exists shown restored,
    prev self = Ok shown
    /\ Some (text shown) = nth_error (_history self) (length (_history self) - 1)
    /\ _current_input shown = text self
    /\ _history_index shown = (Z.of_nat (length (_history self)) - 1)%Z
    /\ next shown = Ok restored
    /\ text restored = text self
    /\ _history_index restored = (-1)%Z
    /\ _history restored = _history self.
Proof.
  intros Hend Hi Hrow Hne.
  assert (Hlen : (0 < Z.of_nat (length (_history self)))%Z).
  { destruct (_history self); [congruence | simpl; lia]. }
  destruct (getitem_in_range (_history self) (Z.of_nat (length (_history self)) - 1))
    as [x [Hx Hnth]]; [lia|].
  replace (Z.to_nat (Z.of_nat (length (_history self)) - 1))
    with (length (_history self) - 1) in Hnth by lia.
  exists (show_entry document_end x (Z.of_nat (length (_history self)) - 1)
            (text self) self).
  eexists. split.
  { unfold action_history_prev. rewrite Hrow, Hi. simpl.
    destruct (_history self) eqn:E; [congruence|]. rewrite <- E in *.
    rewrite Hx. reflexivity. }
  split; [simpl; congruence|]. split; [reflexivity|]. split; [reflexivity|].
  split.
  { unfold action_history_next. simpl. rewrite Hend, Nat.eqb_refl. simpl.
    destruct (Z.eqb_spec (Z.of_nat (length (_history self)) - 1) (-1)); [lia|].
    destruct (Z.ltb_spec (Z.of_nat (length (_history self)) - 1)
                (Z.of_nat (length (_history self)) - 1)); [lia|].
    reflexivity. }
  repeat split.
Qed.

End History.

(** A concrete target: lines are the pieces between newlines, white space is
    space, tab and newline. *)
Definition ends (t : str) : nat * nat :=
  (length (split_lines t) - 1, length (last (split_lines t) [])).

Definition strip_spaces (t : str) : str :=
  let blank c := char_in c [SPACE; NEWLINE; TAB] in
  let fix drop (s : str) : str :=
    match s with
    | c :: s' => if blank c then drop s' else s
    | [] => []
    end in
  rev (drop (rev (drop t))).

Definition typed (t : str) (history : list (list N)) : ChatInput :=
  {| text := t; cursor_location := (0, length t); _history := history;
     _history_index := (-1)%Z; _current_input := []; posted := [] |}.

Example submit_run :
  match action_submit strip_spaces (typed (lit " /clear ") [lit "hello"; lit "/clear"]) with
  | Ok self' => _history self' = [lit "hello"; lit "/clear"]
                /\ posted self' = [lit " /clear "]
  | Raise _ => False
  end.
Proof. vm_compute. split; reflexivity. Qed.

Lemma browsing_stays_in_range_witness :
  exists self',
    action_history_prev ends (fun _ loc _ => loc)
      (typed (lit "draft") [lit "hello"; lit "/clear"]) = Ok self'
    /\ index_in_range self'.
Proof.
  destruct (browsing_stays_in_range (fun t => length (split_lines t)) ends
              (fun _ loc _ => loc) (typed (lit "draft") [lit "hello"; lit "/clear"]))
    as [[self' [H1 [_ H2]]] _].
  - unfold index_in_range. simpl. lia.
  - exists self'. split; [exact H1 | exact H2].
Defined.

Lemma previous_then_next_witness :
  exists shown restored,
    action_history_prev ends (fun _ loc _ => loc)
      (typed (lit "draft") [lit "hello"; lit "/clear"]) = Ok shown
    /\ text shown = lit "/clear"
    /\ action_history_next (fun t => length (split_lines t)) ends (fun _ loc _ => loc)
         shown = Ok restored
    /\ text restored = lit "draft".
Proof.
  destruct (previous_then_next (fun t => length (split_lines t)) ends
              (fun _ loc _ => loc) (typed (lit "draft") [lit "hello"; lit "/clear"]))
    as [shown [restored [H1 [H2 [_ [_ [H3 [H4 _]]]]]]]].
  - intros t. reflexivity.
  - reflexivity.
  - reflexivity.
  - discriminate.
  - exists shown, restored. split; [exact H1|].
    split; [simpl in H2; congruence|]. split; [exact H3 | exact H4].
Defined.

End History.

(* ================================================================== *)
(** ** Listing the commands, reusing a listing *)
(* ================================================================== *)

Module Listing.
Import Py AutoComplete PyFacts.

Lemma Forall_firstn {A} (P : A -> Prop) (n : nat) (l : list A) :
  Forall P l -> Forall P (firstn n l).
Proof.
  revert l. induction n as [|n IH]; intros l H; [constructor|].
  destruct H; [constructor|]. simpl. constructor; [assumption | apply IH; assumption].
Qed.


Section Listing.
Context {Path : Type}.
Variable joinpath : Path -> str -> Path.
Variable path_str : Path -> str.
Variable scandir : Path -> result (list DirEntry).
Variable fuzzy_match : str -> str -> Q * list nat.
Variable isspace : char -> bool.
Variable lower : str -> str.

Local Abbreviation handle_text_change :=
  (_handle_text_change joinpath path_str scandir fuzzy_match isspace lower).

(** X19.  A text made of slashes only lists every command: after a change
    that is not suppressed the mode is slash, the options are the commands
    of the configuration, in their order, each with the command prefix, and
    the dropdown is displayed exactly when there is a command. *)
Theorem slashes_list_every_command (self : Widget Path) (state : TargetState) :
  _completing self = false ->
  _get_target_state self = Ok state ->
  text state <> [] -> Forall (eq SLASH) (text state) ->
  exists w',
    handle_text_change self = Ok w'
    /\ _mode w' = Some slash /\ _trigger_pos w' = 0
    /\ options w' = map (fun cmd => new_item cmd BOLT) (slash_commands self)
    /\ (display w' = true <-> slash_commands self <> [])
    /\ _directory_cache w' = _directory_cache self.
Proof.
  intros Hc Hs Hne Hall.
  assert (Hdet : detect state = (Some slash, 0)).
  { unfold detect. destruct (text state) as [|c t]; [congruence|].
    inversion Hall; subst. simpl. destruct t; reflexivity. }
  assert (Hsearch : Forall (eq SLASH) (text_to_check state)).
  { unfold text_to_check, prefix_to.
    destruct (0 <? cursor_position state)%Z; [|exact Hall].
    destruct (cursor_position state <? 0)%Z; apply Forall_firstn; exact Hall. }
  apply Matches.lstrip_nil in Hsearch.
  unfold _handle_text_change. rewrite Hc, Hs. cbn [bind]. rewrite Hdet.
  cbn [_mode set_session]. unfold _rebuild_options, _get_candidates.
  cbn [_mode set_session set_options bind slash_commands _directory_cache].
  unfold _get_search_string. cbn [_mode set_cache set_options set_session].
  unfold _get_matches, query_of.
  cbn [_mode set_cache set_options set_session mode_is Mode_eqb].
  rewrite Hsearch.
  assert (Hm : match text_to_check state with
               | [] => map (fun cmd => new_item cmd BOLT) (slash_commands self)
               | _ :: _ => map (fun cmd => new_item cmd BOLT) (slash_commands self)
               end = map (fun cmd => new_item cmd BOLT) (slash_commands self))
    by (destruct (text_to_check state); reflexivity).
  rewrite Hm. clear Hm.
  destruct (slash_commands self) as [|cmd cmds] eqn:Ecmds.
  - simpl. eexists. split; [reflexivity|]. simpl.
    repeat split; try congruence; try discriminate.
  - cbn [map bind]. unfold option_count, _should_show.
    cbn [options set_options length Nat.ltb Nat.leb _mode set_cache set_session
         mode_is Mode_eqb].
    rewrite Hsearch.
    destruct cmds as [|cmd2 cmds].
    + cbn [map]. replace (str_eqb (plain (prompt (new_item cmd BOLT))) []) with false
        by reflexivity.
      cbn [negb]. eexists. split; [reflexivity|]. simpl.
      repeat split; try reflexivity; discriminate.
    + cbn [map]. eexists. split; [reflexivity|]. simpl.
      repeat split; try reflexivity; discriminate.
Qed.


End Listing.

Lemma slashes_list_every_command_witness :
  exists w',
    Demo.handle_text_change (Demo.widget (lit "//") (0, 1)) = Ok w'
    /\ map value (options w') = Demo.commands.
Proof.
  destruct (slashes_list_every_command Demo.joinpath Demo.path_str Demo.scandir
              Demo.fuzzy_match Demo.isspace Demo.lower
              (Demo.widget (lit "//") (0, 1))
              {| text := lit "//"; cursor_position := 1 |} eq_refl eq_refl)
    as [w' [H1 [_ [_ [H2 _]]]]].
  - discriminate.
  - repeat constructor.
  - exists w'. split; [exact H1|]. rewrite H2. reflexivity.
Defined.


(** The directory with the looping link: listed once, the call raises, and
    so does a call that finds the listing in the cache. *)
Example looping_link_cached :
  let state := {| text := lit "@loops/"; cursor_position := 7 |} in
  let self := set_session (Some path) 0 (Demo.widget (lit "@loops/") (0, 7)) in
  _get_path_candidates Demo.joinpath Demo.path_str Demo.scandir Demo.lower state self
  = Raise Demo.ELOOP
  /\ _get_path_candidates Demo.joinpath Demo.path_str Demo.scandir Demo.lower state
       (set_cache (LRU.put (lit "tmp/loops") Demo.loops (LRU.empty 100)) self)
     = Raise Demo.ELOOP.
Proof. split; vm_compute; reflexivity. Qed.

End Listing.
